(** * Plugin resolution: a shallow embedding of [src/plugins/resolve.ts]

    [resolvePlugins] walks an ordered list of plugin descriptors once and
    merges their contributions into one [ResolvedPlugins] value, raising
    a [PluginConflictError] on the first exclusivity violation.

    Modelling conventions.
    - The capability objects the engine only moves around (providers,
      permission rules, handlers, callbacks) are abstract types, packed
      in the class [Capabilities].
    - An optional property ([integrations?: ...]) is an [option].  Every
      optional property of [Plugin] is an object, array or function, so
      the source's truthiness tests on them are presence tests.
    - A [Record<string, V>] the code iterates with [Object.entries] is
      the list of its own entries in iteration order.
    - A [Record<string, V>] the code builds by keyed stores
      ([resolved.permissions] and friends) is a finite map of its own
      properties; the values stored are objects or functions, hence
      truthy.
    - Every object is an ordinary object: its prototype is
      [Object.prototype], with the members the language standard
      gives it and no other.  A read [obj[key]] and a test
      [key in obj] find an own property first and an inherited member
      otherwise; every inherited member is a function or an object,
      hence truthy, and has no method [includes].
    - A call either returns, throws a [PluginConflictError], or throws
      the [TypeError] of calling a method that is not there. *)

From stdpp Require Import base strings list gmap.

Open Scope string_scope.
Open Scope list_scope.

(* ------------------------------------------------------------------ *)
(** ** Opaque capability types ([./types]) *)

Class Capabilities := {
  IntegrationProvider : Type;
  AuthProvider : Type;
  Permission : Type;
  ActionDefinition : Type;
  PipelineMiddleware : Type;
  RouteHandler : Type;
  InitHook : Type;
  RequestHook : Type;
  ErrorHook : Type;
  ShutdownHook : Type
}.

(** Own enumerable entries of a [Record<string, V>], in the order
    [Object.entries] yields them. *)
Abbreviation JsRecord V := (list (string * V)).

(* ------------------------------------------------------------------ *)
(** ** Conflict error (resolve.ts, lines 51-59) *)

Record PluginConflictError := {
  kind : string;
  key : string;
  pluginA : string;
  pluginB : string
}.

Definition dquote : string := String (Ascii.ascii_of_nat 34) EmptyString.

(** The text handed to [super(...)]. *)
Definition message (e : PluginConflictError) : string :=
  "Plugin conflict: " +:+ kind e +:+ " " +:+ dquote +:+ key e +:+ dquote
    +:+ " is defined by both " +:+ dquote +:+ pluginA e +:+ dquote
    +:+ " and " +:+ dquote +:+ pluginB e +:+ dquote +:+ ". "
    +:+ "Each " +:+ kind e +:+ " must be provided by exactly one plugin.".

Definition error_name (e : PluginConflictError) : string :=
  "PluginConflictError".

(** What the thrown object holds: the constructor hands [message] to
    [Error] (line 53) and assigns [name] (line 57); it assigns no
    other property. *)
Record ErrorObject := {
  object_name : string;
  object_message : string
}.

Definition thrown_object (e : PluginConflictError) : ErrorObject :=
  {| object_name := error_name e; object_message := message e |}.

(** The character the template puts around the key and the two names. *)
Definition quote_char : Ascii.ascii := Ascii.ascii_of_nat 34.

(** [s] holds no double quote. *)
Fixpoint quote_free (s : string) : bool :=
  match s with
  | EmptyString => true
  | String c rest => bool_decide (c ≠ quote_char) && quote_free rest
  end.

(** The four constructor arguments hold no double quote. *)
Definition plain_text (e : PluginConflictError) : Prop :=
  quote_free (kind e) = true ∧ quote_free (key e) = true ∧
  quote_free (pluginA e) = true ∧ quote_free (pluginB e) = true.

(* ------------------------------------------------------------------ *)
(** ** Inherited members

    The names of the members of [Object.prototype]: the properties of
    the Object prototype object the standard lists, with the accessor
    [__proto__] and the four legacy methods of its annex. *)
Definition inherited_names : list string :=
  ["constructor"; "hasOwnProperty"; "isPrototypeOf"; "propertyIsEnumerable";
   "toLocaleString"; "toString"; "valueOf"; "__proto__";
   "__defineGetter__"; "__defineSetter__";
   "__lookupGetter__"; "__lookupSetter__"].

Definition inherited (k : string) : Prop := k ∈ inherited_names.

#[global] Instance inherited_dec k : Decision (inherited k).
Proof. unfold inherited. apply _. Defined.

(** [if (obj[k])] on an object built by keyed stores of truthy values:
    [k] was stored, or [k] names an inherited member. *)
Definition reads_truthy {V} (obj : gmap string V) (k : string) : Prop :=
  is_Some (obj !! k) ∨ inherited k.

(** [k in obj] on an object with the own keys [keys]. *)
Definition has_key (keys : list string) (k : string) : Prop :=
  k ∈ keys ∨ inherited k.

(* ------------------------------------------------------------------ *)
(** ** Outcomes *)

(** A call returns, throws a [PluginConflictError], or throws the
    [TypeError] of line 121. *)
Inductive Result (A : Type) : Type :=
  | Return (a : A)
  | Throw (e : PluginConflictError)
  | TypeError.
Arguments Return {A} a.
Arguments Throw {A} e.
Arguments TypeError {A}.

#[global] Instance Result_ret : MRet Result := @Return.
#[global] Instance Result_bind : MBind Result := λ A B f m,
  match m with
  | Return a => f a
  | Throw e => Throw e
  | TypeError => TypeError
  end.

Definition returns {A} (m : Result A) : Prop := ∃ a, m = Return a.
Definition throws {A} (m : Result A) : Prop := ∃ e, m = Throw e.

(** Two outcomes that agree up to the owners named in a conflict:
    both return, with results related by [R], or both throw a
    conflict of the same kind about the same key, or both throw the
    [TypeError]. *)
Definition same_but_owners {A} (m m' : Result A) (R : A → A → Prop) : Prop :=
  match m with
  | Return a => ∃ a', m' = Return a' ∧ R a a'
  | Throw e => ∃ e', m' = Throw e' ∧ kind e' = kind e ∧ key e' = key e
  | TypeError => m' = TypeError
  end.

(** [x!] on a [string | undefined] is erased at run time; inside the
    template literal an undefined value prints as the text below. *)
Definition non_null (x : option string) : string := default "undefined" x.

(* ------------------------------------------------------------------ *)
(** ** Descriptors and the resolved output *)

Section Resolve.
Context `{Capabilities}.

Record Plugin := {
  name : string;
  integrations : option (list IntegrationProvider);
  auth : option AuthProvider;
  permissions : option (JsRecord Permission);
  roles : option (JsRecord (list string));
  actions : option (JsRecord ActionDefinition);
  middleware : option (list PipelineMiddleware);
  routes : option (JsRecord RouteHandler);
  onInit : option InitHook;
  onRequest : option RequestHook;
  onError : option ErrorHook;
  onShutdown : option ShutdownHook
}.

Record Hooks := {
  hooks_onInit : list InitHook;
  hooks_onRequest : list RequestHook;
  hooks_onError : list ErrorHook;
  hooks_onShutdown : list ShutdownHook
}.

Record ResolvedPlugins := {
  resolved_integrations : list IntegrationProvider;
  resolved_auth : option AuthProvider;
  resolved_permissions : gmap string Permission;
  resolved_roles : gmap string (list string);
  resolved_actions : gmap string ActionDefinition;
  resolved_middleware : list PipelineMiddleware;
  resolved_routes : gmap string RouteHandler;
  resolved_hooks : Hooks
}.

(** The two locals of [resolvePlugins]: the accumulator and the name of
    the plugin that supplied [auth]. *)
Record State := {
  resolved : ResolvedPlugins;
  authSource : option string
}.

(** The [field] argument of [findOwner]. *)
Inductive Field := Permissions | Actions | Routes.

(** Own keys of [p[field]], when that property is present. *)
Definition field_keys (field : Field) (p : Plugin) : option (list string) :=
  match field with
  | Permissions => fmap (M:=list) fst <$> permissions p
  | Actions => fmap (M:=list) fst <$> actions p
  | Routes => fmap (M:=list) fst <$> routes p
  end.

(** resolve.ts, lines 178-190. *)
Fixpoint findOwner (plugins : list Plugin) (field : Field)
    (key currentName : string) : string :=
  match plugins with
  | [] => "engine config"
  | p :: rest =>
      if decide (name p = currentName) then "engine config"
      else
        match field_keys field p with
        | Some obj =>
            if decide (has_key obj key) then name p
            else findOwner rest field key currentName
        | None => findOwner rest field key currentName
        end
  end.

(** The loop shared by permissions (lines 100-112), actions (129-141)
    and routes (148-161): store each entry, throwing on a key under
    which the accumulator reads a truthy value, its own or inherited. *)
Fixpoint merge_exclusive {V} (plugins : list Plugin) (kind : string)
    (field : Field) (pluginName : string) (entries : JsRecord V)
    (acc : gmap string V) : Result (gmap string V) :=
  match entries with
  | [] => Return acc
  | (k, v) :: rest =>
      if decide (reads_truthy acc k) then
        Throw {| kind := kind; key := k;
                 pluginA := findOwner plugins field k pluginName;
                 pluginB := pluginName |}
      else merge_exclusive plugins kind field pluginName rest (<[k:=v]> acc)
  end.

(** Lines 120-124: [if (!arr.includes(perm)) arr.push(perm)]. *)
Definition push_new (arr : list string) (perm : string) : list string :=
  if decide (perm ∈ arr) then arr else arr ++ [perm].

(** Lines 116-125, one entry of [plugin.roles].  With an array of its
    own under [role] the slugs are merged into it; with none, line 117
    reads an inherited member if [role] names one and makes no array,
    and line 121 then calls the [includes] that member lacks. *)
Definition merge_role (acc : gmap string (list string))
    (entry : string * list string) : Result (gmap string (list string)) :=
  let '(role, perms) := entry in
  match acc !! role with
  | Some arr => Return (<[role := foldl push_new arr perms]> acc)
  | None =>
      if decide (inherited role) then
        match perms with
        | [] => Return acc
        | _ :: _ => TypeError
        end
      else Return (<[role := foldl push_new [] perms]> acc)
  end.

(** Lines 116-126 over [Object.entries(plugin.roles)]. *)
Fixpoint merge_roles (acc : gmap string (list string))
    (entries : JsRecord (list string)) : Result (gmap string (list string)) :=
  match entries with
  | [] => Return acc
  | entry :: rest => acc' ← merge_role acc entry; merge_roles acc' rest
  end.

(** Lines 90-97. *)
Definition merge_auth (cur : option AuthProvider) (src : option string)
    (plugin : Plugin) : Result (option AuthProvider * option string) :=
  match auth plugin with
  | Some a =>
      match cur with
      | Some _ =>
          Throw {| kind := "auth"; key := "auth";
                   pluginA := non_null src; pluginB := name plugin |}
      | None => Return (Some a, Some (name plugin))
      end
  | None => Return (cur, src)
  end.

(** Lines 164-167. *)
Definition push_hook {A} (l : list A) (h : option A) : list A :=
  match h with
  | Some f => l ++ [f]
  | None => l
  end.

Definition merge_hooks (hs : Hooks) (plugin : Plugin) : Hooks :=
  {| hooks_onInit := push_hook (hooks_onInit hs) (onInit plugin);
     hooks_onRequest := push_hook (hooks_onRequest hs) (onRequest plugin);
     hooks_onError := push_hook (hooks_onError hs) (onError plugin);
     hooks_onShutdown := push_hook (hooks_onShutdown hs) (onShutdown plugin) |}.

(** The body of the [for (const plugin of plugins)] loop, lines 85-167.
    A throw abandons the accumulator, so the stores made before it in
    the same iteration are not observable. *)
Definition merge_plugin (plugins : list Plugin) (s : State)
    (plugin : Plugin) : Result State :=
  let r := resolved s in
  let integrations' :=
    resolved_integrations r ++ default [] (integrations plugin) in
  '(auth', authSource') ← merge_auth (resolved_auth r) (authSource s) plugin;
  permissions' ←
    merge_exclusive plugins "permission" Permissions (name plugin)
      (default [] (permissions plugin)) (resolved_permissions r);
  roles' ← merge_roles (resolved_roles r) (default [] (roles plugin));
  actions' ←
    merge_exclusive plugins "action" Actions (name plugin)
      (default [] (actions plugin)) (resolved_actions r);
  let middleware' :=
    resolved_middleware r ++ default [] (middleware plugin) in
  routes' ←
    merge_exclusive plugins "route" Routes (name plugin)
      (default [] (routes plugin)) (resolved_routes r);
  let hooks' := merge_hooks (resolved_hooks r) plugin in
  mret {| resolved :=
            {| resolved_integrations := integrations';
               resolved_auth := auth';
               resolved_permissions := permissions';
               resolved_roles := roles';
               resolved_actions := actions';
               resolved_middleware := middleware';
               resolved_routes := routes';
               resolved_hooks := hooks' |};
          authSource := authSource' |}.

(** Lines 66-82. *)
Definition initial : State :=
  {| resolved :=
       {| resolved_integrations := [];
          resolved_auth := None;
          resolved_permissions := ∅;
          resolved_roles := ∅;
          resolved_actions := ∅;
          resolved_middleware := [];
          resolved_routes := ∅;
          resolved_hooks :=
            {| hooks_onInit := []; hooks_onRequest := [];
               hooks_onError := []; hooks_onShutdown := [] |} |};
     authSource := None |}.

(** The loop over [todo], with [plugins] the whole argument (it is what
    [findOwner] scans). *)
Fixpoint resolve_loop (plugins todo : list Plugin) (s : State)
    : Result State :=
  match todo with
  | [] => Return s
  | plugin :: rest =>
      s' ← merge_plugin plugins s plugin; resolve_loop plugins rest s'
  end.

(** resolve.ts, lines 65-171. *)
Definition resolvePlugins (plugins : list Plugin) : Result ResolvedPlugins :=
  s ← resolve_loop plugins plugins initial; mret (resolved s).

(* ------------------------------------------------------------------ *)
(** ** Vocabulary for stating the properties *)

(** What one descriptor contributes, with an absent property read as
    an empty contribution. *)
Definition integrations_of (p : Plugin) : list IntegrationProvider :=
  default [] (integrations p).
Definition middleware_of (p : Plugin) : list PipelineMiddleware :=
  default [] (middleware p).
Definition permission_slugs (p : Plugin) : list string :=
  (default [] (permissions p)).*1.
Definition action_names (p : Plugin) : list string :=
  (default [] (actions p)).*1.
Definition route_keys (p : Plugin) : list string :=
  (default [] (routes p)).*1.
Definition role_entries (p : Plugin) : JsRecord (list string) :=
  default [] (roles p).

(** The objects of a descriptor have pairwise distinct own keys, as
    every JavaScript object has; entry lists that repeat a key stand
    for no object. *)
Definition well_formed (p : Plugin) : Prop :=
  NoDup (permission_slugs p) ∧ NoDup (role_entries p).*1 ∧
  NoDup (action_names p) ∧ NoDup (route_keys p).

Definition disjoint_keys (l1 l2 : list string) : Prop :=
  Forall (λ k, k ∉ l2) l1.

(** Two descriptors that claim no exclusive key in common. *)
Definition no_overlap (p q : Plugin) : Prop :=
  ¬ (is_Some (auth p) ∧ is_Some (auth q)) ∧
  disjoint_keys (permission_slugs p) (permission_slugs q) ∧
  disjoint_keys (action_names p) (action_names q) ∧
  disjoint_keys (route_keys p) (route_keys q).

(** [R] holds between every element and every later one. *)
Fixpoint pairwise {A} (R : A → A → Prop) (l : list A) : Prop :=
  match l with
  | [] => True
  | x :: rest => Forall (R x) rest ∧ pairwise R rest
  end.

#[global] Instance pairwise_dec {A} (R : A → A → Prop)
    `{∀ x y, Decision (R x y)} (l : list A) : Decision (pairwise R l).
Proof. induction l; simpl; apply _. Defined.

#[global] Instance well_formed_dec (p : Plugin) : Decision (well_formed p).
Proof. unfold well_formed. apply _. Defined.

(** No key and no role name of the descriptor spells an inherited
    member. *)
Definition plain (p : Plugin) : Prop :=
  Forall (λ k, ¬ inherited k)
    (permission_slugs p ++ action_names p ++ route_keys p ++
     (role_entries p).*1).

#[global] Instance plain_dec (p : Plugin) : Decision (plain p).
Proof. unfold plain. apply _. Defined.

#[global] Instance no_overlap_dec (p q : Plugin) : Decision (no_overlap p q).
Proof. unfold no_overlap, disjoint_keys. apply _. Defined.

(** [p[field]] is present and has [key] among its own keys. *)
Definition owns (field : Field) (key : string) (p : Plugin) : Prop :=
  ∃ obj, field_keys field p = Some obj ∧ key ∈ obj.

(** [p[field]] is present and [key in p[field]]. *)
Definition finds (field : Field) (key : string) (p : Plugin) : Prop :=
  ∃ obj, field_keys field p = Some obj ∧ has_key obj key.

(** The stores of [merge_exclusive] without the membership test. *)
Definition store_all {V} (acc : gmap string V) (entries : JsRecord V)
    : gmap string V :=
  foldl (λ m kv, <[kv.1 := kv.2]> m) acc entries.

(** [entries] can be stored into [acc] without a collision: no key
    repeats, is held by [acc] or names an inherited member. *)
Definition fresh_entries {V} (entries : JsRecord V) (acc : gmap string V)
    : Prop :=
  NoDup entries.*1 ∧
  Forall (λ k, acc !! k = None ∧ ¬ inherited k) entries.*1.

(** Merging [entry] into [acc] calls no missing method. *)
Definition role_safe (acc : gmap string (list string))
    (entry : string * list string) : Prop :=
  acc !! entry.1 = None → inherited entry.1 → entry.2 = [].

#[global] Instance role_safe_dec acc entry : Decision (role_safe acc entry).
Proof. unfold role_safe. apply _. Defined.

(** What [merge_role] returns when it returns. *)
Definition absorb_role (acc : gmap string (list string))
    (entry : string * list string) : gmap string (list string) :=
  match acc !! entry.1 with
  | Some arr => <[entry.1 := foldl push_new arr entry.2]> acc
  | None =>
      if decide (inherited entry.1) then acc
      else <[entry.1 := foldl push_new [] entry.2]> acc
  end.

(** The loop body without its checks: what [merge_plugin] returns when
    it returns. *)
Definition absorb (s : State) (plugin : Plugin) : State :=
  let r := resolved s in
  {| resolved :=
       {| resolved_integrations :=
            resolved_integrations r ++ integrations_of plugin;
          resolved_auth :=
            match auth plugin with
            | Some a => Some a
            | None => resolved_auth r
            end;
          resolved_permissions :=
            store_all (resolved_permissions r) (default [] (permissions plugin));
          resolved_roles :=
            foldl absorb_role (resolved_roles r) (role_entries plugin);
          resolved_actions :=
            store_all (resolved_actions r) (default [] (actions plugin));
          resolved_middleware :=
            resolved_middleware r ++ middleware_of plugin;
          resolved_routes :=
            store_all (resolved_routes r) (default [] (routes plugin));
          resolved_hooks := merge_hooks (resolved_hooks r) plugin |};
     authSource :=
       match auth plugin with
       | Some _ => Some (name plugin)
       | None => authSource s
       end |}.

(** The checks of the loop body: no key of [plugin] reads as truthy
    in an accumulator of [s], no-one supplied [auth] before, and no
    role entry calls a missing method. *)
Definition admits (s : State) (plugin : Plugin) : Prop :=
  let r := resolved s in
  (is_Some (auth plugin) → resolved_auth r = None) ∧
  fresh_entries (default [] (permissions plugin)) (resolved_permissions r) ∧
  Forall (role_safe (resolved_roles r)) (role_entries plugin) ∧
  fresh_entries (default [] (actions plugin)) (resolved_actions r) ∧
  fresh_entries (default [] (routes plugin)) (resolved_routes r).

Fixpoint admits_all (s : State) (todo : list Plugin) : Prop :=
  match todo with
  | [] => True
  | p :: rest => admits s p ∧ admits_all (absorb s p) rest
  end.

(** The [kind] string the engine pairs with each [field]. *)
Definition kind_of (field : Field) : string :=
  match field with
  | Permissions => "permission"
  | Actions => "action"
  | Routes => "route"
  end.

(** Own keys of [p[field]], none when the property is absent. *)
Definition field_slugs (field : Field) (p : Plugin) : list string :=
  default [] (field_keys field p).

(** The accumulator of [s] for [field] already has [key]. *)
Definition holds (field : Field) (s : State) (key : string) : Prop :=
  match field with
  | Permissions => is_Some (resolved_permissions (resolved s) !! key)
  | Actions => is_Some (resolved_actions (resolved s) !! key)
  | Routes => is_Some (resolved_routes (resolved s) !! key)
  end.

(** What a throw of the loop body tells: which check failed and how
    the four constructor arguments were computed. *)
Definition thrown_by (plugins : list Plugin) (s : State) (p : Plugin)
    (e : PluginConflictError) : Prop :=
  (e = {| kind := "auth"; key := "auth";
          pluginA := non_null (authSource s); pluginB := name p |} ∧
   is_Some (auth p) ∧ is_Some (resolved_auth (resolved s))) ∨
  (∃ field,
     e = {| kind := kind_of field; key := key e;
            pluginA := findOwner plugins field (key e) (name p);
            pluginB := name p |} ∧
     key e ∈ field_slugs field p ∧
     (NoDup (field_slugs field p) →
      holds field s (key e) ∨ inherited (key e))).

(** [authSource] names the descriptor among [seen] whose [auth] the
    accumulator holds, and is unset exactly when no [auth] is held. *)
Definition auth_tracked (seen : list Plugin) (s : State) : Prop :=
  (resolved_auth (resolved s) = None ∧ authSource s = None) ∨
  (∃ p, p ∈ seen ∧ is_Some (auth p) ∧
        resolved_auth (resolved s) = auth p ∧ authSource s = Some (name p)).

(** Descriptor [p] contributes the thing the conflict [e] is about. *)
Definition claims (e : PluginConflictError) (p : Plugin) : Prop :=
  (kind e = "auth" ∧ key e = "auth" ∧ is_Some (auth p)) ∨
  (∃ field, kind e = kind_of field ∧ key e ∈ field_slugs field p).

(** [{ ...p, roles: undefined }] *)
Definition without_roles (p : Plugin) : Plugin :=
  {| name := name p; integrations := integrations p; auth := auth p;
     permissions := permissions p; roles := None; actions := actions p;
     middleware := middleware p; routes := routes p; onInit := onInit p;
     onRequest := onRequest p; onError := onError p;
     onShutdown := onShutdown p |}.

(** Two role mappings with the same role names and, under each name,
    the same slugs up to order. *)
Definition roles_equiv (m m' : gmap string (list string)) : Prop :=
  ∀ role, option_Forall2 (≡ₚ) (m !! role) (m' !! role).

Definition hooks_equiv (h h' : Hooks) : Prop :=
  hooks_onInit h ≡ₚ hooks_onInit h' ∧
  hooks_onRequest h ≡ₚ hooks_onRequest h' ∧
  hooks_onError h ≡ₚ hooks_onError h' ∧
  hooks_onShutdown h ≡ₚ hooks_onShutdown h'.

(** Two resolved configurations that differ at most in the order of
    their sequences. *)
Definition same_contents (r r' : ResolvedPlugins) : Prop :=
  resolved_integrations r ≡ₚ resolved_integrations r' ∧
  resolved_auth r = resolved_auth r' ∧
  resolved_permissions r = resolved_permissions r' ∧
  roles_equiv (resolved_roles r) (resolved_roles r') ∧
  resolved_actions r = resolved_actions r' ∧
  resolved_middleware r ≡ₚ resolved_middleware r' ∧
  resolved_routes r = resolved_routes r' ∧
  hooks_equiv (resolved_hooks r) (resolved_hooks r').

(** Keep the first occurrence of every element. *)
Fixpoint first_seen (l : list string) : list string :=
  match l with
  | [] => []
  | x :: rest => x :: filter (λ y, y ≠ x) (first_seen rest)
  end.

(** The slug lists that [plugins] declare for [role], in input order. *)
Definition role_lists (role : string) (plugins : list Plugin)
    : list (list string) :=
  (filter (λ e, e.1 = role) (plugins ≫= role_entries)).*2.

(** definePlugin.ts, lines 15-17. *)
Definition definePlugin (plugin : Plugin) : Plugin := plugin.

(** [{ ...p, name: n }] *)
Definition rename (n : string) (p : Plugin) : Plugin :=
  {| name := n; integrations := integrations p; auth := auth p;
     permissions := permissions p; roles := roles p; actions := actions p;
     middleware := middleware p; routes := routes p; onInit := onInit p;
     onRequest := onRequest p; onError := onError p;
     onShutdown := onShutdown p |}.

(** The own keys of [p[field]] at which the test of the accumulator
    is truthy after [pre]: those a descriptor of [pre] has too and those
    that spell an inherited member, in the order [Object.entries]
    yields them. *)
Definition taken_keys (field : Field) (pre : list Plugin) (p : Plugin)
    : list string :=
  filter (λ k, k ∈ pre ≫= field_slugs field ∨ inherited k)
    (field_slugs field p).

(** The entries of [p.roles] with a slug under a role name that spells
    an inherited member. *)
Definition unsafe_roles (p : Plugin) : JsRecord (list string) :=
  filter (λ entry, inherited entry.1 ∧ entry.2 ≠ []) (role_entries p).

(** What stops the loop body: a conflict of some kind about some key,
    or the call of a missing method. *)
Inductive Stop :=
  | Collision (knd k : string)
  | MissingMethod.

(** What stops the loop body at [p] after the descriptors [pre], in
    the order the body makes its checks: [auth] (line 92), permissions
    (102), roles (121), actions (131), routes (151). *)
Definition stops (pre : list Plugin) (p : Plugin) : list Stop :=
  (if decide (is_Some (auth p) ∧ Exists (λ q, is_Some (auth q)) pre)
   then [Collision "auth" "auth"] else []) ++
  (Collision "permission" <$> taken_keys Permissions pre p) ++
  ((λ _, MissingMethod) <$> unsafe_roles p) ++
  (Collision "action" <$> taken_keys Actions pre p) ++
  (Collision "route" <$> taken_keys Routes pre p).

(** The roles of two resolved configurations merged as the loop merges
    them: the slugs of [m2] appended to those of [m1] unless present. *)
Definition roles_union (m1 m2 : gmap string (list string))
    : gmap string (list string) :=
  union_with (λ a b, Some (foldl push_new a b)) m1 m2.

Definition hooks_app (h1 h2 : Hooks) : Hooks :=
  {| hooks_onInit := hooks_onInit h1 ++ hooks_onInit h2;
     hooks_onRequest := hooks_onRequest h1 ++ hooks_onRequest h2;
     hooks_onError := hooks_onError h1 ++ hooks_onError h2;
     hooks_onShutdown := hooks_onShutdown h1 ++ hooks_onShutdown h2 |}.

(** Everything [r'] holds, [r] holds too. *)
Definition contained (r' r : ResolvedPlugins) : Prop :=
  resolved_integrations r' ⊆+ resolved_integrations r ∧
  (∀ a, resolved_auth r' = Some a → resolved_auth r = Some a) ∧
  resolved_permissions r' ⊆ resolved_permissions r ∧
  (∀ role slugs', resolved_roles r' !! role = Some slugs' →
     ∃ slugs, resolved_roles r !! role = Some slugs ∧ slugs' ⊆ slugs) ∧
  resolved_actions r' ⊆ resolved_actions r ∧
  resolved_middleware r' ⊆+ resolved_middleware r ∧
  resolved_routes r' ⊆ resolved_routes r ∧
  hooks_onInit (resolved_hooks r') ⊆+ hooks_onInit (resolved_hooks r) ∧
  hooks_onRequest (resolved_hooks r') ⊆+ hooks_onRequest (resolved_hooks r) ∧
  hooks_onError (resolved_hooks r') ⊆+ hooks_onError (resolved_hooks r) ∧
  hooks_onShutdown (resolved_hooks r') ⊆+ hooks_onShutdown (resolved_hooks r).

(** Two descriptor lists no descriptor of which overlaps one of the
    other list. *)
Definition apart (xs ys : list Plugin) : Prop :=
  Forall (λ x, Forall (no_overlap x) ys) xs.

#[global] Instance apart_dec xs ys : Decision (apart xs ys).
Proof. unfold apart. apply _. Defined.

End Resolve.

(* ------------------------------------------------------------------ *)
(** ** Sample descriptors

    Concrete inputs for the scenarios: every capability object is
    stood for by a label. *)

Definition labels : Capabilities :=
  {| IntegrationProvider := string; AuthProvider := string;
     Permission := string; ActionDefinition := string;
     PipelineMiddleware := string; RouteHandler := string;
     InitHook := string; RequestHook := string;
     ErrorHook := string; ShutdownHook := string |}.

(** [{ name: n }] *)
Definition bare (n : string) : @Plugin labels :=
  @Build_Plugin labels n None None None None None None None None None None None.

(** [{ ...p, auth: a }] and so on. *)
Definition with_auth (a : string) (p : @Plugin labels)
    : @Plugin labels :=
  @Build_Plugin labels (name p)
    (integrations p) (Some a) (permissions p) (roles p)
    (actions p) (middleware p) (routes p) (onInit p)
    (onRequest p) (onError p) (onShutdown p).

Definition with_permissions (o : JsRecord string) (p : @Plugin labels)
    : @Plugin labels :=
  @Build_Plugin labels (name p)
    (integrations p) (auth p) (Some o) (roles p)
    (actions p) (middleware p) (routes p) (onInit p)
    (onRequest p) (onError p) (onShutdown p).

Definition with_roles (o : JsRecord (list string)) (p : @Plugin labels)
    : @Plugin labels :=
  @Build_Plugin labels (name p)
    (integrations p) (auth p) (permissions p) (Some o)
    (actions p) (middleware p) (routes p) (onInit p)
    (onRequest p) (onError p) (onShutdown p).

Definition with_routes (o : JsRecord string) (p : @Plugin labels)
    : @Plugin labels :=
  @Build_Plugin labels (name p)
    (integrations p) (auth p) (permissions p) (roles p)
    (actions p) (middleware p) (Some o) (onInit p)
    (onRequest p) (onError p) (onShutdown p).

Definition with_integrations (l : list string) (p : @Plugin labels)
    : @Plugin labels :=
  @Build_Plugin labels (name p)
    (Some l) (auth p) (permissions p) (roles p)
    (actions p) (middleware p) (routes p) (onInit p)
    (onRequest p) (onError p) (onShutdown p).

Definition with_middleware (l : list string) (p : @Plugin labels)
    : @Plugin labels :=
  @Build_Plugin labels (name p)
    (integrations p) (auth p) (permissions p) (roles p)
    (actions p) (Some l) (routes p) (onInit p)
    (onRequest p) (onError p) (onShutdown p).

Definition with_onInit (f : string) (p : @Plugin labels)
    : @Plugin labels :=
  @Build_Plugin labels (name p)
    (integrations p) (auth p) (permissions p) (roles p)
    (actions p) (middleware p) (routes p) (Some f)
    (onRequest p) (onError p) (onShutdown p).

(** The descriptors of the scenarios. *)
Definition A_p1 : @Plugin labels := with_permissions [("p1", "ruleA")] (bare "A").
Definition B_p1 : @Plugin labels := with_permissions [("p1", "ruleB")] (bare "B").
Definition A_again_p1 : @Plugin labels :=
  with_permissions [("p1", "ruleA2")] (bare "A").
Definition A_auth_p1 : @Plugin labels := with_auth "authA" A_p1.
Definition C_auth : @Plugin labels := with_auth "authC" (bare "C").
Definition B_auth_p1 : @Plugin labels := with_auth "authB" B_p1.
Definition A_lists : @Plugin labels :=
  with_integrations ["i1"; "i2"] (with_middleware ["m1"] A_p1).
Definition B_lists : @Plugin labels :=
  with_integrations ["i3"] (with_middleware ["m2"; "m3"]
    (with_permissions [("p2", "ruleB")] (bare "B"))).
Definition A_editor : @Plugin labels :=
  with_roles [("editor", ["x"; "y"])] (bare "A").
Definition B_editor : @Plugin labels :=
  with_roles [("editor", ["y"; "z"])] (bare "B").
Definition A_editor_x : @Plugin labels := with_roles [("editor", ["x"])] (bare "A").
Definition B_editor_y : @Plugin labels := with_roles [("editor", ["y"])] (bare "B").
Definition A_route : @Plugin labels := with_routes [("GET /x", "h1")] (bare "A").
Definition B_route : @Plugin labels := with_routes [("GET /y", "h2")] (bare "B").

(** Descriptors with a key or a role name that spells a member of
    [Object.prototype]. *)
Definition A_toString : @Plugin labels :=
  with_permissions [("toString", "ruleA")] (bare "A").
Definition A_q : @Plugin labels := with_permissions [("q", "ruleA")] (bare "A").
Definition B_valueOf : @Plugin labels :=
  with_permissions [("valueOf", "ruleB")] (bare "B").
Definition A_constructor_role : @Plugin labels :=
  with_roles [("constructor", ["x"])] (bare "A").
Definition A_constructor_empty : @Plugin labels :=
  with_roles [("constructor", [])] (bare "A").

(** Descriptors whose names hold double quotes. *)
Definition quoted_y_z : string := "y" +:+ dquote +:+ " and " +:+ dquote +:+ "z".
Definition quoted_z_w : string := "z" +:+ dquote +:+ " and " +:+ dquote +:+ "w".
Definition YZ_k : @Plugin labels :=
  with_permissions [("k", "rule1")] (bare quoted_y_z).
Definition W_k : @Plugin labels := with_permissions [("k", "rule2")] (bare "w").
Definition Y_k : @Plugin labels := with_permissions [("k", "rule1")] (bare "y").
Definition ZW_k : @Plugin labels :=
  with_permissions [("k", "rule2")] (bare quoted_z_w).

(* ------------------------------------------------------------------ *)
(** ** The same function over a store

    The functional model above cannot say that an input is left alone.
    Here descriptors, their arrays and their key-value objects live in
    a store and are passed by reference, as in the source; every read,
    store and [push] of [resolvePlugins] and [findOwner] is a store
    operation.  The object literal [resolved] and its [hooks] are bound
    to a [const] and only their [auth] property is ever assigned, so
    they are kept as a local record of references.  A [for ... of] loop
    runs over the elements its array holds when the loop starts; the
    arrays looped over are the descriptor array and the slug arrays of
    the descriptors, which are never written while a loop runs over
    them (the frame theorem below), so the iterator yields just those.
    The last part of the file proves that a run on a store holding the
    descriptors returns what the functional model returns and throws
    what it throws. *)

Module Store.

Definition loc := nat.

(** A value: [builtin k] is the member [k] of [Object.prototype], a
    function or, for [__proto__], that object itself. *)
Inductive val :=
  | undefined
  | str (s : string)
  | ref (l : loc)
  | builtin (k : string).

Inductive object :=
  | array (elems : list val)
  | record (props : list (string * val)).

#[global] Instance val_eq_dec : EqDecision val.
Proof. solve_decision. Defined.

Abbreviation heap := (gmap loc object).

(** A run ends with a value, with a thrown conflict, with the
    [TypeError] of a call to a method that is not there, or stuck on a
    store that lacks the shape the TypeScript types promise. *)
Inductive Outcome (A : Type) : Type :=
  | Done (a : A) (h : heap)
  | Raised (e : PluginConflictError) (h : heap)
  | Failed (h : heap)
  | Stuck (h : heap).
Arguments Done {A} a h.
Arguments Raised {A} e h.
Arguments Failed {A} h.
Arguments Stuck {A} h.

Definition heap_of {A} (o : Outcome A) : heap :=
  match o with
  | Done _ h | Raised _ h | Failed h | Stuck h => h
  end.

Definition M (A : Type) : Type := heap → Outcome A.

#[global] Instance M_ret : MRet M := λ A a h, Done a h.
#[global] Instance M_bind : MBind M := λ A B f m h,
  match m h with
  | Done a h' => f a h'
  | Raised e h' => Raised e h'
  | Failed h' => Failed h'
  | Stuck h' => Stuck h'
  end.

Definition throw {A} (e : PluginConflictError) : M A := λ h, Raised e h.
Definition type_error {A} : M A := λ h, Failed h.
Definition stuck {A} : M A := λ h, Stuck h.

Definition truthy (v : val) : bool :=
  match v with
  | undefined => false
  | str s => bool_decide (s ≠ EmptyString)
  | ref _ => true
  | builtin _ => true
  end.

(** How a template literal prints a value. *)
Definition text_of (v : val) : string :=
  match v with
  | undefined => "undefined"
  | str s => s
  | ref _ => "[object Object]"
  | builtin k => "function " +:+ k +:+ "() { [native code] }"
  end.

Definition as_ref (v : val) : M loc :=
  match v with
  | ref l => mret l
  | _ => stuck
  end.

Definition as_str (v : val) : M string :=
  match v with
  | str s => mret s
  | _ => stuck
  end.

(** The elements of the array at [l]. *)
Definition read_array (l : loc) : M (list val) := λ h,
  match h !! l with
  | Some (array xs) => Done xs h
  | _ => Stuck h
  end.

(** [Object.entries] of the object at [l]. *)
Definition entries (l : loc) : M (list (string * val)) := λ h,
  match h !! l with
  | Some (record ps) => Done ps h
  | _ => Stuck h
  end.

Fixpoint prop (k : string) (ps : list (string * val)) : val :=
  match ps with
  | [] => undefined
  | (k', v) :: rest => if decide (k' = k) then v else prop k rest
  end.

Fixpoint set_prop (k : string) (v : val) (ps : list (string * val))
    : list (string * val) :=
  match ps with
  | [] => [(k, v)]
  | (k', v') :: rest =>
      if decide (k' = k) then (k, v) :: rest else (k', v') :: set_prop k v rest
  end.

(** [o[k]] on an object with the own properties [ps]: an own property
    first, an inherited member otherwise. *)
Definition lookup_chain (k : string) (ps : list (string * val)) : val :=
  if decide (k ∈ ps.*1) then prop k ps
  else if decide (inherited k) then builtin k
  else undefined.

(** [o[k]] *)
Definition get (l : loc) (k : string) : M val :=
  ps ← entries l; mret (lookup_chain k ps).

(** [o[k] = v].  The program stores only under a key it has just read
    as falsy, hence never under the name of an inherited member. *)
Definition set (l : loc) (k : string) (v : val) : M unit := λ h,
  match h !! l with
  | Some (record ps) => Done () (<[l := record (set_prop k v ps)]> h)
  | _ => Stuck h
  end.

(** [a.push(...vs)] *)
Definition push (l : loc) (vs : list val) : M unit := λ h,
  match h !! l with
  | Some (array xs) => Done () (<[l := array (xs ++ vs)]> h)
  | _ => Stuck h
  end.

(** An array or object literal. *)
Definition alloc (o : object) : M loc := λ h,
  let l := fresh (dom h) in Done l (<[l := o]> h).

(** The local [resolved], with [hooks] flattened. *)
Record Resolved := {
  r_integrations : loc;
  r_auth : val;
  r_permissions : loc;
  r_roles : loc;
  r_actions : loc;
  r_middleware : loc;
  r_routes : loc;
  r_onInit : loc;
  r_onRequest : loc;
  r_onError : loc;
  r_onShutdown : loc
}.

Definition set_auth (r : Resolved) (a : val) : Resolved :=
  {| r_integrations := r_integrations r; r_auth := a;
     r_permissions := r_permissions r; r_roles := r_roles r;
     r_actions := r_actions r; r_middleware := r_middleware r;
     r_routes := r_routes r; r_onInit := r_onInit r;
     r_onRequest := r_onRequest r; r_onError := r_onError r;
     r_onShutdown := r_onShutdown r |}.

(** resolve.ts, lines 184-189, over the elements [ps] of [plugins]. *)
Fixpoint findOwner_from (ps : list val) (field key currentName : string)
    : M string :=
  match ps with
  | [] => mret "engine config"
  | p :: rest =>
      pl ← as_ref p;
      n ← get pl "name" ≫= as_str;
      if decide (n = currentName) then mret "engine config"
      else
        obj ← get pl field;
        if truthy obj then
          ol ← as_ref obj;
          own ← entries ol;
          if decide (has_key own.*1 key) then
            get pl "name" ≫= as_str
          else findOwner_from rest field key currentName
        else findOwner_from rest field key currentName
  end.

Definition findOwner (plugins : loc) (field key currentName : string)
    : M string :=
  ps ← read_array plugins; findOwner_from ps field key currentName.

(** Lines 101-111 (and 130-140, 150-160) over [Object.entries(...)]. *)
Fixpoint store_entries (plugins plugin : loc) (kind field : string)
    (es : list (string * val)) (target : loc) : M unit :=
  match es with
  | [] => mret ()
  | (k, v) :: rest =>
      cur ← get target k;
      if truthy cur then
        n ← get plugin "name" ≫= as_str;
        owner ← findOwner plugins field k n;
        n' ← get plugin "name" ≫= as_str;
        throw {| kind := kind; key := k; pluginA := owner; pluginB := n' |}
      else
        set target k v;;
        store_entries plugins plugin kind field rest target
  end.

(** Lines 100-112: [if (plugin.permissions) for (...) ...]. *)
Definition merge_exclusive (plugins plugin : loc) (kind field : string)
    (target : loc) : M unit :=
  obj ← get plugin field;
  if truthy obj then
    ol ← as_ref obj;
    es ← entries ol;
    store_entries plugins plugin kind field es target
  else mret ().

(** The receiver of [.includes(perm)]: an array, or a value that has
    no such method, the call of which throws. *)
Definition includes_receiver (v : val) : M loc :=
  match v with
  | ref l => mret l
  | builtin _ | undefined => type_error
  | str _ => stuck
  end.

(** Lines 120-124 over the elements of [perms]. *)
Fixpoint push_perms (roles : loc) (role : string) (perms : list val)
    : M unit :=
  match perms with
  | [] => mret ()
  | perm :: rest =>
      arr ← get roles role ≫= includes_receiver;
      xs ← read_array arr;
      (if decide (perm ∈ xs) then mret ()
       else
         arr' ← get roles role ≫= as_ref;
         push arr' [perm]);;
      push_perms roles role rest
  end.

(** Lines 116-125 over [Object.entries(plugin.roles)]. *)
Fixpoint merge_roles (roles : loc) (es : list (string * val)) : M unit :=
  match es with
  | [] => mret ()
  | (role, perms) :: rest =>
      cur ← get roles role;
      (if truthy cur then mret ()
       else l ← alloc (array []); set roles role (ref l));;
      pl ← as_ref perms;
      ps ← read_array pl;
      push_perms roles role ps;;
      merge_roles roles rest
  end.

(** Lines 86-88 and 144-146: [if (plugin.f) target.push(...plugin.f)]. *)
Definition concat_into (plugin : loc) (field : string) (target : loc)
    : M unit :=
  v ← get plugin field;
  if truthy v then
    l ← as_ref v;
    xs ← read_array l;
    push target xs
  else mret ().

(** Lines 164-167: [if (plugin.f) target.push(plugin.f)]. *)
Definition push_hook (plugin : loc) (field : string) (target : loc)
    : M unit :=
  v ← get plugin field;
  if truthy v then push target [v] else mret ().

(** Lines 90-97. *)
Definition merge_auth (plugin : loc) (r : Resolved) (authSource : val)
    : M (Resolved * val) :=
  a ← get plugin "auth";
  if truthy a then
    if truthy (r_auth r) then
      n ← get plugin "name" ≫= as_str;
      throw {| kind := "auth"; key := "auth";
               pluginA := text_of authSource; pluginB := n |}
    else
      n ← get plugin "name";
      mret (set_auth r a, n)
  else mret (r, authSource).

(** The loop body, lines 85-167. *)
Definition merge_plugin (plugins : loc) (r : Resolved) (authSource : val)
    (p : val) : M (Resolved * val) :=
  plugin ← as_ref p;
  concat_into plugin "integrations" (r_integrations r);;
  '(r', authSource') ← merge_auth plugin r authSource;
  merge_exclusive plugins plugin "permission" "permissions" (r_permissions r');;
  (v ← get plugin "roles";
   if truthy v then
     l ← as_ref v;
     es ← entries l;
     merge_roles (r_roles r') es
   else mret ());;
  merge_exclusive plugins plugin "action" "actions" (r_actions r');;
  concat_into plugin "middleware" (r_middleware r');;
  merge_exclusive plugins plugin "route" "routes" (r_routes r');;
  push_hook plugin "onInit" (r_onInit r');;
  push_hook plugin "onRequest" (r_onRequest r');;
  push_hook plugin "onError" (r_onError r');;
  push_hook plugin "onShutdown" (r_onShutdown r');;
  mret (r', authSource').

Fixpoint resolve_loop (plugins : loc) (todo : list val) (r : Resolved)
    (authSource : val) : M (Resolved * val) :=
  match todo with
  | [] => mret (r, authSource)
  | p :: rest =>
      '(r', authSource') ← merge_plugin plugins r authSource p;
      resolve_loop plugins rest r' authSource'
  end.

(** Lines 66-80: the literals of [resolved], in evaluation order. *)
Definition new_resolved : M Resolved :=
  li ← alloc (array []);
  lp ← alloc (record []);
  lr ← alloc (record []);
  la ← alloc (record []);
  lm ← alloc (array []);
  lt ← alloc (record []);
  h1 ← alloc (array []);
  h2 ← alloc (array []);
  h3 ← alloc (array []);
  h4 ← alloc (array []);
  mret {| r_integrations := li; r_auth := undefined; r_permissions := lp;
          r_roles := lr; r_actions := la; r_middleware := lm;
          r_routes := lt; r_onInit := h1; r_onRequest := h2;
          r_onError := h3; r_onShutdown := h4 |}.

(** resolve.ts, lines 65-171; [plugins] is the location of the array. *)
Definition resolvePlugins (plugins : loc) : M Resolved :=
  r ← new_resolved;
  ps ← read_array plugins;
  '(r', _) ← resolve_loop plugins ps r undefined;
  mret r'.

(** definePlugin.ts, lines 15-17: the reference it was given. *)
Definition definePlugin (plugin : val) : M val := mret plugin.

(** The store of the role-merge scenario: descriptors A and B of C3. *)
Definition editor_store : heap :=
  list_to_map
    [(0, array [ref 1; ref 2]);
     (1, record [("name", str "A"); ("roles", ref 3)]);
     (2, record [("name", str "B"); ("roles", ref 5)]);
     (3, record [("editor", ref 4)]);
     (4, array [str "x"; str "y"]);
     (5, record [("editor", ref 6)]);
     (6, array [str "y"; str "z"])].

(** The store of the permission scenario: A and B both define [p1]. *)
Definition p1_store : heap :=
  list_to_map
    [(0, array [ref 1; ref 2]);
     (1, record [("name", str "A"); ("permissions", ref 3)]);
     (2, record [("name", str "B"); ("permissions", ref 4)]);
     (3, record [("p1", ref 5)]);
     (4, record [("p1", ref 6)]);
     (5, record []);
     (6, record [])].

(** Stores with one descriptor each: one with the permission slug
    [toString], one with a slug under the role name [constructor]. *)
Definition toString_store : heap :=
  list_to_map
    [(0, array [ref 1]);
     (1, record [("name", str "A"); ("permissions", ref 2)]);
     (2, record [("toString", ref 3)]);
     (3, record [])].

Definition constructor_store : heap :=
  list_to_map
    [(0, array [ref 1]);
     (1, record [("name", str "A"); ("roles", ref 2)]);
     (2, record [("constructor", ref 3)]);
     (3, array [str "x"])].

(** [h'] agrees with [h] on the locations in [X]. *)
Definition unchanged_on (X : gset loc) (h h' : heap) : Prop :=
  ∀ l, l ∈ X → h' !! l = h !! l.

(** Every property value is a reference to a location outside [X]. *)
Definition fresh_refs (X : gset loc) (ps : list (string * val)) : Prop :=
  Forall (λ kv, ∃ l, kv.2 = ref l ∧ l ∉ X) ps.

(** The invariant of a run started in [h0] whose role object is at
    [lr]: the cells of [h0] are as they were, and the role object
    refers only to arrays made during the run. *)
Definition Inv (h0 : heap) (lr : loc) (h : heap) : Prop :=
  unchanged_on (dom h0) h0 h ∧
  ∃ ps, h !! lr = Some (record ps) ∧ fresh_refs (dom h0) ps.

(** [m] keeps [I], however it ends, and its value satisfies [Q]. *)
Definition triple {A} (I : heap → Prop) (m : M A) (Q : A → Prop) : Prop :=
  ∀ h, I h →
    match m h with
    | Done a h' => I h' ∧ Q a
    | Raised _ h' => I h'
    | Failed h' => I h'
    | Stuck h' => I h'
    end.

(** The parts of [resolved] were made during the run, and the role
    object is none of the three exclusive mappings. *)
Definition owned (h0 : heap) (lr : loc) (r : Resolved) : Prop :=
  let made (l : loc) := l ∉ dom h0 in
  r_roles r = lr ∧ made lr ∧
  made (r_integrations r) ∧ made (r_middleware r) ∧
  made (r_onInit r) ∧ made (r_onRequest r) ∧
  made (r_onError r) ∧ made (r_onShutdown r) ∧
  (made (r_permissions r) ∧ r_permissions r ≠ lr) ∧
  (made (r_actions r) ∧ r_actions r ≠ lr) ∧
  (made (r_routes r) ∧ r_routes r ≠ lr).

(** *** Relating a store to the functional model

    The store view of a descriptor list whose capability objects are
    the values themselves.  A present capability object is truthy, as
    objects and functions are. *)
Definition refs : Capabilities :=
  {| IntegrationProvider := val; AuthProvider := val; Permission := val;
     ActionDefinition := val; PipelineMiddleware := val;
     RouteHandler := val; InitHook := val; RequestHook := val;
     ErrorHook := val; ShutdownHook := val |}.

Definition is_array (h : heap) (v : val) (xs : list val) : Prop :=
  ∃ l, v = ref l ∧ h !! l = Some (array xs).

Definition is_record (h : heap) (v : val) (ps : list (string * val)) : Prop :=
  ∃ l, v = ref l ∧ h !! l = Some (record ps).

Definition rep_opt (v : val) (o : option val) : Prop :=
  match o with
  | Some a => v = a ∧ truthy a = true
  | None => v = undefined
  end.

Definition rep_list (h : heap) (v : val) (o : option (list val)) : Prop :=
  match o with
  | Some xs => is_array h v xs
  | None => v = undefined
  end.

Definition rep_map (h : heap) (v : val) (o : option (JsRecord val)) : Prop :=
  match o with
  | Some es => is_record h v es ∧ Forall (λ kv, truthy kv.2 = true) es
  | None => v = undefined
  end.

Definition rep_role (h : heap) (kv : string * val)
    (entry : string * list string) : Prop :=
  kv.1 = entry.1 ∧ is_array h kv.2 (str <$> entry.2).

Definition rep_roles (h : heap) (v : val)
    (o : option (JsRecord (list string))) : Prop :=
  match o with
  | Some es => ∃ ps, is_record h v ps ∧ Forall2 (rep_role h) ps es
  | None => v = undefined
  end.

(** The value [v] is, in [h], the descriptor [p]. *)
Definition rep_plugin (h : heap) (v : val) (p : @Plugin refs) : Prop :=
  ∃ ps, is_record h v ps ∧
    prop "name" ps = str (name p) ∧
    rep_list h (prop "integrations" ps) (integrations p) ∧
    rep_opt (prop "auth" ps) (auth p) ∧
    rep_map h (prop "permissions" ps) (permissions p) ∧
    rep_roles h (prop "roles" ps) (roles p) ∧
    rep_map h (prop "actions" ps) (actions p) ∧
    rep_list h (prop "middleware" ps) (middleware p) ∧
    rep_map h (prop "routes" ps) (routes p) ∧
    rep_opt (prop "onInit" ps) (onInit p) ∧
    rep_opt (prop "onRequest" ps) (onRequest p) ∧
    rep_opt (prop "onError" ps) (onError p) ∧
    rep_opt (prop "onShutdown" ps) (onShutdown p).

Definition rep_plugins (h : heap) (l : loc) (plugins : list (@Plugin refs))
    : Prop :=
  ∃ vs, h !! l = Some (array vs) ∧ Forall2 (rep_plugin h) vs plugins.

(** [p[field]], the three exclusive mappings having one value type. *)
Definition field_record (field : Field) (p : @Plugin refs)
    : option (JsRecord val) :=
  match field with
  | Permissions => permissions p
  | Actions => actions p
  | Routes => routes p
  end.

(** The property name behind each [Field]. *)
Definition field_name (field : Field) : string :=
  match field with
  | Permissions => "permissions"
  | Actions => "actions"
  | Routes => "routes"
  end.

(** The properties [ps] are the mapping [m]. *)
Definition map_rep (ps : list (string * val)) (m : gmap string val) : Prop :=
  ∀ k, match m !! k with
       | Some v => prop k ps = v ∧ truthy v = true
       | None => k ∉ ps.*1
       end.

(** The object at [l] holds the mapping [m]. *)
Definition map_at (h : heap) (l : loc) (m : gmap string val) : Prop :=
  ∃ ps, h !! l = Some (record ps) ∧ map_rep ps m.

(** The object at [l] holds, per role of [m], a reference to an array
    of its own with the slugs of that role; no such array is in [X]. *)
Definition roles_at (X : gset loc) (h : heap) (l : loc)
    (m : gmap string (list string)) : Prop :=
  ∃ ps (arrs : gmap string loc),
    h !! l = Some (record ps) ∧
    (∀ k, match arrs !! k with
          | Some la => prop k ps = ref la
          | None => k ∉ ps.*1
          end) ∧
    (∀ k, match arrs !! k, m !! k with
          | Some la, Some slugs =>
              h !! la = Some (array (str <$> slugs)) ∧ la ∉ X
          | None, None => True
          | _, _ => False
          end) ∧
    (∀ k k' la, arrs !! k = Some la → arrs !! k' = Some la → k = k').

(** The cells of the accumulator. *)
Inductive Slot :=
  | SIntegrations | SPermissions | SRoles | SActions | SMiddleware
  | SRoutes | SOnInit | SOnRequest | SOnError | SOnShutdown.

#[global] Instance Slot_eq_dec : EqDecision Slot.
Proof. solve_decision. Defined.

Definition slots : list Slot :=
  [SIntegrations; SPermissions; SRoles; SActions; SMiddleware; SRoutes;
   SOnInit; SOnRequest; SOnError; SOnShutdown].

Definition loc_of (r : Resolved) (sl : Slot) : loc :=
  match sl with
  | SIntegrations => r_integrations r
  | SPermissions => r_permissions r
  | SRoles => r_roles r
  | SActions => r_actions r
  | SMiddleware => r_middleware r
  | SRoutes => r_routes r
  | SOnInit => r_onInit r
  | SOnRequest => r_onRequest r
  | SOnError => r_onError r
  | SOnShutdown => r_onShutdown r
  end.

(** What a cell of the accumulator stands for. *)
Inductive data :=
  | DArray (xs : list val)
  | DMap (m : gmap string val)
  | DRoles (m : gmap string (list string)).

Definition slot_data (s : @State refs) (sl : Slot) : data :=
  let acc := resolved s in
  match sl with
  | SIntegrations => DArray (resolved_integrations acc)
  | SPermissions => DMap (resolved_permissions acc)
  | SRoles => DRoles (resolved_roles acc)
  | SActions => DMap (resolved_actions acc)
  | SMiddleware => DArray (resolved_middleware acc)
  | SRoutes => DMap (resolved_routes acc)
  | SOnInit => DArray (hooks_onInit (resolved_hooks acc))
  | SOnRequest => DArray (hooks_onRequest (resolved_hooks acc))
  | SOnError => DArray (hooks_onError (resolved_hooks acc))
  | SOnShutdown => DArray (hooks_onShutdown (resolved_hooks acc))
  end.

(** The cell [sl0] now stands for [x]. *)
Definition update (sl0 : Slot) (x : data) (d : Slot → data) : Slot → data :=
  λ sl, if decide (sl0 = sl) then x else d sl.

Definition holds_data (X : gset loc) (h : heap) (l : loc) (d : data) : Prop :=
  match d with
  | DArray xs => h !! l = Some (array xs)
  | DMap m => map_at h l m
  | DRoles m => roles_at X h l m
  end.

(** The locations a role array must stay clear of: the cells the run
    started with and the cells of the accumulator. *)
Definition taken (h0 : heap) (r : Resolved) : gset loc :=
  dom h0 ∪ list_to_set (loc_of r <$> slots).

(** In a run started in [h0], the cells of [r] in [h] stand for [d]. *)
Definition rep_slots (h0 h : heap) (r : Resolved) (d : Slot → data) : Prop :=
  h0 ⊆ h ∧
  (∀ sl sl', loc_of r sl = loc_of r sl' → sl = sl') ∧
  (∀ sl, loc_of r sl ∉ dom h0) ∧
  ∀ sl, holds_data (taken h0 r) h (loc_of r sl) (d sl).

(** The locals [r] and [src] and the store [h] hold the state [s] of
    the functional model. *)
Definition rep_state (h0 h : heap) (r : Resolved) (src : val)
    (s : @State refs) : Prop :=
  rep_slots h0 h r (slot_data s) ∧
  rep_opt (r_auth r) (resolved_auth (resolved s)) ∧
  src = from_option str undefined (authSource s).

(** The outcome [o] of a store run is the result [m] of the functional
    model. *)
Definition refines (h0 : heap) (o : Outcome Resolved)
    (m : Result (@ResolvedPlugins refs)) : Prop :=
  match m with
  | Return acc =>
      ∃ r h src s, o = Done r h ∧ resolved s = acc ∧ rep_state h0 h r src s
  | Throw e => ∃ h, o = Raised e h
  | TypeError => ∃ h, o = Failed h
  end.

(** What a run of [merge_roles] on the store gives, against the
    model. *)
Definition roles_outcome (X : gset loc) (lr : loc) (h : heap)
    (o : Outcome unit) (res : Result (gmap string (list string))) : Prop :=
  match res with
  | Return m' =>
      ∃ h', o = Done () h' ∧ roles_at X h' lr m' ∧
            (∀ l, l ∈ X → l ≠ lr → h' !! l = h !! l)
  | Throw _ => False
  | TypeError => ∃ h', o = Failed h'
  end.

(** The cells of the returned [r] hold, in [h], the configuration
    [acc]; the arrays of the roles are none of the cells in [X]. *)
Definition holds_result (X : gset loc) (h : heap) (r : Resolved)
    (acc : @ResolvedPlugins refs) : Prop :=
  h !! r_integrations r = Some (array (resolved_integrations acc)) ∧
  rep_opt (r_auth r) (resolved_auth acc) ∧
  map_at h (r_permissions r) (resolved_permissions acc) ∧
  roles_at X h (r_roles r) (resolved_roles acc) ∧
  map_at h (r_actions r) (resolved_actions acc) ∧
  h !! r_middleware r = Some (array (resolved_middleware acc)) ∧
  map_at h (r_routes r) (resolved_routes acc) ∧
  h !! r_onInit r = Some (array (hooks_onInit (resolved_hooks acc))) ∧
  h !! r_onRequest r = Some (array (hooks_onRequest (resolved_hooks acc))) ∧
  h !! r_onError r = Some (array (hooks_onError (resolved_hooks acc))) ∧
  h !! r_onShutdown r = Some (array (hooks_onShutdown (resolved_hooks acc))).

(** The descriptors the two scenario stores hold. *)
Definition editor_plugins : list (@Plugin refs) :=
  [@Build_Plugin refs "A" None None None (Some [("editor", ["x"; "y"])])
     None None None None None None None;
   @Build_Plugin refs "B" None None None (Some [("editor", ["y"; "z"])])
     None None None None None None None].

Definition p1_plugins : list (@Plugin refs) :=
  [@Build_Plugin refs "A" None None (Some [("p1", ref 5)]) None
     None None None None None None None;
   @Build_Plugin refs "B" None None (Some [("p1", ref 6)]) None
     None None None None None None None].

Definition toString_plugins : list (@Plugin refs) :=
  [@Build_Plugin refs "A" None None (Some [("toString", ref 3)]) None
     None None None None None None None].

Definition constructor_plugins : list (@Plugin refs) :=
  [@Build_Plugin refs "A" None None None (Some [("constructor", ["x"])])
     None None None None None None None].

End Store.

(* ------------------------------------------------------------------ *)
(** * Properties *)

Section ResolveFacts.
Context `{Capabilities}.
Implicit Types (p q plugin : Plugin) (plugins todo pre post : list Plugin).
Implicit Types (s : State) (e : PluginConflictError).

(** ** The result monad *)

Lemma bind_Return {A B} (m : Result A) (f : A → Result B) b :
  m ≫= f = Return b ↔ ∃ a, m = Return a ∧ f a = Return b.
Proof.
  destruct m as [a|e|]; simpl; split; try done.
  - eauto.
  - by intros (a' & [= <-] & ?).
  - by intros (? & ? & ?).
  - by intros (? & ? & ?).
Qed.

Lemma bind_Throw {A B} (m : Result A) (f : A → Result B) e :
  m ≫= f = Throw e ↔ m = Throw e ∨ ∃ a, m = Return a ∧ f a = Throw e.
Proof.
  destruct m as [a|e'|]; simpl; split; try done.
  - eauto.
  - intros [?|(a' & [= <-] & ?)]; done.
  - intros [= <-]. by left.
  - intros [[= <-]|(? & ? & ?)]; done.
  - intros [?|(? & ? & ?)]; done.
Qed.

Lemma bind_TypeError {A B} (m : Result A) (f : A → Result B) :
  m ≫= f = TypeError ↔ m = TypeError ∨ ∃ a, m = Return a ∧ f a = TypeError.
Proof.
  destruct m as [a|e'|]; simpl; split; try done.
  - eauto.
  - intros [?|(a' & [= <-] & ?)]; done.
  - intros [?|(? & ? & ?)]; done.
  - by left.
Qed.

Lemma returns_or_not {A} (m : Result A) :
  returns m ∨ throws m ∨ m = TypeError.
Proof.
  destruct m; [left|right; left|right; right]; try eexists; done.
Qed.

(** ** Exclusive stores *)

Lemma store_all_cons {V} (acc : gmap string V) k v rest :
  store_all acc ((k, v) :: rest) = store_all (<[k:=v]> acc) rest.
Proof. done. Qed.

Lemma store_all_app {V} (acc : gmap string V) es1 es2 :
  store_all acc (es1 ++ es2) = store_all (store_all acc es1) es2.
Proof. apply foldl_app. Qed.

Lemma lookup_store_all_notin {V} (acc : gmap string V) es k :
  k ∉ es.*1 → store_all acc es !! k = acc !! k.
Proof.
  revert acc. induction es as [|[k' v] es IH]; intros acc Hk; [done|].
  rewrite store_all_cons. simpl in Hk.
  apply not_elem_of_cons in Hk as [Hne Hk].
  rewrite IH by done. by rewrite lookup_insert_ne.
Qed.

Lemma lookup_store_all_in {V} (acc : gmap string V) es k :
  k ∈ es.*1 → is_Some (store_all acc es !! k).
Proof.
  revert acc. induction es as [|[k' v] es IH]; intros acc Hk.
  { by apply elem_of_nil in Hk. }
  rewrite store_all_cons.
  destruct (decide (k ∈ es.*1)) as [Hin|Hnin]; [by apply IH|].
  apply elem_of_cons in Hk as [->|?]; [|done].
  rewrite lookup_store_all_notin by done.
  rewrite lookup_insert_eq. eauto.
Qed.

Lemma store_all_lookup_None {V} (acc : gmap string V) es k :
  store_all acc es !! k = None ↔ acc !! k = None ∧ k ∉ es.*1.
Proof.
  split.
  - intros Hnone. destruct (decide (k ∈ es.*1)) as [Hin|Hnin].
    + apply (lookup_store_all_in acc) in Hin as [? Hs]. congruence.
    + by rewrite lookup_store_all_notin in Hnone.
  - intros [? ?]. by rewrite lookup_store_all_notin.
Qed.

Lemma store_all_list_to_map {V} (acc : gmap string V) es :
  NoDup es.*1 → store_all acc es = list_to_map es ∪ acc.
Proof.
  revert acc. induction es as [|[k v] es IH]; intros acc Hnd.
  { unfold store_all. simpl. by rewrite (left_id_L ∅ (∪)). }
  simpl in Hnd. apply NoDup_cons in Hnd as [Hk Hnd].
  rewrite store_all_cons, IH by done. simpl.
  rewrite <-insert_union_l.
  by rewrite <-insert_union_r by (by apply not_elem_of_list_to_map_1).
Qed.

Lemma merge_exclusive_cons {V} plugins knd field pn k (v : V) rest acc :
  merge_exclusive plugins knd field pn ((k, v) :: rest) acc =
  if decide (reads_truthy acc k) then
    Throw {| kind := knd; key := k;
             pluginA := findOwner plugins field k pn; pluginB := pn |}
  else merge_exclusive plugins knd field pn rest (<[k:=v]> acc).
Proof. done. Qed.

Lemma reads_falsy {V} (acc : gmap string V) k :
  ¬ reads_truthy acc k ↔ acc !! k = None ∧ ¬ inherited k.
Proof.
  unfold reads_truthy. rewrite eq_None_not_Some. tauto.
Qed.

Lemma merge_exclusive_not_TypeError {V} plugins knd field pn
    (es : JsRecord V) acc :
  merge_exclusive plugins knd field pn es acc ≠ TypeError.
Proof.
  revert acc. induction es as [|[k v] es IH]; intros acc; [done|].
  rewrite merge_exclusive_cons. by destruct (decide _).
Qed.

Lemma merge_exclusive_Return {V} plugins knd field pn (es : JsRecord V) acc acc' :
  merge_exclusive plugins knd field pn es acc = Return acc' ↔
  fresh_entries es acc ∧ acc' = store_all acc es.
Proof.
  unfold fresh_entries. revert acc.
  induction es as [|[k v] es IH]; intros acc; cbn [merge_exclusive].
  { split.
    - intros [= ->]. repeat split; constructor.
    - intros (_ & ->). reflexivity. }
  rewrite fmap_cons, NoDup_cons, Forall_cons. cbn [fst].
  destruct (decide (reads_truthy acc k)) as [Hk|Hk].
  { split; [done|]. intros ((_ & Hf & _) & _). by apply reads_falsy in Hf. }
  apply reads_falsy in Hk as [Hk Hnk].
  rewrite IH, store_all_cons. split.
  - intros ((Hnd & Hfr) & ->). repeat split; try done.
    + intros Hin. rewrite Forall_forall in Hfr.
      destruct (Hfr _ Hin) as [Hfr' _]. by rewrite lookup_insert_eq in Hfr'.
    + eapply Forall_impl; [exact Hfr|]. simpl. intros k' [Hk' ?].
      apply lookup_insert_None in Hk'. tauto.
  - intros (((Hkn & Hnd) & (_ & Hfr)) & ->). repeat split; try done.
    rewrite Forall_forall in Hfr |- *. intros k' Hin.
    destruct (Hfr _ Hin) as [? ?]. split; [|done].
    rewrite lookup_insert_ne; [done|]. by intros ->.
Qed.

Lemma merge_exclusive_Throw {V} plugins knd field pn (es : JsRecord V) acc e :
  merge_exclusive plugins knd field pn es acc = Throw e →
  kind e = knd ∧ pluginB e = pn ∧
  pluginA e = findOwner plugins field (key e) pn ∧
  key e ∈ es.*1 ∧ ¬ fresh_entries es acc ∧
  (NoDup es.*1 → reads_truthy acc (key e)).
Proof.
  unfold fresh_entries. revert acc.
  induction es as [|[k v] es IH]; intros acc; cbn [merge_exclusive]; [done|].
  rewrite fmap_cons, NoDup_cons, Forall_cons. cbn [fst].
  destruct (decide (reads_truthy acc k)) as [Hk|Hk].
  - intros [= <-]. simpl. repeat split; try done.
    + by left.
    + intros (_ & Hf & _). by apply reads_falsy in Hf.
  - intros (-> & -> & HA & Hin & Hnf & Hpresent)%IH. repeat split; try done.
    + by right.
    + intros ((Hkn & Hnd) & (_ & Hfr)). apply Hnf. split; [done|].
      rewrite Forall_forall in Hfr |- *. intros k' Hin'.
      destruct (Hfr _ Hin') as [? ?]. split; [|done].
      rewrite lookup_insert_ne; [done|]. by intros ->.
    + intros [Hkn Hnd]. destruct (Hpresent Hnd) as [Hp|Hp]; [left|by right].
      rewrite lookup_insert_ne in Hp; [done|]. by intros ->.
Qed.

(** ** The ownership tracer *)

Lemma finds_dec_keys field k p :
  match field_keys field p with
  | Some obj => has_key obj k ↔ finds field k p
  | None => ¬ finds field k p
  end.
Proof.
  unfold finds. destruct (field_keys field p) as [obj|].
  - split; [eauto|]. by intros (? & [= <-] & ?).
  - by intros (? & ? & ?).
Qed.

Lemma owns_finds field k p : owns field k p → finds field k p.
Proof. intros (obj & ? & ?). exists obj. split; [done|by left]. Qed.

Lemma finds_owns field k p : ¬ inherited k → finds field k p → owns field k p.
Proof. intros Hk (obj & ? & [?|?]); [by exists obj|done]. Qed.

Lemma findOwner_cons p rest field k cur :
  findOwner (p :: rest) field k cur =
  if decide (name p = cur) then "engine config"
  else match field_keys field p with
       | Some obj =>
           if decide (has_key obj k) then name p
           else findOwner rest field k cur
       | None => findOwner rest field k cur
       end.
Proof. done. Qed.

Lemma findOwner_halt p rest field k cur :
  name p = cur → findOwner (p :: rest) field k cur = "engine config".
Proof. intros Hp. simpl. by rewrite decide_True. Qed.

Lemma findOwner_hit p rest field k cur :
  name p ≠ cur → finds field k p → findOwner (p :: rest) field k cur = name p.
Proof.
  intros Hp Hown. simpl. rewrite decide_False by done.
  pose proof (finds_dec_keys field k p) as Hk.
  destruct (field_keys field p) as [obj|]; [|done].
  rewrite decide_True; [done|]. by apply Hk.
Qed.

Lemma findOwner_miss p rest field k cur :
  name p ≠ cur → ¬ finds field k p →
  findOwner (p :: rest) field k cur = findOwner rest field k cur.
Proof.
  intros Hp Hown. simpl. rewrite decide_False by done.
  pose proof (finds_dec_keys field k p) as Hk.
  destruct (field_keys field p) as [obj|]; [|done].
  rewrite decide_False; [done|]. by rewrite Hk.
Qed.

Lemma findOwner_skip before rest field k cur :
  Forall (λ q, name q ≠ cur) before →
  Forall (λ q, ¬ finds field k q) before →
  findOwner (before ++ rest) field k cur = findOwner rest field k cur.
Proof.
  induction before as [|q before IH]; [done|].
  intros [Hq Hn]%Forall_cons [Ho Hno]%Forall_cons.
  rewrite <-app_comm_cons, findOwner_miss by done. by apply IH.
Qed.

(** The scan never reads past the first descriptor named [cur]. *)
Lemma findOwner_tail pre p post post' field k :
  findOwner (pre ++ p :: post) field k (name p) =
  findOwner (pre ++ p :: post') field k (name p).
Proof.
  induction pre as [|q pre IH]; simpl.
  - destruct (decide (name p = name p)); [done|congruence].
  - by rewrite IH.
Qed.

Lemma finds_decision field k p : Decision (finds field k p).
Proof.
  pose proof (finds_dec_keys field k p) as Hk.
  destruct (field_keys field p) as [obj|].
  - destruct (decide (has_key obj k)); [left|right]; tauto.
  - by right.
Defined.

Lemma owns_decision field k p : Decision (owns field k p).
Proof.
  unfold owns. destruct (field_keys field p) as [obj|].
  - destruct (decide (k ∈ obj)); [left; eauto|right].
    by intros (? & [= <-] & ?).
  - right. by intros (? & ? & ?).
Defined.

(** ** Roles *)

Lemma merge_role_Return acc entry acc' :
  merge_role acc entry = Return acc' ↔
  role_safe acc entry ∧ acc' = absorb_role acc entry.
Proof.
  unfold merge_role, role_safe, absorb_role. destruct entry as [role perms].
  simpl. destruct (acc !! role) as [arr|] eqn:Hacc.
  { split; [by intros [= <-]|by intros [_ ->]]. }
  destruct (decide (inherited role)) as [Hin|Hin].
  - destruct perms as [|x perms].
    + split; [by intros [= <-]|by intros [_ ->]].
    + split; [done|]. intros [Hsafe _]. by specialize (Hsafe eq_refl Hin).
  - split; [intros [= <-]|by intros [_ ->]]. split; [|done]. by intros _ ?.
Qed.

Lemma merge_role_not_Throw acc entry e : merge_role acc entry ≠ Throw e.
Proof.
  unfold merge_role. destruct entry as [role perms].
  destruct (acc !! role); [done|].
  destruct (decide (inherited role)); [|done]. by destruct perms.
Qed.

Lemma merge_role_TypeError acc entry :
  merge_role acc entry = TypeError ↔ ¬ role_safe acc entry.
Proof.
  pose proof (merge_role_Return acc entry) as Hret.
  pose proof (merge_role_not_Throw acc entry) as Hthrow.
  destruct (merge_role acc entry) as [acc'| |]; split; try done.
  - intros Hno. destruct Hno. by apply (Hret acc').
  - by destruct (Hthrow e).
  - intros _ Hsafe.
    assert (TypeError = Return (absorb_role acc entry)) by by apply Hret.
    done.
Qed.

(** Absorbing an entry makes no own property under an inherited
    name. *)
Lemma absorb_role_inherited acc entry k :
  inherited k → absorb_role acc entry !! k = None ↔ acc !! k = None.
Proof.
  intros Hk. unfold absorb_role.
  destruct (acc !! entry.1) as [arr|] eqn:Hacc.
  - destruct (decide (entry.1 = k)) as [<-|Hne].
    + rewrite lookup_insert_eq, Hacc. split; done.
    + by rewrite lookup_insert_ne.
  - destruct (decide (inherited entry.1)) as [|Hno]; [done|].
    rewrite lookup_insert_ne; [done|]. intros Heq. by rewrite Heq in Hno.
Qed.

Lemma role_safe_absorb_role acc entry entry' :
  role_safe (absorb_role acc entry) entry' ↔ role_safe acc entry'.
Proof.
  unfold role_safe. destruct (decide (inherited entry'.1)) as [Hin|Hin].
  - by rewrite absorb_role_inherited.
  - tauto.
Qed.

Lemma role_safe_absorbed acc es entry :
  role_safe (foldl absorb_role acc es) entry ↔ role_safe acc entry.
Proof.
  revert acc. induction es as [|e es IH]; intros acc; simpl; [done|].
  by rewrite IH, role_safe_absorb_role.
Qed.

Lemma merge_roles_Return acc es acc' :
  merge_roles acc es = Return acc' ↔
  Forall (role_safe acc) es ∧ acc' = foldl absorb_role acc es.
Proof.
  revert acc. induction es as [|entry es IH]; intros acc; cbn [merge_roles].
  { split; [intros [= <-]; by split|by intros [_ ->]]. }
  rewrite bind_Return, Forall_cons. split.
  - intros (acc1 & [Hsafe ->]%merge_role_Return & [Hall ->]%IH).
    split; [|done]. split; [done|].
    eapply Forall_impl; [exact Hall|]. intros e. apply role_safe_absorb_role.
  - intros [[Hsafe Hall] ->]. exists (absorb_role acc entry).
    split; [by apply merge_role_Return|]. apply IH. split; [|done].
    eapply Forall_impl; [exact Hall|]. intros e. apply role_safe_absorb_role.
Qed.

Lemma merge_roles_not_Throw acc es e : merge_roles acc es ≠ Throw e.
Proof.
  revert acc. induction es as [|entry es IH]; intros acc; cbn [merge_roles];
    [done|].
  intros [Hrole|(acc1 & _ & Hrest)]%bind_Throw.
  - by apply merge_role_not_Throw in Hrole.
  - by apply IH in Hrest.
Qed.

Lemma merge_roles_TypeError acc es :
  merge_roles acc es = TypeError ↔ ¬ Forall (role_safe acc) es.
Proof.
  pose proof (merge_roles_Return acc es) as Hret.
  pose proof (merge_roles_not_Throw acc es) as Hthrow.
  destruct (merge_roles acc es) as [acc'| |]; split; try done.
  - intros Hno. destruct Hno. by apply (Hret acc').
  - by destruct (Hthrow e).
  - intros _ Hsafe.
    assert (TypeError = Return (foldl absorb_role acc es)) by by apply Hret.
    done.
Qed.

(** ** The loop body *)

Lemma merge_auth_unfold cur src p :
  merge_auth cur src p =
  match auth p with
  | Some a =>
      match cur with
      | Some _ =>
          Throw {| kind := "auth"; key := "auth";
                   pluginA := non_null src; pluginB := name p |}
      | None => Return (Some a, Some (name p))
      end
  | None => Return (cur, src)
  end.
Proof. done. Qed.

Lemma merge_auth_Return cur src p a' src' :
  merge_auth cur src p = Return (a', src') ↔
  (is_Some (auth p) → cur = None) ∧
  a' = match auth p with Some a => Some a | None => cur end ∧
  src' = match auth p with Some _ => Some (name p) | None => src end.
Proof.
  unfold merge_auth. destruct (auth p) as [a|], cur as [c|]; split.
  - done.
  - intros (Hc & _). specialize (Hc (mk_is_Some _ _ eq_refl)). done.
  - intros [= <- <-]. done.
  - by intros (_ & -> & ->).
  - intros [= <- <-]. split; [|done]. by intros [? ?].
  - by intros (_ & -> & ->).
  - intros [= <- <-]. split; [|done]. by intros [? ?].
  - by intros (_ & -> & ->).
Qed.

Lemma merge_auth_Throw cur src p e :
  merge_auth cur src p = Throw e →
  e = {| kind := "auth"; key := "auth";
         pluginA := non_null src; pluginB := name p |} ∧
  is_Some (auth p) ∧ is_Some cur.
Proof.
  unfold merge_auth. destruct (auth p) as [a|], cur as [c|]; try done.
  intros [= <-]. eauto.
Qed.

Lemma merge_plugin_unfold plugins s p :
  merge_plugin plugins s p =
  (ar ← merge_auth (resolved_auth (resolved s)) (authSource s) p;
   permissions' ←
     merge_exclusive plugins "permission" Permissions (name p)
       (default [] (permissions p)) (resolved_permissions (resolved s));
   roles' ←
     merge_roles (resolved_roles (resolved s)) (default [] (roles p));
   actions' ←
     merge_exclusive plugins "action" Actions (name p)
       (default [] (actions p)) (resolved_actions (resolved s));
   routes' ←
     merge_exclusive plugins "route" Routes (name p)
       (default [] (routes p)) (resolved_routes (resolved s));
   mret {| resolved :=
             {| resolved_integrations :=
                  resolved_integrations (resolved s) ++
                  default [] (integrations p);
                resolved_auth := ar.1;
                resolved_permissions := permissions';
                resolved_roles := roles';
                resolved_actions := actions';
                resolved_middleware :=
                  resolved_middleware (resolved s) ++
                  default [] (middleware p);
                resolved_routes := routes';
                resolved_hooks := merge_hooks (resolved_hooks (resolved s)) p |};
           authSource := ar.2 |}).
Proof. unfold merge_plugin. by destruct (merge_auth _ _ _) as [[??]| |]. Qed.

Lemma merge_plugin_Return plugins s p s' :
  merge_plugin plugins s p = Return s' ↔ admits s p ∧ s' = absorb s p.
Proof.
  unfold merge_plugin, admits, absorb. rewrite bind_Return. split.
  - intros ([a' src'] & (Ha & -> & ->)%merge_auth_Return & Hrest).
    apply bind_Return in Hrest as (perms' & (? & ->)%merge_exclusive_Return & Hrest).
    apply bind_Return in Hrest as (roles' & (? & ->)%merge_roles_Return & Hrest).
    apply bind_Return in Hrest as (acts' & (? & ->)%merge_exclusive_Return & Hrest).
    apply bind_Return in Hrest as (rts' & (? & ->)%merge_exclusive_Return & Hrest).
    injection Hrest as <-. done.
  - intros ((Ha & Hp & Hro & Hact & Hr) & ->).
    eexists (_, _). split; [by apply merge_auth_Return|].
    apply bind_Return. eexists. split; [by apply merge_exclusive_Return|].
    apply bind_Return. eexists. split; [by apply merge_roles_Return|].
    apply bind_Return. eexists. split; [by apply merge_exclusive_Return|].
    apply bind_Return. eexists. split; [by apply merge_exclusive_Return|].
    done.
Qed.

Lemma merge_exclusive_Throw_eq {V} plugins knd field pn (es : JsRecord V) acc e :
  merge_exclusive plugins knd field pn es acc = Throw e →
  e = {| kind := knd; key := key e;
         pluginA := findOwner plugins field (key e) pn; pluginB := pn |}.
Proof.
  intros (<- & <- & HA & _)%merge_exclusive_Throw. rewrite <-HA.
  by destruct e.
Qed.

Lemma field_slugs_permissions p : field_slugs Permissions p = permission_slugs p.
Proof. unfold field_slugs, permission_slugs. simpl. by destruct (permissions p). Qed.

Lemma field_slugs_actions p : field_slugs Actions p = action_names p.
Proof. unfold field_slugs, action_names. simpl. by destruct (actions p). Qed.

Lemma field_slugs_routes p : field_slugs Routes p = route_keys p.
Proof. unfold field_slugs, route_keys. simpl. by destruct (routes p). Qed.

Lemma owns_field_slugs field k p : owns field k p ↔ k ∈ field_slugs field p.
Proof.
  unfold owns, field_slugs. destruct (field_keys field p) as [obj|]; simpl.
  - split; [by intros (? & [= <-] & ?)|eauto].
  - split; [by intros (? & ? & ?)|by intros ?%elem_of_nil].
Qed.

Lemma merge_plugin_Throw plugins s p e :
  merge_plugin plugins s p = Throw e →
  thrown_by plugins s p e ∧ ¬ admits s p.
Proof.
  unfold merge_plugin, thrown_by, admits.
  intros [Hauth|([a' src'] & Hauth & Hrest)]%bind_Throw.
  { destruct (merge_auth _ _ _) as [[??]|e'|] eqn:Hm; [done| |done].
    injection Hauth as ->.
    apply merge_auth_Throw in Hm as (-> & Hp & [c Hc]). split; [by left|].
    intros (Ha & _). specialize (Ha Hp). congruence. }
  apply bind_Throw in Hrest as [Hperm|(perms' & Hperm & Hrest)].
  { pose proof (merge_exclusive_Throw_eq _ _ _ _ _ _ _ Hperm) as He.
    apply merge_exclusive_Throw in Hperm as (_ & _ & _ & Hin & Hnf & Hpres).
    split; [|by intros (_ & ? & _)].
    right. exists Permissions. by rewrite field_slugs_permissions. }
  apply bind_Throw in Hrest as [Hro|(roles' & Hro & Hrest)].
  { by apply merge_roles_not_Throw in Hro. }
  apply bind_Throw in Hrest as [Hact|(acts' & Hact & Hrest)].
  { pose proof (merge_exclusive_Throw_eq _ _ _ _ _ _ _ Hact) as He.
    apply merge_exclusive_Throw in Hact as (_ & _ & _ & Hin & Hnf & Hpres).
    split; [|by intros (_ & _ & _ & ? & _)].
    right. exists Actions. by rewrite field_slugs_actions. }
  apply bind_Throw in Hrest as [Hrt|(rts' & Hrt & Hrest)]; [|done].
  pose proof (merge_exclusive_Throw_eq _ _ _ _ _ _ _ Hrt) as He.
  apply merge_exclusive_Throw in Hrt as (_ & _ & _ & Hin & Hnf & Hpres).
  split; [|by intros (_ & _ & _ & _ & ?)].
  right. exists Routes. by rewrite field_slugs_routes.
Qed.

Lemma merge_auth_not_TypeError cur src p : merge_auth cur src p ≠ TypeError.
Proof. unfold merge_auth. by destruct (auth p), cur. Qed.

(** The loop body throws the [TypeError] exactly when its checks of
    [auth] and of the permissions pass and an entry of the roles is
    not safe. *)
Lemma merge_plugin_TypeError plugins s p :
  merge_plugin plugins s p = TypeError ↔
  (is_Some (auth p) → resolved_auth (resolved s) = None) ∧
  fresh_entries (default [] (permissions p))
    (resolved_permissions (resolved s)) ∧
  ¬ Forall (role_safe (resolved_roles (resolved s))) (role_entries p).
Proof.
  rewrite merge_plugin_unfold, bind_TypeError. split.
  - intros [Hauth|([a' src'] & (Ha & _)%merge_auth_Return & Hrest)].
    { by apply merge_auth_not_TypeError in Hauth. }
    apply bind_TypeError in Hrest
      as [Hp|(perms' & [Hp _]%merge_exclusive_Return & Hrest)].
    { by apply merge_exclusive_not_TypeError in Hp. }
    apply bind_TypeError in Hrest as [Hro%merge_roles_TypeError|Hrest];
      [done|].
    destruct Hrest as (roles' & _ & Hrest).
    apply bind_TypeError in Hrest as [Hbad|(acts' & _ & Hrest)].
    { by apply merge_exclusive_not_TypeError in Hbad. }
    apply bind_TypeError in Hrest as [Hbad|(rts' & _ & Hrest)]; [|done].
    by apply merge_exclusive_not_TypeError in Hbad.
  - intros (Ha & Hp & Hro). right. eexists (_, _).
    split; [by apply merge_auth_Return|].
    apply bind_TypeError. right. eexists.
    split; [by apply merge_exclusive_Return|].
    apply bind_TypeError. left. by apply merge_roles_TypeError.
Qed.


(** ** The loop *)

Lemma resolve_loop_Return plugins todo s s' :
  resolve_loop plugins todo s = Return s' ↔
  admits_all s todo ∧ s' = foldl absorb s todo.
Proof.
  revert s. induction todo as [|p todo IH]; intros s; simpl.
  - split; [by intros [= ->]|by intros (_ & ->)].
  - rewrite bind_Return. split.
    + intros (s1 & (Hadm & ->)%merge_plugin_Return & Hrest%IH). tauto.
    + intros ((Hadm & Hall) & ->). exists (absorb s p).
      split; [by apply merge_plugin_Return|]. by apply IH.
Qed.

Lemma resolve_loop_Throw plugins todo s e :
  resolve_loop plugins todo s = Throw e ↔
  ∃ pre p post, todo = pre ++ p :: post ∧ admits_all s pre ∧
    merge_plugin plugins (foldl absorb s pre) p = Throw e.
Proof.
  revert s. induction todo as [|p todo IH]; intros s; simpl.
  - split; [done|]. intros (pre & q & post & Heq & _).
    by destruct pre.
  - rewrite bind_Throw. split.
    + intros [Hthrow|(s1 & (Hadm & ->)%merge_plugin_Return & Hrest)].
      * exists [], p, todo. done.
      * apply IH in Hrest as (pre & q & post & -> & Hpre & Hq).
        exists (p :: pre), q, post. done.
    + intros (pre & q & post & Heq & Hpre & Hq).
      destruct pre as [|p' pre]; simplify_eq/=.
      * by left.
      * destruct Hpre as [Hadm Hpre]. right. exists (absorb s p').
        split; [by apply merge_plugin_Return|].
        apply IH. eauto 10.
Qed.

Lemma resolve_loop_TypeError plugins todo s :
  resolve_loop plugins todo s = TypeError ↔
  ∃ pre p post, todo = pre ++ p :: post ∧ admits_all s pre ∧
    merge_plugin plugins (foldl absorb s pre) p = TypeError.
Proof.
  revert s. induction todo as [|p todo IH]; intros s; simpl.
  - split; [done|]. intros (pre & q & post & Heq & _).
    by destruct pre.
  - rewrite bind_TypeError. split.
    + intros [Hthrow|(s1 & (Hadm & ->)%merge_plugin_Return & Hrest)].
      * exists [], p, todo. done.
      * apply IH in Hrest as (pre & q & post & -> & Hpre & Hq).
        exists (p :: pre), q, post. done.
    + intros (pre & q & post & Heq & Hpre & Hq).
      destruct pre as [|p' pre]; simplify_eq/=.
      * by left.
      * destruct Hpre as [Hadm Hpre]. right. exists (absorb s p').
        split; [by apply merge_plugin_Return|].
        apply IH. eauto 10.
Qed.

(** ** The state after a run of admitted descriptors *)

Lemma absorbed_integrations s todo :
  resolved_integrations (resolved (foldl absorb s todo)) =
  resolved_integrations (resolved s) ++ todo ≫= integrations_of.
Proof.
  revert s. induction todo as [|p todo IH]; intros s; simpl.
  - by rewrite app_nil_r.
  - rewrite IH. simpl. by rewrite app_assoc.
Qed.

Lemma absorbed_middleware s todo :
  resolved_middleware (resolved (foldl absorb s todo)) =
  resolved_middleware (resolved s) ++ todo ≫= middleware_of.
Proof.
  revert s. induction todo as [|p todo IH]; intros s; simpl.
  - by rewrite app_nil_r.
  - rewrite IH. simpl. by rewrite app_assoc.
Qed.

Lemma push_hook_app {A} (l : list A) h l' :
  push_hook l h ++ l' = l ++ from_option (λ f, f :: l') l' h.
Proof. destruct h; simpl; [by rewrite <-app_assoc|done]. Qed.

Lemma absorbed_hooks s todo :
  let hs := resolved_hooks (resolved s) in
  let hs' := resolved_hooks (resolved (foldl absorb s todo)) in
  hooks_onInit hs' = hooks_onInit hs ++ omap onInit todo ∧
  hooks_onRequest hs' = hooks_onRequest hs ++ omap onRequest todo ∧
  hooks_onError hs' = hooks_onError hs ++ omap onError todo ∧
  hooks_onShutdown hs' = hooks_onShutdown hs ++ omap onShutdown todo.
Proof.
  revert s. induction todo as [|p todo IH]; intros s; simpl.
  - by rewrite !app_nil_r.
  - destruct (IH (absorb s p)) as (-> & -> & -> & ->). simpl.
    rewrite !push_hook_app.
    by destruct (onInit p), (onRequest p), (onError p), (onShutdown p).
Qed.

Lemma absorbed_permissions s todo :
  resolved_permissions (resolved (foldl absorb s todo)) =
  store_all (resolved_permissions (resolved s))
    (todo ≫= λ p, default [] (permissions p)).
Proof.
  revert s. induction todo as [|p todo IH]; intros s; simpl; [done|].
  by rewrite IH, store_all_app.
Qed.

Lemma absorbed_actions s todo :
  resolved_actions (resolved (foldl absorb s todo)) =
  store_all (resolved_actions (resolved s))
    (todo ≫= λ p, default [] (actions p)).
Proof.
  revert s. induction todo as [|p todo IH]; intros s; simpl; [done|].
  by rewrite IH, store_all_app.
Qed.

Lemma absorbed_routes s todo :
  resolved_routes (resolved (foldl absorb s todo)) =
  store_all (resolved_routes (resolved s))
    (todo ≫= λ p, default [] (routes p)).
Proof.
  revert s. induction todo as [|p todo IH]; intros s; simpl; [done|].
  by rewrite IH, store_all_app.
Qed.

Lemma absorbed_roles s todo :
  resolved_roles (resolved (foldl absorb s todo)) =
  foldl absorb_role (resolved_roles (resolved s)) (todo ≫= role_entries).
Proof.
  revert s. induction todo as [|p todo IH]; intros s; simpl; [done|].
  by rewrite IH, foldl_app.
Qed.

Lemma holds_None field s k :
  ¬ holds field s k ↔
  match field with
  | Permissions => resolved_permissions (resolved s) !! k = None
  | Actions => resolved_actions (resolved s) !! k = None
  | Routes => resolved_routes (resolved s) !! k = None
  end.
Proof. destruct field; simpl; by rewrite eq_None_not_Some. Qed.

Lemma holds_absorb field s p k :
  holds field (absorb s p) k ↔ holds field s k ∨ owns field k p.
Proof.
  rewrite owns_field_slugs.
  destruct field; simpl.
  - rewrite field_slugs_permissions. unfold permission_slugs.
    rewrite <-!not_eq_None_Some, store_all_lookup_None.
    destruct (decide (k ∈ (default [] (permissions p)).*1)); tauto.
  - rewrite field_slugs_actions. unfold action_names.
    rewrite <-!not_eq_None_Some, store_all_lookup_None.
    destruct (decide (k ∈ (default [] (actions p)).*1)); tauto.
  - rewrite field_slugs_routes. unfold route_keys.
    rewrite <-!not_eq_None_Some, store_all_lookup_None.
    destruct (decide (k ∈ (default [] (routes p)).*1)); tauto.
Qed.

Lemma holds_absorbed field s todo k :
  holds field (foldl absorb s todo) k ↔
  holds field s k ∨ Exists (owns field k) todo.
Proof.
  revert s. induction todo as [|p todo IH]; intros s; simpl.
  - rewrite Exists_nil. tauto.
  - rewrite IH, holds_absorb, Exists_cons. tauto.
Qed.

Lemma holds_initial field k : ¬ holds field initial k.
Proof. destruct field; simpl; rewrite lookup_empty; by intros [? ?]. Qed.

(** [admits] through the accumulators named by [field]. *)
Lemma admits_fields s p :
  admits s p ↔
  (is_Some (auth p) → resolved_auth (resolved s) = None) ∧
  Forall (role_safe (resolved_roles (resolved s))) (role_entries p) ∧
  ∀ field, NoDup (field_slugs field p) ∧
           Forall (λ k, ¬ holds field s k ∧ ¬ inherited k)
             (field_slugs field p).
Proof.
  unfold admits, fresh_entries. split.
  - intros (Ha & [? ?] & Hro & [? ?] & [? ?]). split; [done|].
    split; [done|].
    intros []; setoid_rewrite holds_None;
      rewrite ?field_slugs_permissions, ?field_slugs_actions,
        ?field_slugs_routes; done.
  - intros (Ha & Hro & Hf). split; [done|].
    pose proof (Hf Permissions) as HP. pose proof (Hf Actions) as HA.
    pose proof (Hf Routes) as HR.
    setoid_rewrite holds_None in HP. setoid_rewrite holds_None in HA.
    setoid_rewrite holds_None in HR.
    rewrite field_slugs_permissions in HP. rewrite field_slugs_actions in HA.
    rewrite field_slugs_routes in HR. done.
Qed.

Lemma no_overlap_fields p q :
  no_overlap p q ↔
  ¬ (is_Some (auth p) ∧ is_Some (auth q)) ∧
  ∀ field, disjoint_keys (field_slugs field p) (field_slugs field q).
Proof.
  unfold no_overlap. split.
  - intros (Ha & ? & ? & ?). split; [done|].
    intros []; rewrite ?field_slugs_permissions, ?field_slugs_actions,
      ?field_slugs_routes; done.
  - intros (Ha & Hf). split; [done|].
    pose proof (Hf Permissions) as HP. pose proof (Hf Actions) as HA.
    pose proof (Hf Routes) as HR.
    rewrite !field_slugs_permissions in HP. rewrite !field_slugs_actions in HA.
    rewrite !field_slugs_routes in HR. done.
Qed.

Lemma resolved_auth_absorb s p :
  resolved_auth (resolved (absorb s p)) = None ↔
  auth p = None ∧ resolved_auth (resolved s) = None.
Proof.
  simpl. destruct (auth p); split; try done.
  - by intros [? ?].
  - by intros [_ ?].
Qed.

(** A descriptor admitted after [p] was admitted before, and shares no
    exclusive key with [p]. *)
Lemma admits_absorb s p q :
  admits (absorb s p) q ↔ admits s q ∧ no_overlap p q.
Proof.
  rewrite !admits_fields, no_overlap_fields, resolved_auth_absorb.
  unfold disjoint_keys. setoid_rewrite holds_absorb.
  setoid_rewrite owns_field_slugs. setoid_rewrite Forall_forall.
  cbn [absorb resolved resolved_roles].
  setoid_rewrite role_safe_absorbed.
  split.
  - intros (Ha & Hro & Hf). split; [split; [|split]|split].
    + intros Hq. by destruct (Ha Hq).
    + done.
    + intros field. destruct (Hf field) as [Hnd Hfr]. split; [done|].
      intros k Hk. destruct (Hfr k Hk) as [Hh ?]. split; [|done].
      intros ?. apply Hh. by left.
    + intros [Hp Hq]. destruct (Ha Hq) as [Hnone _].
      rewrite Hnone in Hp. by destruct Hp.
    + intros field k Hk Hq. destruct (Hf field) as [_ Hfr].
      destruct (Hfr k Hq) as [Hh _]. apply Hh. by right.
  - intros ((Ha & Hro & Hf) & Hno & Hd). split; [|split].
    + intros Hq. split; [|by apply Ha].
      destruct (auth p) eqn:Hp; [|done]. destruct Hno. eauto.
    + done.
    + intros field. destruct (Hf field) as [Hnd Hfr]. split; [done|].
      intros k Hk. destruct (Hfr k Hk) as [Hh ?]. split; [|done].
      intros [?|Hp]; [done|by eapply Hd].
Qed.

Lemma admits_absorbed s todo q :
  admits (foldl absorb s todo) q ↔ admits s q ∧ Forall (λ p, no_overlap p q) todo.
Proof.
  revert s. induction todo as [|p todo IH]; intros s; simpl.
  - rewrite Forall_nil. tauto.
  - rewrite IH, admits_absorb, Forall_cons. tauto.
Qed.

Lemma admits_all_pairwise s todo :
  admits_all s todo ↔ Forall (admits s) todo ∧ pairwise no_overlap todo.
Proof.
  revert s. induction todo as [|p todo IH]; intros s; simpl.
  - rewrite Forall_nil. tauto.
  - rewrite IH, Forall_cons. split.
    + intros (Hp & Hall & Hpw). split; [split; [done|]|split; [|done]].
      * eapply Forall_impl; [exact Hall|]. intros q Hq.
        by apply admits_absorb in Hq as [? _].
      * eapply Forall_impl; [exact Hall|]. intros q Hq.
        by apply admits_absorb in Hq as [_ ?].
    + intros ((Hp & Hall) & Hno & Hpw). split; [done|]. split; [|done].
      apply Forall_forall. intros q Hq. apply admits_absorb.
      rewrite Forall_forall in Hall, Hno. eauto.
Qed.

Lemma admits_initial p :
  admits initial p ↔
  (NoDup (permission_slugs p) ∧ NoDup (action_names p) ∧
   NoDup (route_keys p)) ∧
  Forall (λ k, ¬ inherited k)
    (permission_slugs p ++ action_names p ++ route_keys p) ∧
  Forall (λ entry, inherited entry.1 → entry.2 = []) (role_entries p).
Proof.
  unfold admits, fresh_entries, permission_slugs, action_names, route_keys,
    role_safe.
  simpl. rewrite !Forall_app. setoid_rewrite Forall_forall.
  setoid_rewrite lookup_empty. split.
  - intros (_ & [? Hp] & Hro & [? Ha] & [? Hr]).
    split_and!; try done; intros k Hk;
      first [by apply Hp|by apply Ha|by apply Hr|by apply Hro].
  - intros ((? & ? & ?) & (Hp & Ha & Hr) & Hro).
    split_and!; try done; intros k Hk; try (split; [done|]);
      first [by apply Hp|by apply Ha|by apply Hr|by (intros _; apply Hro)].
Qed.

Lemma well_formed_admits_initial p :
  well_formed p → plain p → admits initial p.
Proof.
  intros (? & _ & ? & ?) Hplain. apply admits_initial.
  unfold plain in Hplain. rewrite !Forall_app in Hplain.
  destruct Hplain as (Hp & Ha & Hr & Hro). rewrite !Forall_app.
  split_and!; try done.
  apply Forall_forall. intros entry Hin Hinh. rewrite Forall_forall in Hro.
  destruct (Hro entry.1); [by apply list_elem_of_fmap_2|done].
Qed.

(** Resolution succeeds exactly on the lists without an overlap. *)
Lemma resolvePlugins_returns plugins :
  returns (resolvePlugins plugins) ↔
  Forall (admits initial) plugins ∧ pairwise no_overlap plugins.
Proof.
  rewrite <-admits_all_pairwise. unfold resolvePlugins, returns.
  setoid_rewrite bind_Return. setoid_rewrite resolve_loop_Return. split.
  - by intros (r & s & (? & _) & _).
  - intros Hall. eexists _, _. done.
Qed.

Lemma resolvePlugins_Return plugins r :
  resolvePlugins plugins = Return r ↔
  admits_all initial plugins ∧ r = resolved (foldl absorb initial plugins).
Proof.
  unfold resolvePlugins. rewrite bind_Return.
  setoid_rewrite resolve_loop_Return. split.
  - by intros (s & (? & ->) & [= <-]).
  - intros (? & ->). eexists. done.
Qed.

Lemma resolvePlugins_Throw plugins e :
  resolvePlugins plugins = Throw e ↔
  ∃ pre p post, plugins = pre ++ p :: post ∧ admits_all initial pre ∧
    merge_plugin plugins (foldl absorb initial pre) p = Throw e.
Proof.
  unfold resolvePlugins. rewrite bind_Throw, resolve_loop_Throw.
  split; [|by left]. by intros [?|(? & _ & ?)].
Qed.

Lemma resolvePlugins_TypeError plugins :
  resolvePlugins plugins = TypeError ↔
  ∃ pre p post, plugins = pre ++ p :: post ∧ admits_all initial pre ∧
    merge_plugin plugins (foldl absorb initial pre) p = TypeError.
Proof.
  unfold resolvePlugins. rewrite bind_TypeError, resolve_loop_TypeError.
  split; [|by left]. by intros [?|(? & _ & ?)].
Qed.

(** ** Authentication *)

Lemma absorbed_no_auth s todo :
  Forall (λ p, auth p = None) todo →
  resolved_auth (resolved (foldl absorb s todo)) = resolved_auth (resolved s) ∧
  authSource (foldl absorb s todo) = authSource s.
Proof.
  revert s. induction todo as [|p todo IH]; intros s; simpl; [done|].
  intros [Hp Hrest]%Forall_cons.
  destruct (IH (absorb s p) Hrest) as [-> ->]. simpl. by rewrite Hp.
Qed.

Lemma auth_tracked_absorb seen s p :
  auth_tracked seen s → auth_tracked (seen ++ [p]) (absorb s p).
Proof.
  unfold auth_tracked. simpl. intros Hs.
  destruct (auth p) as [a|] eqn:Hp.
  - right. exists p. rewrite Hp.
    split_and!; [apply elem_of_app; right; constructor|eauto|done|done].
  - destruct Hs as [?|(q & ? & ? & ? & ?)]; [by left|].
    right. exists q. split_and!; [apply elem_of_app; by left|done..].
Qed.

Lemma auth_tracked_absorbed seen s todo :
  auth_tracked seen s → auth_tracked (seen ++ todo) (foldl absorb s todo).
Proof.
  revert seen s. induction todo as [|p todo IH]; intros seen s Hs; simpl.
  - by rewrite app_nil_r.
  - rewrite (cons_middle p), app_assoc. by apply IH, auth_tracked_absorb.
Qed.

Lemma auth_tracked_initial : auth_tracked [] initial.
Proof. by left. Qed.

(** ** Lists without overlaps *)

Lemma pairwise_app {A} (R : A → A → Prop) l1 l2 :
  pairwise R (l1 ++ l2) ↔
  pairwise R l1 ∧ pairwise R l2 ∧ Forall (λ x, Forall (R x) l2) l1.
Proof.
  induction l1 as [|x l1 IH]; simpl.
  - rewrite Forall_nil. tauto.
  - rewrite IH, Forall_app, Forall_cons. tauto.
Qed.

Lemma pairwise_snoc {A} (R : A → A → Prop) l x :
  pairwise R (l ++ [x]) ↔ pairwise R l ∧ Forall (λ y, R y x) l.
Proof.
  rewrite pairwise_app. simpl. setoid_rewrite Forall_singleton.
  rewrite Forall_nil. tauto.
Qed.

Lemma no_overlap_auth p q :
  no_overlap p q → is_Some (auth p) → is_Some (auth q) → False.
Proof. intros (Hno & _) ? ?. by apply Hno. Qed.

(** ** Claims about the tracer, the lists and authentication *)

(** The scan, with the test [key in obj] as the code makes it. *)
Lemma findOwner_scan plugins field k cur :
  ∃ scanned rest,
    plugins = scanned ++ rest ∧
    Forall (λ p, name p ≠ cur) scanned ∧
    (rest = [] ∨ ∃ p rest', rest = p :: rest' ∧ name p = cur) ∧
    ((∃ before owner after,
        scanned = before ++ owner :: after ∧
        Forall (λ q, ¬ finds field k q) before ∧ finds field k owner ∧
        findOwner plugins field k cur = name owner) ∨
     (Forall (λ q, ¬ finds field k q) scanned ∧
      findOwner plugins field k cur = "engine config")).
Proof.
  induction plugins as [|p plugins IH].
  { exists [], []. split_and!; [done|constructor|by left|]. right.
    split; [constructor|done]. }
  destruct (decide (name p = cur)) as [Hp|Hp].
  { exists [], (p :: plugins). split_and!; [done|constructor|right; eauto|].
    right. split; [constructor|by apply findOwner_halt]. }
  destruct IH as (scanned & rest & -> & Hn & Hrest & Hres).
  exists (p :: scanned), rest. split_and!; [done|by constructor|done|].
  destruct (finds_decision field k p) as [Hown|Hown].
  { left. exists [], p, scanned. split_and!; [done|constructor|done|].
    by apply findOwner_hit. }
  rewrite findOwner_miss by done.
  destruct Hres as [(before & owner & after & -> & Hb & Ho & Hf)|[Hnone Hf]].
  - left. exists (p :: before), owner, after.
    split_and!; [done|by constructor|done|done].
  - right. split; [by constructor|done].
Qed.

Lemma finds_iff_owns field k p :
  ¬ inherited k → finds field k p ↔ owns field k p.
Proof. intros Hk. split; [by apply finds_owns|apply owns_finds]. Qed.

(** C4 (amended). For a key that names no inherited member,
    [findOwner] scans the descriptors in order up to, and not
    including, the first one named [cur]; it returns the name of the
    first scanned descriptor whose [field] object has [k] among its
    keys, and the text "engine config" when no scanned descriptor has
    it. *)
Theorem findOwner_scans_prefix plugins field k cur :
  ¬ inherited k →
  ∃ scanned rest,
    plugins = scanned ++ rest ∧
    Forall (λ p, name p ≠ cur) scanned ∧
    (rest = [] ∨ ∃ p rest', rest = p :: rest' ∧ name p = cur) ∧
    ((∃ before owner after,
        scanned = before ++ owner :: after ∧
        Forall (λ q, ¬ owns field k q) before ∧ owns field k owner ∧
        findOwner plugins field k cur = name owner) ∨
     (Forall (λ q, ¬ owns field k q) scanned ∧
      findOwner plugins field k cur = "engine config")).
Proof.
  intros Hk.
  destruct (findOwner_scan plugins field k cur)
    as (scanned & rest & -> & Hn & Hrest & Hres).
  exists scanned, rest. split_and!; [done..|].
  destruct Hres as [(before & owner & after & -> & Hb & Ho & Hf)|[Hnone Hf]].
  - left. exists before, owner, after. split_and!; [done| |by apply finds_owns|done].
    eapply Forall_impl; [exact Hb|]. intros q Hq ?. by apply Hq, owns_finds.
  - right. split; [|done].
    eapply Forall_impl; [exact Hnone|]. intros q Hq ?. by apply Hq, owns_finds.
Qed.

Lemma merge_exclusive_ext {V} plugins plugins' knd field pn (es : JsRecord V) acc :
  (∀ k, findOwner plugins field k pn = findOwner plugins' field k pn) →
  merge_exclusive plugins knd field pn es acc =
  merge_exclusive plugins' knd field pn es acc.
Proof.
  intros Hext. revert acc. induction es as [|[k v] es IH]; intros acc; simpl.
  - done.
  - destruct (decide (reads_truthy acc k)); [by rewrite Hext|apply IH].
Qed.

(** The loop body reads nothing behind the descriptor it processes. *)
Lemma merge_plugin_tail pre p post post' s :
  merge_plugin (pre ++ p :: post) s p = merge_plugin (pre ++ p :: post') s p.
Proof.
  unfold merge_plugin.
  rewrite (merge_exclusive_ext (pre ++ p :: post) (pre ++ p :: post')
             "permission" Permissions)
    by (intros; apply findOwner_tail).
  rewrite (merge_exclusive_ext (pre ++ p :: post) (pre ++ p :: post')
             "action" Actions)
    by (intros; apply findOwner_tail).
  by rewrite (merge_exclusive_ext (pre ++ p :: post) (pre ++ p :: post')
             "route" Routes)
    by (intros; apply findOwner_tail).
Qed.

(** A conflict, once thrown, is the outcome whatever follows. *)
Lemma resolvePlugins_Throw_app plugins post e :
  resolvePlugins plugins = Throw e → resolvePlugins (plugins ++ post) = Throw e.
Proof.
  intros (pre & p & rest & -> & Hall & Hm)%resolvePlugins_Throw.
  apply resolvePlugins_Throw. exists pre, p, (rest ++ post).
  split_and!; [by rewrite <-app_assoc|done|].
  rewrite <-app_assoc, <-app_comm_cons.
  by rewrite (merge_plugin_tail pre p (rest ++ post) rest).
Qed.

Lemma resolvePlugins_TypeError_app plugins post :
  resolvePlugins plugins = TypeError →
  resolvePlugins (plugins ++ post) = TypeError.
Proof.
  intros (pre & p & rest & -> & Hall & Hm)%resolvePlugins_TypeError.
  apply resolvePlugins_TypeError. exists pre, p, (rest ++ post).
  split_and!; [by rewrite <-app_assoc|done|].
  rewrite <-app_assoc, <-app_comm_cons.
  by rewrite (merge_plugin_tail pre p (rest ++ post) rest).
Qed.

Lemma plain_role_safe acc p :
  plain p → Forall (role_safe acc) (role_entries p).
Proof.
  unfold plain. rewrite !Forall_app. intros (_ & _ & _ & Hro).
  apply Forall_forall. intros entry Hin _ Hinh.
  rewrite Forall_forall in Hro.
  destruct (Hro entry.1); [by apply list_elem_of_fmap_2|done].
Qed.

(** Without a key or role name that spells an inherited member, no
    method call of the loop fails. *)
Lemma resolvePlugins_not_TypeError plugins :
  Forall plain plugins → resolvePlugins plugins ≠ TypeError.
Proof.
  intros Hplain (pre & p & post & -> & _ & Hm)%resolvePlugins_TypeError.
  apply merge_plugin_TypeError in Hm as (_ & _ & Hno). apply Hno.
  apply plain_role_safe. rewrite Forall_forall in Hplain.
  apply Hplain, elem_of_app. right. constructor.
Qed.

(** X13. When no key of a descriptor spells a member inherited from
    [Object.prototype] and no auth provider, permission slug, action
    name or route key is contributed by two descriptors,
    [resolvePlugins] returns, and the resolved [integrations] and
    [middleware] are the concatenations of the descriptors' sequences in
    input order. *)
Theorem resolvePlugins_concatenates plugins :
  Forall well_formed plugins → Forall plain plugins →
  pairwise no_overlap plugins →
  ∃ r, resolvePlugins plugins = Return r ∧
       resolved_integrations r = plugins ≫= integrations_of ∧
       resolved_middleware r = plugins ≫= middleware_of.
Proof.
  intros Hwf Hplain Hex.
  assert (admits_all initial plugins) as Hall.
  { apply admits_all_pairwise. split; [|done].
    apply Forall_forall. intros p Hp. rewrite Forall_forall in Hwf, Hplain.
    apply well_formed_admits_initial; eauto. }
  exists (resolved (foldl absorb initial plugins)). split_and!.
  - by apply resolvePlugins_Return.
  - by rewrite absorbed_integrations.
  - by rewrite absorbed_middleware.
Qed.

(** C2 (amended). When two descriptors supply [auth], [resolvePlugins]
    returns no configuration, and throws a conflict when no key or role
    name before the second supplier spells an inherited member; when the
    descriptors before the second supplier resolve, the conflict is the
    [auth] one, with the first supplier as first owner and the second as
    second owner. *)
Theorem second_auth_conflict pre first mid second post :
  Forall (λ p, auth p = None) pre → is_Some (auth first) →
  Forall (λ p, auth p = None) mid → is_Some (auth second) →
  ¬ returns (resolvePlugins (pre ++ first :: mid ++ second :: post)) ∧
  (Forall plain (pre ++ first :: mid) →
   throws (resolvePlugins (pre ++ first :: mid ++ second :: post))) ∧
  (returns (resolvePlugins (pre ++ first :: mid)) →
   resolvePlugins (pre ++ first :: mid ++ second :: post) =
   Throw {| kind := "auth"; key := "auth";
            pluginA := name first; pluginB := name second |}).
Proof.
  intros Hpre [a Ha] Hmid [b Hb].
  assert (returns (resolvePlugins (pre ++ first :: mid)) →
    resolvePlugins (pre ++ first :: mid ++ second :: post) =
    Throw {| kind := "auth"; key := "auth";
             pluginA := name first; pluginB := name second |}) as Hauth.
  { intros [r (Hall & _)%resolvePlugins_Return].
    apply resolvePlugins_Throw.
    exists (pre ++ first :: mid), second, post.
    split_and!; [by rewrite <-app_assoc|done|].
    set (s := foldl absorb initial (pre ++ first :: mid)).
    assert (resolved_auth (resolved s) = Some a ∧
            authSource s = Some (name first)) as [Hheld Hsrc].
    { unfold s. rewrite foldl_app. simpl.
      destruct (absorbed_no_auth
        (absorb (foldl absorb initial pre) first) mid Hmid) as [-> ->].
      simpl. by rewrite Ha. }
    unfold merge_plugin, merge_auth. by rewrite Hb, Hheld, Hsrc. }
  split_and!; [| |done].
  - intros [_ Hpw]%resolvePlugins_returns.
    apply pairwise_app in Hpw as (_ & Hpw & _). destruct Hpw as [Hno _].
    apply Forall_app in Hno as [_ Hno]. apply Forall_cons in Hno as [Hno _].
    destruct (no_overlap_auth _ _ Hno); eauto.
  - intros Hplain.
    destruct (returns_or_not (resolvePlugins (pre ++ first :: mid)))
      as [Hret|[[e He]|Hte]].
    + eexists. by apply Hauth.
    + exists e. replace (pre ++ first :: mid ++ second :: post)
        with ((pre ++ first :: mid) ++ second :: post)
        by by rewrite <-app_assoc.
      by apply resolvePlugins_Throw_app.
    + by destruct (resolvePlugins_not_TypeError _ Hplain).
Qed.

(** C9. In every state the loop reaches, the accumulator holds an
    [auth] exactly when [authSource] is set, and [authSource] is then
    the name of the descriptor that supplied it; hence the first owner
    of a thrown [auth] conflict is read from a defined [authSource]. *)
Theorem authSource_defined plugins pre p post s :
  plugins = pre ++ p :: post →
  resolve_loop plugins pre initial = Return s →
  auth_tracked pre s ∧
  (is_Some (resolved_auth (resolved s)) ↔ is_Some (authSource s)) ∧
  ∀ e, merge_plugin plugins s p = Throw e → kind e = "auth" →
       ∃ owner, owner ∈ pre ∧ is_Some (auth owner) ∧
                authSource s = Some (name owner) ∧ pluginA e = name owner.
Proof.
  intros -> (_ & ->)%resolve_loop_Return.
  pose proof (auth_tracked_absorbed [] initial pre auth_tracked_initial) as Htr.
  simpl in Htr. split; [done|].
  set (s := foldl absorb initial pre) in *. split.
  - destruct Htr as [[-> ->]|(q & _ & Hq & -> & ->)].
    + split; by intros [? ?].
    + split; eauto.
  - intros e [Hth _]%merge_plugin_Throw Hkind.
    destruct Hth as [(-> & _ & Hheld)|(field & He & _)].
    + destruct Htr as [[Hnone _]|(q & Hin & Hq & _ & Hsrc)].
      { rewrite Hnone in Hheld. by destruct Hheld. }
      exists q. simpl. by rewrite Hsrc.
    + rewrite He in Hkind. by destruct field.
Qed.

(** ** Claims about the conflict value and fail-fast behaviour *)

Lemma Exists_first {A} (P : A → Prop) (dec : ∀ x, Decision (P x)) (l : list A) :
  Exists P l →
  ∃ before x after, l = before ++ x :: after ∧ Forall (λ y, ¬ P y) before ∧ P x.
Proof.
  induction l as [|y l IH]; intros Hex; [by apply Exists_nil in Hex|].
  destruct (dec y) as [Hy|Hy].
  - exists [], y, l. split_and!; [done|constructor|done].
  - apply Exists_cons in Hex as [?|Hex]; [done|].
    destruct (IH Hex) as (before & x & after & -> & Hb & Hx).
    exists (y :: before), x, after. split_and!; [done|by constructor|done].
Qed.

Lemma kind_of_inj field field' : kind_of field = kind_of field' → field = field'.
Proof. by destruct field, field'. Qed.

Lemma well_formed_NoDup field p : well_formed p → NoDup (field_slugs field p).
Proof.
  intros (? & _ & ? & ?).
  destruct field; by rewrite ?field_slugs_permissions, ?field_slugs_actions,
    ?field_slugs_routes.
Qed.

(** C5 (amended). A conflict thrown by [resolvePlugins] is built from
    four values: a kind among auth, permission, action and route, the
    key, a first owner and the name of the descriptor whose processing
    hit the conflict; the thrown object holds its name and the message,
    which is the fixed sentence around the four values. When descriptor
    names are pairwise distinct and the key spells no inherited member,
    the first owner is the name of the first descriptor that contributed
    the key. *)
Theorem conflict_signal plugins e :
  resolvePlugins plugins = Throw e →
  kind e ∈ ["auth"; "permission"; "action"; "route"] ∧
  message e =
    "Plugin conflict: " +:+ kind e +:+ " " +:+ dquote +:+ key e +:+ dquote
      +:+ " is defined by both " +:+ dquote +:+ pluginA e +:+ dquote
      +:+ " and " +:+ dquote +:+ pluginB e +:+ dquote
      +:+ ". Each " +:+ kind e +:+ " must be provided by exactly one plugin." ∧
  thrown_object e =
    {| object_name := "PluginConflictError"; object_message := message e |} ∧
  ∃ pre second post,
    plugins = pre ++ second :: post ∧ returns (resolvePlugins pre) ∧
    pluginB e = name second ∧ claims e second ∧
    (Forall well_formed plugins → NoDup (name <$> plugins) →
     ¬ inherited (key e) →
     ∃ before first after,
       pre = before ++ first :: after ∧
       Forall (λ q, ¬ claims e q) before ∧ claims e first ∧
       pluginA e = name first).
Proof.
  intros (pre & p & post & -> & Hall & Hm)%resolvePlugins_Throw.
  apply merge_plugin_Throw in Hm as [Hth _].
  pose proof Hall as [_ Hpw]%admits_all_pairwise.
  assert (returns (resolvePlugins pre)) as Hret.
  { eexists. by apply resolvePlugins_Return. }
  set (s := foldl absorb initial pre) in *.
  split_and!; [| done | done |exists pre, p, post; split_and!; [done|done|..]].
  - destruct Hth as [(-> & _)|(field & -> & _)]; simpl.
    + set_solver.
    + destruct field; set_solver.
  - by destruct Hth as [(-> & _)|(field & -> & _)].
  - destruct Hth as [(-> & Hp & _)|(field & -> & Hin & _)].
    + by left.
    + right. by exists field.
  - intros Hwf Hnames Hkey.
    destruct Hth as [(-> & Hp & Hheld)|(field & He & Hin & Hholds)].
    + pose proof (auth_tracked_absorbed [] initial pre auth_tracked_initial)
        as [[Hnone _]|(q & Hq & Hqa & _ & Hsrc)].
      { fold s in Hnone. rewrite Hnone in Hheld. by destruct Hheld. }
      simpl in Hq. apply list_elem_of_split in Hq as (before & after & ->).
      exists before, q, after. fold s in Hsrc.
      split_and!; [done| |by left|by simpl; rewrite Hsrc].
      apply pairwise_app in Hpw as (_ & _ & Hcross).
      eapply Forall_impl; [exact Hcross|]. simpl.
      intros x [Hx _]%Forall_cons [(_ & _ & Hxa)|(field & Hk & _)].
      * by destruct (no_overlap_auth _ _ Hx).
      * by destruct field.
    + assert (well_formed p) as Hwfp.
      { rewrite Forall_forall in Hwf. apply Hwf, elem_of_app. right. constructor. }
      destruct (Hholds (well_formed_NoDup field p Hwfp)) as [Hheld|?];
        [|done].
      clear Hholds. rename Hheld into Hholds.
      apply holds_absorbed in Hholds as [Hinit|Hex];
        [by destruct (holds_initial field (key e))|].
      apply (Exists_first _ (owns_decision field (key e))) in Hex
        as (before & first & after & -> & Hbefore & Hfirst).
      exists before, first, after.
      rewrite fmap_app, fmap_cons, fmap_app, fmap_cons, <-app_assoc in Hnames.
      simpl in Hnames. apply NoDup_app in Hnames as (_ & Hb & Hnames).
      apply NoDup_cons in Hnames as [Hf _].
      assert (name first ≠ name p) as Hne.
      { intros Heq. apply Hf, elem_of_app. right. rewrite Heq. constructor. }
      assert (Forall (λ q, name q ≠ name p) before) as Hbn.
      { apply Forall_forall. intros x Hx Heq.
        apply (Hb (name x)); [by apply list_elem_of_fmap_2|].
        right. apply elem_of_app. right. rewrite Heq. constructor. }
      split_and!; [done| | |].
      * eapply Forall_impl; [exact Hbefore|]. simpl.
        intros x Hx [(Hk & _)|(field' & Hk & Hin')].
        -- rewrite He in Hk. by destruct field.
        -- rewrite He in Hk. simpl in Hk. apply kind_of_inj in Hk as <-.
           by apply Hx, owns_field_slugs.
      * right. exists field. split; [by rewrite He|by apply owns_field_slugs].
      * rewrite He. simpl. rewrite <-app_assoc, <-app_comm_cons.
        rewrite findOwner_skip; [by apply findOwner_hit, owns_finds|done|].
        eapply Forall_impl; [exact Hbefore|]. simpl.
        intros x Hx Hfd. by apply Hx, finds_owns.
Qed.

(** What makes the loop body throw: an overlap with an earlier
    descriptor, or a key that spells an inherited member. *)
Lemma thrown_by_cause plugins pre p e :
  well_formed p → thrown_by plugins (foldl absorb initial pre) p e →
  ¬ Forall (λ q, no_overlap q p) pre ∨ inherited (key e).
Proof.
  intros Hwf [(-> & Hp & Hheld)|(field & He & Hin & Hholds)].
  - left. intros Hcross.
    pose proof (auth_tracked_absorbed [] initial pre auth_tracked_initial)
      as [[Hnone _]|(q & Hq & Hqa & _)].
    { rewrite Hnone in Hheld. by destruct Hheld. }
    simpl in Hq. rewrite Forall_forall in Hcross.
    by destruct (no_overlap_auth _ _ (Hcross q Hq)).
  - destruct (Hholds (well_formed_NoDup field p Hwf)) as [Hheld|Hinh];
      [left|by right].
    intros Hcross.
    apply holds_absorbed in Hheld as [Hinit|Hex];
      [by destruct (holds_initial field (key e))|].
    apply Exists_exists in Hex as (q & Hq & Hown%owns_field_slugs).
    rewrite Forall_forall in Hcross.
    pose proof (Hcross q Hq) as [_ Hdis]%no_overlap_fields.
    specialize (Hdis field). unfold disjoint_keys in Hdis.
    rewrite Forall_forall in Hdis. by apply (Hdis (key e)).
Qed.

(** An entry that makes [merge_roles] call a missing method. *)
Lemma unsafe_role_entry acc es :
  ¬ Forall (role_safe acc) es →
  ∃ role perms, (role, perms) ∈ es ∧ inherited role ∧ perms ≠ [].
Proof.
  intros Hno. apply not_Forall_Exists in Hno; [|apply _].
  apply Exists_exists in Hno as ([role perms] & Hin & Hunsafe).
  exists role, perms. split; [done|]. unfold role_safe in Hunsafe.
  simpl in Hunsafe.
  destruct (decide (inherited role)) as [Hinh|Hinh]; [|by destruct Hunsafe].
  split; [done|]. intros ->. by apply Hunsafe.
Qed.

(** X15. [resolvePlugins] returns a configuration with every field
    present (all empty for an empty input), the input then being free of
    overlaps; or throws a conflict at the first descriptor that overlaps
    an earlier one or has a key spelling an inherited member; or fails
    with a [TypeError] at the first descriptor with slugs under a role
    name that spells an inherited member. In both failures the
    descriptors before that one resolve, the caller gets the error
    alone, and nothing behind that descriptor is looked at. *)
Theorem resolvePlugins_fail_fast plugins :
  Forall well_formed plugins →
  resolvePlugins (@nil Plugin) = Return (resolved initial) ∧
  ((∃ r, resolvePlugins plugins = Return r ∧ pairwise no_overlap plugins) ∨
   (∃ e pre p post,
      plugins = pre ++ p :: post ∧ resolvePlugins plugins = Throw e ∧
      returns (resolvePlugins pre) ∧ pairwise no_overlap pre ∧
      (¬ pairwise no_overlap (pre ++ [p]) ∨ inherited (key e)) ∧
      pluginB e = name p ∧
      ∀ post', resolvePlugins (pre ++ p :: post') = Throw e) ∨
   (∃ pre p post role perms,
      plugins = pre ++ p :: post ∧ resolvePlugins plugins = TypeError ∧
      returns (resolvePlugins pre) ∧ pairwise no_overlap pre ∧
      (role, perms) ∈ role_entries p ∧ inherited role ∧ perms ≠ [] ∧
      ∀ post', resolvePlugins (pre ++ p :: post') = TypeError)).
Proof.
  intros Hwf. split; [done|].
  destruct (resolvePlugins plugins) as [r|e|] eqn:Hres.
  { left. exists r. split; [done|].
    assert (returns (resolvePlugins plugins)) as Hret by by exists r.
    by apply resolvePlugins_returns in Hret as [_ ?]. }
  - right. left.
    pose proof Hres as (pre & p & post & -> & Hall & Hm)%resolvePlugins_Throw.
    exists e, pre, p, post.
    pose proof Hall as [_ Hpw]%admits_all_pairwise.
    pose proof Hm as [Hth Hnot]%merge_plugin_Throw.
    split_and!; [done|done| |done| | |].
    + eexists. by apply resolvePlugins_Return.
    + assert (well_formed p) as Hwfp.
      { rewrite Forall_forall in Hwf. apply Hwf, elem_of_app. right.
        constructor. }
      destruct (thrown_by_cause _ _ _ _ Hwfp Hth) as [Hno|Hinh];
        [left|by right].
      by intros [_ Hcross]%pairwise_snoc.
    + by destruct Hth as [(-> & _)|(field & -> & _)].
    + intros post'. apply resolvePlugins_Throw. exists pre, p, post'.
      split_and!; [done|done|]. by rewrite (merge_plugin_tail pre p post' post).
  - right. right.
    pose proof Hres as (pre & p & post & -> & Hall & Hm)%resolvePlugins_TypeError.
    pose proof Hall as [_ Hpw]%admits_all_pairwise.
    pose proof Hm as (_ & _ & Hno)%merge_plugin_TypeError.
    apply unsafe_role_entry in Hno as (role & perms & Hin & Hinh & Hne).
    exists pre, p, post, role, perms.
    split_and!; [done|done| |done|done|done|done|].
    + eexists. by apply resolvePlugins_Return.
    + intros post'. apply resolvePlugins_TypeError. exists pre, p, post'.
      split_and!; [done|done|]. by rewrite (merge_plugin_tail pre p post' post).
Qed.

(** ** Roles *)

Lemma elem_of_first_seen l x : x ∈ first_seen l ↔ x ∈ l.
Proof.
  induction l as [|y l IH]; simpl; [done|].
  rewrite !elem_of_cons, list_elem_of_filter, IH.
  destruct (decide (x = y)); tauto.
Qed.

Lemma NoDup_first_seen l : NoDup (first_seen l).
Proof.
  induction l as [|y l IH]; simpl; [constructor|].
  apply NoDup_cons. split; [|by apply NoDup_filter].
  rewrite list_elem_of_filter. by intros [? _].
Qed.

Lemma first_seen_snoc l x : first_seen (l ++ [x]) = push_new (first_seen l) x.
Proof.
  unfold push_new. induction l as [|y l IH]; simpl; [done|].
  rewrite IH. destruct (decide (x ∈ first_seen l)) as [Hin|Hnin].
  - rewrite decide_True; [done|].
    destruct (decide (x = y)) as [->|Hne]; [by left|].
    right. by apply list_elem_of_filter.
  - rewrite filter_app. destruct (decide (x = y)) as [->|Hne].
    + rewrite decide_True by by left.
      rewrite filter_cons_False by (by intros ?). simpl. by rewrite app_nil_r.
    + rewrite decide_False.
      * by rewrite filter_cons_True by done.
      * intros [?|[_ ?]%list_elem_of_filter]%elem_of_cons; done.
Qed.

Lemma foldl_push_new_first_seen c l :
  foldl push_new (first_seen c) l = first_seen (c ++ l).
Proof.
  revert c. induction l as [|x l IH]; intros c; simpl.
  - by rewrite app_nil_r.
  - by rewrite <-first_seen_snoc, IH, <-app_assoc.
Qed.

Lemma filter_key_notin {V} (es : JsRecord V) k :
  k ∉ es.*1 → filter (λ kv, kv.1 = k) es = [].
Proof.
  induction es as [|[k' v] es IH]; [done|]. simpl.
  intros [Hne Hk]%not_elem_of_cons.
  rewrite filter_cons_False by (simpl; congruence). by apply IH.
Qed.


Lemma absorb_role_lookup_ne acc entry role :
  entry.1 ≠ role → absorb_role acc entry !! role = acc !! role.
Proof.
  intros Hne. unfold absorb_role. destruct (acc !! entry.1).
  - by rewrite lookup_insert_ne.
  - destruct (decide (inherited entry.1)); [done|].
    by rewrite lookup_insert_ne.
Qed.

Lemma absorb_role_lookup_eq acc role perms :
  ¬ inherited role →
  absorb_role acc (role, perms) !! role =
  Some (foldl push_new (default [] (acc !! role)) perms).
Proof.
  intros Hno. unfold absorb_role. simpl. destruct (acc !! role) as [arr|].
  - by rewrite lookup_insert_eq.
  - rewrite decide_False by done. by rewrite lookup_insert_eq.
Qed.

(** The slug list a run of role entries leaves under [role]. *)
Lemma foldl_absorb_role_lookup acc es role :
  ¬ inherited role →
  foldl absorb_role acc es !! role =
  if decide (role ∈ es.*1)
  then Some (foldl push_new (default [] (acc !! role))
               (concat (filter (λ kv, kv.1 = role) es).*2))
  else acc !! role.
Proof.
  intros Hno. revert acc. induction es as [|[r perms] es IH]; intros acc.
  { by destruct (decide (role ∈ ([] : JsRecord (list string)).*1))
      as [?%elem_of_nil|]. }
  cbn [foldl]. rewrite IH.
  rewrite fmap_cons. cbn [fst].
  destruct (decide (r = role)) as [->|Hne].
  - rewrite absorb_role_lookup_eq by done.
    rewrite (decide_True (P := role ∈ role :: es.*1)) by by left.
    rewrite filter_cons_True by done.
    rewrite fmap_cons, concat_cons, foldl_app. cbn [snd default].
    destruct (decide (role ∈ es.*1)) as [Hin|Hnin]; [done|].
    by rewrite filter_key_notin.
  - rewrite absorb_role_lookup_ne by done.
    rewrite filter_cons_False by (simpl; congruence).
    destruct (decide (role ∈ es.*1)) as [Hin|Hnin].
    + rewrite decide_True; [done|]. by right.
    + rewrite decide_False; [done|].
      intros [?|?]%elem_of_cons; done.
Qed.

(** No run of role entries makes an own property under an inherited
    name. *)
Lemma foldl_absorb_role_inherited acc es role :
  inherited role → acc !! role = None →
  foldl absorb_role acc es !! role = None.
Proof.
  intros Hinh. revert acc. induction es as [|entry es IH]; intros acc Hacc;
    [done|].
  simpl. apply IH. by apply absorb_role_inherited.
Qed.

(** The resolved [roles] entry in closed form. *)
Lemma resolved_roles_lookup plugins r role :
  resolvePlugins plugins = Return r →
  resolved_roles r !! role =
  if decide (role ∈ (plugins ≫= role_entries).*1 ∧ ¬ inherited role)
  then Some (first_seen (concat (role_lists role plugins)))
  else None.
Proof.
  intros (_ & ->)%resolvePlugins_Return.
  rewrite absorbed_roles. simpl.
  destruct (decide (inherited role)) as [Hinh|Hno].
  - rewrite decide_False by tauto.
    by apply foldl_absorb_role_inherited.
  - rewrite foldl_absorb_role_lookup by done.
    rewrite lookup_empty. simpl.
    destruct (decide (role ∈ _)) as [Hin|Hnin].
    + rewrite decide_True by done.
      by rewrite (foldl_push_new_first_seen []).
    + by rewrite decide_False by tauto.
Qed.

Lemma elem_of_role_lists role plugins l :
  l ∈ role_lists role plugins ↔
  ∃ p, p ∈ plugins ∧ (role, l) ∈ role_entries p.
Proof.
  unfold role_lists. rewrite list_elem_of_fmap. split.
  - intros ([r l'] & -> & [Hr Hin]%list_elem_of_filter). simpl in *. subst r.
    apply list_elem_of_bind in Hin as (p & ? & ?). eauto.
  - intros (p & Hp & Hin). exists (role, l). split; [done|].
    apply list_elem_of_filter. split; [done|].
    apply list_elem_of_bind. eauto.
Qed.

Lemma pairwise_fmap_iff {A B} (R : B → B → Prop) (f : A → B) l :
  pairwise R (f <$> l) ↔ pairwise (λ x y, R (f x) (f y)) l.
Proof.
  induction l as [|x l IH]; simpl; [done|].
  by rewrite IH, Forall_fmap.
Qed.

Lemma role_entries_without_roles p : role_entries (without_roles p) = [].
Proof. done. Qed.

(** Resolution returns exactly when it returns with every [roles]
    contribution removed and no inherited role name comes with a
    slug. *)
Lemma returns_without_roles plugins :
  returns (resolvePlugins plugins) ↔
  returns (resolvePlugins (without_roles <$> plugins)) ∧
  Forall (λ entry, inherited entry.1 → entry.2 = []) (plugins ≫= role_entries).
Proof.
  rewrite !resolvePlugins_returns, pairwise_fmap_iff, Forall_fmap.
  rewrite Forall_bind.
  split.
  - intros [Hadm Hpw]. split; [split; [|exact Hpw]|].
    + eapply Forall_impl; [exact Hadm|]. intros p Hp. simpl.
      apply admits_initial in Hp as (? & ? & _).
      apply admits_initial. split; [done|split; [done|constructor]].
    + eapply Forall_impl; [exact Hadm|]. intros p Hp.
      by apply admits_initial in Hp as (_ & _ & ?).
  - intros [[Hadm Hpw] Hro]. split; [|exact Hpw].
    apply Forall_forall. intros p Hp. rewrite Forall_forall in Hadm, Hro.
    specialize (Hadm p Hp). simpl in Hadm.
    apply admits_initial in Hadm as (? & ? & _).
    apply admits_initial. split; [done|split; [done|by apply Hro]].
Qed.

(** Merging roles raises no conflict: an input that resolves with its
    [roles] removed throws no conflict with them. *)
Lemma roles_raise_no_conflict plugins :
  returns (resolvePlugins (without_roles <$> plugins)) →
  ¬ throws (resolvePlugins plugins).
Proof.
  rewrite resolvePlugins_returns, pairwise_fmap_iff, Forall_fmap.
  intros [Hadm Hpw] [e (pre & p & post & -> & Hall & Hm)%resolvePlugins_Throw].
  apply merge_plugin_Throw in Hm as [Hth _].
  apply Forall_app in Hadm as [_ [Hp _]%Forall_cons]. simpl in Hp.
  apply admits_initial in Hp as ((HnP & HnA & HnR) & Hplain & _).
  apply pairwise_app in Hpw as (_ & _ & Hcross).
  assert (Forall (λ q, no_overlap q p) pre) as Hno.
  { eapply Forall_impl; [exact Hcross|]. simpl.
    by intros q [Hq _]%Forall_cons. }
  destruct Hth as [(-> & Hpa & Hheld)|(field & He & Hin & Hholds)].
  - pose proof (auth_tracked_absorbed [] initial pre auth_tracked_initial)
      as [[Hnone _]|(q & Hq & Hqa & _)].
    { rewrite Hnone in Hheld. by destruct Hheld. }
    simpl in Hq. rewrite Forall_forall in Hno.
    by destruct (no_overlap_auth _ _ (Hno q Hq)).
  - assert (NoDup (field_slugs field p)) as Hnd.
    { destruct field; by rewrite ?field_slugs_permissions,
        ?field_slugs_actions, ?field_slugs_routes. }
    assert (¬ inherited (key e)) as Hkey.
    { rewrite Forall_forall in Hplain. apply Hplain.
      rewrite !elem_of_app.
      destruct field; rewrite ?field_slugs_permissions,
        ?field_slugs_actions, ?field_slugs_routes in Hin; tauto. }
    destruct (Hholds Hnd) as [Hheld|?]; [|done].
    apply holds_absorbed in Hheld as [Hinit|Hex];
      [by destruct (holds_initial field (key e))|].
    apply Exists_exists in Hex as (q & Hq & Hown%owns_field_slugs).
    rewrite Forall_forall in Hno.
    pose proof (Hno q Hq) as [_ Hdis]%no_overlap_fields.
    specialize (Hdis field). unfold disjoint_keys in Hdis.
    rewrite Forall_forall in Hdis. by apply (Hdis (key e)).
Qed.

(** ** Reordering the input *)

Lemma disjoint_keys_sym l1 l2 : disjoint_keys l1 l2 → disjoint_keys l2 l1.
Proof.
  unfold disjoint_keys. rewrite !Forall_forall. intros Hd k Hk Hk'.
  by apply (Hd k).
Qed.

Lemma no_overlap_sym p q : no_overlap p q → no_overlap q p.
Proof.
  intros (Ha & ? & ? & ?). split_and!; try by apply disjoint_keys_sym.
  intros [? ?]. by apply Ha.
Qed.

Lemma pairwise_Permutation {A} (R : A → A → Prop) l l' :
  (∀ x y, R x y → R y x) → l ≡ₚ l' → pairwise R l → pairwise R l'.
Proof.
  intros Hsym Hperm. induction Hperm as [|x l l' Hperm IH|x y l|]; simpl.
  - done.
  - intros [Hx Hl]. split; [by rewrite <-Hperm|by apply IH].
  - intros ([Hyx Hy]%Forall_cons & Hx & Hl). split_and!; try done.
    apply Forall_cons. split; [by apply Hsym|done].
  - tauto.
Qed.

Lemma NoDup_bind_slugs field todo :
  Forall (λ p, NoDup (field_slugs field p)) todo →
  pairwise no_overlap todo →
  NoDup (todo ≫= field_slugs field).
Proof.
  induction todo as [|p todo IH]; simpl; [constructor|].
  intros [Hp Hrest]%Forall_cons [Hno Hpw]. apply NoDup_app. split_and!.
  - done.
  - intros k Hk (q & Hkq & Hq)%list_elem_of_bind.
    rewrite Forall_forall in Hno. apply Hno in Hq.
    apply no_overlap_fields in Hq as [_ Hd]. specialize (Hd field).
    unfold disjoint_keys in Hd. rewrite Forall_forall in Hd. by apply (Hd k).
  - by apply IH.
Qed.

Lemma admits_NoDup field s p : admits s p → NoDup (field_slugs field p).
Proof. intros [_ Hf]%admits_fields. apply Hf. Qed.

Lemma fmap_fst_bind {V} (f : Plugin → JsRecord V) todo :
  (todo ≫= f).*1 = todo ≫= λ p, (f p).*1.
Proof.
  induction todo as [|p todo IH]; [done|].
  by rewrite !bind_cons, fmap_app, IH.
Qed.

(** The three exclusive mappings of a successful run, in closed form. *)
Lemma resolved_exclusive plugins r :
  resolvePlugins plugins = Return r →
  NoDup (plugins ≫= permission_slugs) ∧
  NoDup (plugins ≫= action_names) ∧
  NoDup (plugins ≫= route_keys) ∧
  resolved_permissions r =
    list_to_map (plugins ≫= λ p, default [] (permissions p)) ∧
  resolved_actions r = list_to_map (plugins ≫= λ p, default [] (actions p)) ∧
  resolved_routes r = list_to_map (plugins ≫= λ p, default [] (routes p)).
Proof.
  intros (Hall & ->)%resolvePlugins_Return.
  apply admits_all_pairwise in Hall as [Hadm Hpw].
  assert (∀ field, NoDup (plugins ≫= field_slugs field)) as Hnd.
  { intros field. apply NoDup_bind_slugs; [|done].
    eapply Forall_impl; [exact Hadm|]. intros p. apply admits_NoDup. }
  pose proof (Hnd Permissions) as HP. pose proof (Hnd Actions) as HA.
  pose proof (Hnd Routes) as HR.
  rewrite (list_bind_ext _ permission_slugs plugins plugins) in HP
    by (done || apply field_slugs_permissions).
  rewrite (list_bind_ext _ action_names plugins plugins) in HA
    by (done || apply field_slugs_actions).
  rewrite (list_bind_ext _ route_keys plugins plugins) in HR
    by (done || apply field_slugs_routes).
  split_and!; try done.
  - rewrite absorbed_permissions, store_all_list_to_map.
    + simpl. by rewrite (right_id_L ∅ (∪)).
    + by rewrite fmap_fst_bind.
  - rewrite absorbed_actions, store_all_list_to_map.
    + simpl. by rewrite (right_id_L ∅ (∪)).
    + by rewrite fmap_fst_bind.
  - rewrite absorbed_routes, store_all_list_to_map.
    + simpl. by rewrite (right_id_L ∅ (∪)).
    + by rewrite fmap_fst_bind.
Qed.

Lemma absorbed_auth s todo :
  resolved_auth (resolved (foldl absorb s todo)) =
  match last (omap auth todo) with
  | Some a => Some a
  | None => resolved_auth (resolved s)
  end.
Proof.
  revert s. induction todo as [|p todo IH]; intros s; [done|].
  cbn [foldl omap list_omap]. rewrite IH. simpl.
  destruct (auth p) as [a|]; [|done].
  rewrite last_cons. by destruct (last (omap auth todo)).
Qed.

Lemma at_most_one_auth todo :
  pairwise no_overlap todo → (length (omap auth todo) ≤ 1)%nat.
Proof.
  induction todo as [|p todo IH]; [simpl; lia|].
  intros [Hno Hpw]. specialize (IH Hpw). cbn [omap list_omap].
  destruct (auth p) as [a|] eqn:Hp; [|done].
  destruct (omap auth todo) as [|b l] eqn:Hom; [simpl; lia|].
  assert (b ∈ omap auth todo) as Hb by (rewrite Hom; constructor).
  apply list_elem_of_omap in Hb as (q & Hq & Hqb).
  rewrite Forall_forall in Hno. destruct (no_overlap_auth _ _ (Hno q Hq)); eauto.
Qed.

Lemma Permutation_short {A} (l l' : list A) :
  (length l ≤ 1)%nat → l ≡ₚ l' → l = l'.
Proof.
  intros Hlen Hperm. destruct l as [|x [|y l]]; simpl in Hlen; [| |lia].
  - by apply Permutation_nil_l in Hperm.
  - by apply Permutation_singleton_l in Hperm.
Qed.

Lemma elem_of_concat_lists (ls : list (list string)) x :
  x ∈ concat ls ↔ ∃ l, l ∈ ls ∧ x ∈ l.
Proof.
  induction ls as [|l ls IH]; simpl.
  - split; [by intros ?%elem_of_nil|by intros (? & ?%elem_of_nil & _)].
  - rewrite elem_of_app, IH. split.
    + intros [?|(l' & ? & ?)]; [exists l; split; [by left|done]|].
      exists l'. split; [by right|done].
    + intros (l' & [->|?]%elem_of_cons & ?); [by left|right; eauto].
Qed.

(** Resolution of a reordered input succeeds when the original does,
    with the same contents. *)
Lemma resolvePlugins_Permutation plugins plugins' r :
  plugins ≡ₚ plugins' → resolvePlugins plugins = Return r →
  ∃ r', resolvePlugins plugins' = Return r' ∧ same_contents r r'.
Proof.
  intros Hperm Hres.
  assert (returns (resolvePlugins plugins)) as Hret by by exists r.
  apply resolvePlugins_returns in Hret as [Hadm Hpw].
  assert (returns (resolvePlugins plugins')) as [r' Hres'].
  { apply resolvePlugins_returns. split; [by rewrite <-Hperm|].
    eapply pairwise_Permutation; [apply no_overlap_sym|done..]. }
  exists r'. split; [done|].
  pose proof (resolved_exclusive _ _ Hres)
    as (HP & HA & HR & HrP & HrA & HrR).
  pose proof (resolved_exclusive _ _ Hres')
    as (_ & _ & _ & HrP' & HrA' & HrR').
  pose proof (λ role, resolved_roles_lookup _ _ role Hres) as Hroles.
  pose proof (λ role, resolved_roles_lookup _ _ role Hres') as Hroles'.
  apply resolvePlugins_Return in Hres as [_ ->].
  apply resolvePlugins_Return in Hres' as [_ ->].
  unfold same_contents. split_and!.
  - rewrite !absorbed_integrations. simpl. by rewrite Hperm.
  - rewrite !absorbed_auth. simpl.
    rewrite (Permutation_short (omap auth plugins) (omap auth plugins'));
      [done|by apply at_most_one_auth|by rewrite Hperm].
  - rewrite HrP, HrP'. apply list_to_map_proper.
    + by rewrite fmap_fst_bind.
    + by rewrite Hperm.
  - intros role. rewrite Hroles, Hroles'.
    destruct (decide (role ∈ (plugins ≫= role_entries).*1 ∧ ¬ inherited role))
      as [Hin|Hnin].
    + rewrite decide_True by by rewrite <-Hperm.
      constructor. apply NoDup_Permutation; [apply NoDup_first_seen..|].
      intros x. rewrite !elem_of_first_seen, !elem_of_concat_lists.
      setoid_rewrite elem_of_role_lists. by setoid_rewrite Hperm.
    + rewrite decide_False by by rewrite <-Hperm. constructor.
  - rewrite HrA, HrA'. apply list_to_map_proper.
    + by rewrite fmap_fst_bind.
    + by rewrite Hperm.
  - rewrite !absorbed_middleware. simpl. by rewrite Hperm.
  - rewrite HrR, HrR'. apply list_to_map_proper.
    + by rewrite fmap_fst_bind.
    + by rewrite Hperm.
  - unfold hooks_equiv.
    destruct (absorbed_hooks initial plugins) as (-> & -> & -> & ->).
    destruct (absorbed_hooks initial plugins') as (-> & -> & -> & ->).
    simpl. by rewrite !Hperm.
Qed.

(** C6 (amended). On an input that resolves, swapping two adjacent
    descriptors again resolves; [permissions], [actions], [routes] and
    [auth] are unchanged, every role keeps the same slugs, and only the
    order inside [integrations], [middleware], the hook lists and the
    slug sequence of a role can differ. *)
Theorem swap_adjacent_descriptors pre a b post r :
  resolvePlugins (pre ++ a :: b :: post) = Return r →
  ∃ r', resolvePlugins (pre ++ b :: a :: post) = Return r' ∧
        same_contents r r'.
Proof.
  apply resolvePlugins_Permutation.
  apply Permutation_app_head, perm_swap.
Qed.

(** ** Claims about roles *)






(** X14. Resolution returns exactly when it returns with every [roles]
    contribution removed and no role name spelling an inherited member
    comes with a slug; an input that resolves without its [roles] throws
    no conflict with them; and in a returned configuration the entry of
    a role is present exactly for the declared role names that spell no
    inherited member, and is then the union, in first-seen order and
    without duplicates, of the slug lists of the descriptors that name
    the role. *)
Theorem roles_union_in_first_seen_order plugins role :
  (returns (resolvePlugins plugins) ↔
   returns (resolvePlugins (without_roles <$> plugins)) ∧
   Forall (λ entry, inherited entry.1 → entry.2 = [])
     (plugins ≫= role_entries)) ∧
  (returns (resolvePlugins (without_roles <$> plugins)) →
   ¬ throws (resolvePlugins plugins)) ∧
  ∀ r, resolvePlugins plugins = Return r →
    resolved_roles r !! role =
      (if decide (role ∈ (plugins ≫= role_entries).*1 ∧ ¬ inherited role)
       then Some (first_seen (concat (role_lists role plugins)))
       else None) ∧
    ∀ slugs, resolved_roles r !! role = Some slugs →
      NoDup slugs ∧
      ∀ x, x ∈ slugs ↔
           ∃ p l, p ∈ plugins ∧ (role, l) ∈ role_entries p ∧ x ∈ l.
Proof.
  split; [apply returns_without_roles|].
  split; [apply roles_raise_no_conflict|].
  intros r Hres. pose proof (resolved_roles_lookup _ _ role Hres) as Hlook.
  split; [done|]. intros slugs Hslugs. rewrite Hlook in Hslugs.
  destruct (decide _) as [_|_]; [|done]. injection Hslugs as <-.
  split; [apply NoDup_first_seen|]. intros x.
  rewrite elem_of_first_seen, elem_of_concat_lists.
  setoid_rewrite elem_of_role_lists. split.
  - intros (l & (p & ? & ?) & ?). eauto.
  - intros (p & l & ? & ? & ?). eauto.
Qed.


End ResolveFacts.

(* ------------------------------------------------------------------ *)
(** * Scenarios *)

(** Decide a closed, decidable statement by evaluation. *)
Ltac by_evaluation :=
  match goal with
  | |- ?P => apply (bool_decide_unpack P); vm_compute; exact I
  end.

(** The scenarios of the specification. *)
Example permission_scenario :
  resolvePlugins [A_p1; B_p1] =
    Throw {| kind := "permission"; key := "p1";
             pluginA := "A"; pluginB := "B" |}.
Proof. reflexivity. Qed.

Example route_scenario :
  ∃ r, resolvePlugins [A_route; B_route] = Return r ∧
       resolved_routes r = {[ "GET /x" := "h1"; "GET /y" := "h2" ]}.
Proof.
  eexists. split; [reflexivity|]. simpl. unfold store_all. simpl.
  apply map_eq. intros k.
  destruct (decide (k = "GET /x")) as [->|?]; [done|].
  destruct (decide (k = "GET /y")) as [->|?]; [done|].
  rewrite !lookup_insert_ne by congruence.
  by rewrite lookup_singleton_ne by congruence.
Qed.

Example hook_scenario :
  ∃ r, resolvePlugins
         [with_onInit "f1" (bare "A"); with_onInit "f2" (bare "B"); bare "C"]
       = Return r ∧
       hooks_onInit (resolved_hooks r) = ["f1"; "f2"].
Proof. eexists. split; reflexivity. Qed.

Example empty_scenario :
  resolvePlugins (@nil (@Plugin labels)) =
    Return {| resolved_integrations := []; resolved_auth := None;
              resolved_permissions := ∅; resolved_roles := ∅;
              resolved_actions := ∅; resolved_middleware := [];
              resolved_routes := ∅;
              resolved_hooks :=
                {| hooks_onInit := []; hooks_onRequest := [];
                   hooks_onError := []; hooks_onShutdown := [] |} |}.
Proof. reflexivity. Qed.

(** C1 (the code at a failing input). A single descriptor whose one
    permission slug is [toString] overlaps with nothing, yet the test of
    line 102 reads the inherited member and [resolvePlugins] throws a
    permission conflict between "engine config" and the descriptor. *)
Example lone_inherited_slug_conflict :
  Forall well_formed [A_toString] ∧ pairwise no_overlap [A_toString] ∧
  resolvePlugins [A_toString] =
    Throw {| kind := "permission"; key := "toString";
             pluginA := "engine config"; pluginB := "A" |}.
Proof. split_and!; [by_evaluation|by_evaluation|reflexivity]. Qed.

Lemma resolvePlugins_concatenates_witness :
  ∃ r, resolvePlugins [A_lists; B_lists] = Return r ∧
       resolved_integrations r = ["i1"; "i2"; "i3"] ∧
       resolved_middleware r = ["m1"; "m2"; "m3"].
Proof.
  apply (resolvePlugins_concatenates [A_lists; B_lists]); by_evaluation.
Defined.

(** C2 as stated fails: two descriptors supply [auth], yet the
    conflict that is thrown is the permission one hit on the way. *)
Lemma auth_conflict_preempted :
  is_Some (auth A_auth_p1) ∧ is_Some (auth C_auth) ∧
  resolvePlugins [A_auth_p1; B_p1; C_auth] =
    Throw {| kind := "permission"; key := "p1";
             pluginA := "A"; pluginB := "B" |}.
Proof. split_and!; [by eexists|by eexists|reflexivity]. Qed.

Lemma second_auth_conflict_witness :
  ¬ returns (resolvePlugins [A_auth_p1; B_route; C_auth; B_p1]) ∧
  throws (resolvePlugins [A_auth_p1; B_route; C_auth; B_p1]) ∧
  resolvePlugins [A_auth_p1; B_route; C_auth; B_p1] =
    Throw {| kind := "auth"; key := "auth"; pluginA := "A"; pluginB := "C" |}.
Proof.
  destruct (second_auth_conflict [] A_auth_p1 [B_route] C_auth [B_p1])
    as (Hno & Hthrows & Hauth).
  - constructor.
  - by eexists.
  - by repeat constructor.
  - by eexists.
  - split_and!; [exact Hno|apply Hthrows; by_evaluation|].
    apply Hauth. by eexists.
Defined.

(** C4 as stated fails: the fallback text is not "host configuration". *)
Lemma findOwner_fallback_text :
  findOwner [B_p1] Permissions "p1" "B" = "engine config" ∧
  findOwner [B_p1] Permissions "p1" "B" ≠ "host configuration".
Proof. split; [reflexivity|discriminate]. Qed.

Lemma findOwner_scans_prefix_witness :
  ¬ inherited "p1" ∧
  ∃ scanned rest,
    [A_p1; B_p1] = scanned ++ rest ∧
    Forall (λ p, name p ≠ "B") scanned ∧
    (rest = [] ∨ ∃ p rest', rest = p :: rest' ∧ name p = "B") ∧
    ((∃ before owner after,
        scanned = before ++ owner :: after ∧
        Forall (λ q, ¬ owns Permissions "p1" q) before ∧
        owns Permissions "p1" owner ∧
        findOwner [A_p1; B_p1] Permissions "p1" "B" = name owner) ∨
     (Forall (λ q, ¬ owns Permissions "p1" q) scanned ∧
      findOwner [A_p1; B_p1] Permissions "p1" "B" = "engine config")).
Proof.
  assert (¬ inherited "p1") as Hkey by by_evaluation.
  split; [exact Hkey|].
  exact (findOwner_scans_prefix [A_p1; B_p1] Permissions "p1" "B" Hkey).
Defined.

(** C5 as stated fails. With two descriptors of one name the first
    owner in the conflict is not the name of the first registrant, nor
    of any descriptor. And the thrown object carries no field for the
    four values: two calls that throw conflicts with different owners
    throw objects with the same name and the same message. *)
Lemma first_owner_not_registrant :
  (∃ e, resolvePlugins [A_p1; A_again_p1] = Throw e ∧
        claims e A_p1 ∧ name A_p1 = "A" ∧
        pluginA e = "engine config" ∧
        Forall (λ p, name p ≠ pluginA e) [A_p1; A_again_p1]) ∧
  (∃ e e', resolvePlugins [YZ_k; W_k] = Throw e ∧
           resolvePlugins [Y_k; ZW_k] = Throw e' ∧
           pluginA e ≠ pluginA e' ∧ pluginB e ≠ pluginB e' ∧
           thrown_object e = thrown_object e').
Proof.
  split.
  - eexists. split; [reflexivity|]. split_and!; try done.
    + right. exists Permissions. split; [done|]. simpl. by left.
    + by repeat constructor.
  - eexists _, _. split_and!; [reflexivity|reflexivity|..].
    + discriminate.
    + discriminate.
    + reflexivity.
Qed.

Lemma conflict_signal_witness :
  let e := {| kind := "permission"; key := "p1";
              pluginA := "A"; pluginB := "B" |} in
  resolvePlugins [A_p1; B_p1] = Throw e ∧
  kind e ∈ ["auth"; "permission"; "action"; "route"] ∧
  thrown_object e =
    {| object_name := "PluginConflictError"; object_message := message e |} ∧
  ∃ pre second post,
    [A_p1; B_p1] = pre ++ second :: post ∧ returns (resolvePlugins pre) ∧
    pluginB e = name second ∧ claims e second ∧
    (Forall well_formed [A_p1; B_p1] → NoDup (name <$> [A_p1; B_p1]) →
     ¬ inherited (key e) →
     ∃ before first after,
       pre = before ++ first :: after ∧
       Forall (λ q, ¬ claims e q) before ∧ claims e first ∧
       pluginA e = name first).
Proof.
  intros e. split; [reflexivity|].
  destruct (conflict_signal [A_p1; B_p1] e eq_refl) as (Hkind & _ & Hrest).
  split; [exact Hkind|exact Hrest].
Defined.

(** C6 as stated fails: swapping two descriptors that name the same
    role changes the order inside the resolved role sequence. *)
Lemma swap_reorders_role_slugs :
  ∃ r r', resolvePlugins [A_editor_x; B_editor_y] = Return r ∧
          resolvePlugins [B_editor_y; A_editor_x] = Return r' ∧
          resolved_roles r !! "editor" = Some ["x"; "y"] ∧
          resolved_roles r' !! "editor" = Some ["y"; "x"] ∧
          resolved_roles r ≠ resolved_roles r'.
Proof.
  eexists _, _. split_and!; [reflexivity|reflexivity|reflexivity|reflexivity|].
  intros Heq. apply (f_equal (λ m, m !! "editor")) in Heq.
  vm_compute in Heq. discriminate.
Qed.

Lemma swap_adjacent_descriptors_witness :
  ∃ r r', resolvePlugins [A_lists; B_lists; A_editor_x] = Return r ∧
          resolvePlugins [B_lists; A_lists; A_editor_x] = Return r' ∧
          same_contents r r'.
Proof.
  eexists.
  destruct (swap_adjacent_descriptors [] A_lists B_lists [A_editor_x] _ eq_refl)
    as (r' & Hres' & Hsame).
  exists r'. split_and!; [reflexivity|exact Hres'|exact Hsame].
Defined.

(** C8 (the code at failing inputs). On a descriptor with a slug under
    the role name [constructor] the call neither returns a configuration
    nor throws a conflict: line 121 calls [includes] on the inherited
    member and fails with a [TypeError]. And on a single descriptor with
    the permission slug [toString] it throws a conflict though nothing
    was contributed twice. *)
Example neither_result_nor_conflict :
  (resolvePlugins [A_constructor_role] = TypeError ∧
   ¬ returns (resolvePlugins [A_constructor_role]) ∧
   ¬ throws (resolvePlugins [A_constructor_role])) ∧
  (throws (resolvePlugins [A_toString]) ∧
   pairwise no_overlap ([] ++ [A_toString])).
Proof.
  split_and!.
  - reflexivity.
  - by intros [? ?].
  - by intros [? ?].
  - by eexists.
  - by_evaluation.
Qed.

Lemma resolvePlugins_fail_fast_witness :
  ∃ e pre p post,
    [A_route; A_p1; B_p1; C_auth] = pre ++ p :: post ∧
    resolvePlugins [A_route; A_p1; B_p1; C_auth] = Throw e ∧
    returns (resolvePlugins pre) ∧ pairwise no_overlap pre ∧
    (¬ pairwise no_overlap (pre ++ [p]) ∨ inherited (key e)) ∧
    pluginB e = name p ∧
    ∀ post', resolvePlugins (pre ++ p :: post') = Throw e.
Proof.
  destruct (resolvePlugins_fail_fast [A_route; A_p1; B_p1; C_auth])
    as [_ [(r & Hr & _)|[Hthrow|(? & ? & ? & ? & ? & _ & Hte & _)]]].
  - by_evaluation.
  - discriminate Hr.
  - exact Hthrow.
  - discriminate Hte.
Defined.

Lemma authSource_defined_witness :
  ∃ s, resolve_loop [A_auth_p1; C_auth] [A_auth_p1] initial = Return s ∧
       auth_tracked [A_auth_p1] s ∧
       (is_Some (resolved_auth (resolved s)) ↔ is_Some (authSource s)) ∧
       ∀ e, merge_plugin [A_auth_p1; C_auth] s C_auth = Throw e →
            kind e = "auth" →
            ∃ owner, owner ∈ [A_auth_p1] ∧ is_Some (auth owner) ∧
                     authSource s = Some (name owner) ∧
                     pluginA e = name owner.
Proof.
  eexists. split; [reflexivity|].
  exact (authSource_defined [A_auth_p1; C_auth] [A_auth_p1] C_auth [] _
           eq_refl eq_refl).
Defined.

(** C3 (the code at failing inputs). A descriptor that lists a slug
    under the role name [constructor] makes the call fail with a
    [TypeError], though it resolves once its [roles] are removed; and
    with an empty list under that name the call returns a configuration
    whose [roles] have no entry of their own for the role. *)
Example inherited_role_name_fails :
  resolvePlugins [A_constructor_role] = TypeError ∧
  returns (resolvePlugins [without_roles A_constructor_role]) ∧
  ∃ r, resolvePlugins [A_constructor_empty] = Return r ∧
       resolved_roles r !! "constructor" = None.
Proof.
  split_and!; [reflexivity|by eexists|].
  eexists. split; reflexivity.
Qed.

(** The tracer and the loop on further keys that spell inherited
    members: the tracer names a descriptor that never declared the key,
    and a descriptor that supplies [auth] fails before a second
    supplier is reached. *)
Example inherited_member_scenarios :
  findOwner [A_q; B_valueOf] Permissions "valueOf" "B" = "A" ∧
  resolvePlugins [A_q; B_valueOf] =
    Throw {| kind := "permission"; key := "valueOf";
             pluginA := "A"; pluginB := "B" |} ∧
  resolvePlugins [with_auth "authA" A_constructor_role;
                  with_auth "authB" (bare "B")] = TypeError ∧
  resolvePlugins [with_auth "authA" A_toString;
                  with_auth "authB" (bare "B")] =
    Throw {| kind := "permission"; key := "toString";
             pluginA := "engine config"; pluginB := "A" |}.
Proof. split_and!; reflexivity. Qed.

Lemma roles_union_in_first_seen_order_witness :
  ∃ r, resolvePlugins [A_editor; B_editor] = Return r ∧
       resolved_roles r !! "editor" = Some ["x"; "y"; "z"].
Proof.
  eexists. split; [reflexivity|].
  destruct (roles_union_in_first_seen_order [A_editor; B_editor] "editor")
    as (_ & _ & Hroles).
  destruct (Hroles _ eq_refl) as [Hlook _]. exact Hlook.
Defined.


(* ------------------------------------------------------------------ *)
(** * What a call returns and which conflict it reports *)

Section Contents.
Context `{Capabilities}.
Implicit Types (p q plugin : Plugin) (plugins todo pre post : list Plugin).
Implicit Types (s : State) (e : PluginConflictError).

Lemma elem_of_bind_entries {V} (f : Plugin → JsRecord V) plugins kv :
  kv ∈ plugins ≫= f ↔ ∃ p, p ∈ plugins ∧ kv ∈ f p.
Proof.
  rewrite list_elem_of_bind. split; intros (p & ? & ?); by exists p.
Qed.

Lemma list_to_map_exact {V} (f : Plugin → JsRecord V) plugins :
  NoDup (plugins ≫= λ p, (f p).*1) →
  (∀ k v, (list_to_map (plugins ≫= f) : gmap string V) !! k = Some v ↔
          ∃ p, p ∈ plugins ∧ (k, v) ∈ f p) ∧
  size (list_to_map (plugins ≫= f) : gmap string V) =
    length (plugins ≫= λ p, (f p).*1).
Proof.
  rewrite <-fmap_fst_bind. intros Hnd. split.
  - intros k v. rewrite <-elem_of_list_to_map by done.
    apply elem_of_bind_entries.
  - by rewrite map_size_list_to_map, length_fmap.
Qed.

(** X1. When [resolvePlugins] returns, the resolved [permissions],
    [actions] and [routes] hold the declared entries and nothing
    else: a key maps to a value exactly when some descriptor declares
    that entry, and each mapping has as many keys as the descriptors
    declare entries, so no store overwrote another. *)
Theorem resolved_entries_exact plugins r :
  resolvePlugins plugins = Return r →
  ((∀ k v, resolved_permissions r !! k = Some v ↔
           ∃ p, p ∈ plugins ∧ (k, v) ∈ default [] (permissions p)) ∧
   size (resolved_permissions r) = length (plugins ≫= permission_slugs)) ∧
  ((∀ k v, resolved_actions r !! k = Some v ↔
           ∃ p, p ∈ plugins ∧ (k, v) ∈ default [] (actions p)) ∧
   size (resolved_actions r) = length (plugins ≫= action_names)) ∧
  ((∀ k v, resolved_routes r !! k = Some v ↔
           ∃ p, p ∈ plugins ∧ (k, v) ∈ default [] (routes p)) ∧
   size (resolved_routes r) = length (plugins ≫= route_keys)).
Proof.
  intros (Hp & Ha & Hr & -> & -> & ->)%resolved_exclusive.
  split_and!; by apply list_to_map_exact.
Qed.

Lemma resolved_auth_head plugins r :
  resolvePlugins plugins = Return r →
  (length (omap auth plugins) ≤ 1)%nat ∧
  resolved_auth r = head (omap auth plugins).
Proof.
  intros Hres.
  assert (returns (resolvePlugins plugins)) as [_ Hpw]%resolvePlugins_returns
    by by exists r.
  apply resolvePlugins_Return in Hres as [_ ->].
  pose proof (at_most_one_auth _ Hpw) as Hlen.
  rewrite absorbed_auth. simpl.
  by destruct (omap auth plugins) as [|a [|b l]]; simpl in *; [| |lia].
Qed.

Lemma resolved_auth_iff plugins r :
  resolvePlugins plugins = Return r →
  ∀ a, resolved_auth r = Some a ↔ ∃ p, p ∈ plugins ∧ auth p = Some a.
Proof.
  intros [Hlen ->]%resolved_auth_head a.
  rewrite <-(list_elem_of_omap auth plugins a).
  destruct (omap auth plugins) as [|b [|c l]]; simpl in *; [| |lia].
  - split; [done|by intros ?%elem_of_nil].
  - rewrite list_elem_of_singleton. split; [by intros [= ->]|by intros ->].
Qed.

Lemma resolved_hooks_omap plugins r :
  resolvePlugins plugins = Return r →
  hooks_onInit (resolved_hooks r) = omap onInit plugins ∧
  hooks_onRequest (resolved_hooks r) = omap onRequest plugins ∧
  hooks_onError (resolved_hooks r) = omap onError plugins ∧
  hooks_onShutdown (resolved_hooks r) = omap onShutdown plugins.
Proof.
  intros [_ ->]%resolvePlugins_Return. apply (absorbed_hooks initial).
Qed.

(** X2. When [resolvePlugins] returns, at most one descriptor
    supplies [auth], and the resolved [auth] is that descriptor's
    provider, or is unset when none supplies one. *)
Theorem resolved_auth_supplier plugins r :
  resolvePlugins plugins = Return r →
  (length (omap auth plugins) ≤ 1)%nat ∧
  resolved_auth r = head (omap auth plugins) ∧
  ∀ a, resolved_auth r = Some a ↔ ∃ p, p ∈ plugins ∧ auth p = Some a.
Proof.
  intros Hres. destruct (resolved_auth_head _ _ Hres) as [Hlen Hhead].
  split_and!; [done..|]. by apply resolved_auth_iff.
Qed.

(** X3. Whenever [resolvePlugins] returns, each of the four hook
    lists holds the hooks of the descriptors that define one, in
    descriptor order, and [integrations] and [middleware] are the
    descriptors' sequences in descriptor order. *)
Theorem hooks_in_descriptor_order plugins r :
  resolvePlugins plugins = Return r →
  hooks_onInit (resolved_hooks r) = omap onInit plugins ∧
  hooks_onRequest (resolved_hooks r) = omap onRequest plugins ∧
  hooks_onError (resolved_hooks r) = omap onError plugins ∧
  hooks_onShutdown (resolved_hooks r) = omap onShutdown plugins ∧
  resolved_integrations r = plugins ≫= integrations_of ∧
  resolved_middleware r = plugins ≫= middleware_of.
Proof.
  intros Hres. pose proof (resolved_hooks_omap _ _ Hres) as (? & ? & ? & ?).
  apply resolvePlugins_Return in Hres as [_ ->].
  rewrite absorbed_integrations, absorbed_middleware. by split_and!.
Qed.

(** ** Which descriptor lists resolve *)

Lemma pairwise_sublist {A} (R : A → A → Prop) (l l' : list A) :
  l' `sublist_of` l → pairwise R l → pairwise R l'.
Proof.
  induction 1 as [|x l1 l2 Hsub IH|x l1 l2 Hsub IH]; simpl.
  - done.
  - intros [Hx Hl]. split; [|by apply IH].
    apply Forall_forall. intros y Hy. rewrite Forall_forall in Hx.
    apply Hx. by eapply elem_of_submseteq, sublist_submseteq.
  - intros [_ Hl]. by apply IH.
Qed.

Lemma omap_submseteq {A B} (f : A → option B) (l l' : list A) :
  l' ⊆+ l → omap f l' ⊆+ omap f l.
Proof.
  induction 1 as [|x l1 l2 _ IH|x y l1|x l1 l2 _ IH|l1 l2 l3 _ IH1 _ IH2];
    simpl.
  - done.
  - destruct (f x); [by constructor|done].
  - destruct (f x), (f y); try done; by constructor.
  - destruct (f x); [by constructor|done].
  - by etrans.
Qed.

Lemma list_to_map_contained {V} (f : Plugin → JsRecord V) plugins plugins' :
  plugins' ⊆+ plugins →
  NoDup (plugins' ≫= λ p, (f p).*1) → NoDup (plugins ≫= λ p, (f p).*1) →
  (list_to_map (plugins' ≫= f) : gmap string V) ⊆ list_to_map (plugins ≫= f).
Proof.
  intros Hsub Hnd' Hnd. apply map_subseteq_spec. intros k v.
  rewrite (proj1 (list_to_map_exact f plugins' Hnd')).
  rewrite (proj1 (list_to_map_exact f plugins Hnd)).
  intros (p & Hp & Hkv). exists p. split; [|done].
  by eapply elem_of_submseteq.
Qed.

(** X4. Taking descriptors out of a list that resolves, or
    reordering it, gives a list that resolves, and what it resolves to
    is contained in the former result: no entry, provider, hook or
    role slug appears that was not there. *)
Theorem resolvable_subfamily plugins plugins' r :
  plugins' ⊆+ plugins → resolvePlugins plugins = Return r →
  ∃ r', resolvePlugins plugins' = Return r' ∧ contained r' r.
Proof.
  intros Hsub Hr.
  assert (returns (resolvePlugins plugins)) as [Hadm Hpw]%resolvePlugins_returns
    by by exists r.
  assert (returns (resolvePlugins plugins')) as [r' Hr'].
  { apply resolvePlugins_returns. split.
    - apply Forall_forall. intros p Hp. rewrite Forall_forall in Hadm.
      by eapply Hadm, elem_of_submseteq.
    - pose proof Hsub as (l & Hsl & Hperm)%submseteq_sublist_l.
      eapply pairwise_sublist; [exact Hsl|].
      eapply pairwise_Permutation;
        [apply @no_overlap_sym|symmetry; exact Hperm|done]. }
  exists r'. split; [done|].
  pose proof (resolved_exclusive _ _ Hr) as (Hnp & Hna & Hnr & Hp & Ha & Ht).
  pose proof (resolved_exclusive _ _ Hr')
    as (Hnp' & Hna' & Hnr' & Hp' & Ha' & Ht').
  pose proof (resolved_hooks_omap _ _ Hr) as (Hh1 & Hh2 & Hh3 & Hh4).
  pose proof (resolved_hooks_omap _ _ Hr') as (Hk1 & Hk2 & Hk3 & Hk4).
  unfold contained.
  rewrite Hp, Hp', Ha, Ha', Ht, Ht', Hh1, Hh2, Hh3, Hh4, Hk1, Hk2, Hk3, Hk4.
  split_and!; try (by apply omap_submseteq);
    try (by apply list_to_map_contained).
  - pose proof Hr as [_ ->]%resolvePlugins_Return.
    pose proof Hr' as [_ ->]%resolvePlugins_Return.
    rewrite !absorbed_integrations. simpl. by apply bind_submseteq.
  - intros a. rewrite (resolved_auth_iff _ _ Hr' a).
    rewrite (resolved_auth_iff _ _ Hr a).
    intros (p & Hp0 & Hau). exists p. split; [|done].
    by eapply elem_of_submseteq.
  - intros role slugs'.
    rewrite (resolved_roles_lookup _ _ role Hr').
    rewrite (resolved_roles_lookup _ _ role Hr).
    destruct (decide (role ∈ (plugins' ≫= role_entries).*1 ∧ ¬ inherited role))
      as [[Hin Hno]|]; [|done].
    intros [= <-]. rewrite decide_True.
    2:{ split; [|done]. eapply elem_of_submseteq; [exact Hin|].
        by apply fmap_submseteq, bind_submseteq. }
    eexists. split; [done|]. intros x.
    rewrite !elem_of_first_seen, !elem_of_concat_lists.
    intros (l & Hl & Hx). exists l. split; [|done].
    apply elem_of_role_lists in Hl as (p & Hp0 & Hl).
    apply elem_of_role_lists. exists p. split; [|done].
    by eapply elem_of_submseteq.
  - pose proof Hr as [_ ->]%resolvePlugins_Return.
    pose proof Hr' as [_ ->]%resolvePlugins_Return.
    rewrite !absorbed_middleware. simpl. by apply bind_submseteq.
Qed.

(** ** Names *)

Lemma same_but_owners_bind {A B} (m m' : Result A) (f f' : A → Result B)
    (R : A → A → Prop) (R' : B → B → Prop) :
  same_but_owners m m' R →
  (∀ a a', R a a' → same_but_owners (f a) (f' a') R') →
  same_but_owners (m ≫= f) (m' ≫= f') R'.
Proof.
  destruct m as [a|e|]; simpl.
  - intros (a' & -> & Ha) Hf. by apply Hf.
  - intros (e' & -> & ?) _. by exists e'.
  - by intros -> _.
Qed.

Lemma merge_exclusive_rename {V} all all' knd field pn pn' (es : JsRecord V) acc :
  same_but_owners (merge_exclusive all knd field pn es acc)
    (merge_exclusive all' knd field pn' es acc) eq.
Proof.
  revert acc. induction es as [|[k v] es IH]; intros acc.
  - by eexists.
  - rewrite !merge_exclusive_cons.
    destruct (decide (reads_truthy acc k)); [by eexists|apply IH].
Qed.

Lemma same_but_owners_refl {A} (m : Result A) : same_but_owners m m eq.
Proof. destruct m; simpl; eauto. Qed.

Lemma merge_auth_rename cur src src' n p :
  same_but_owners (merge_auth cur src p) (merge_auth cur src' (rename n p))
    (λ ar ar', ar.1 = ar'.1).
Proof.
  rewrite !merge_auth_unfold. simpl.
  destruct (auth p); [destruct cur|]; by eexists.
Qed.

Lemma merge_plugin_rename all all' s s' n p :
  resolved s = resolved s' →
  same_but_owners (merge_plugin all s p) (merge_plugin all' s' (rename n p))
    (λ t t', resolved t = resolved t').
Proof.
  intros Hs. rewrite !merge_plugin_unfold. simpl. rewrite <-Hs.
  eapply same_but_owners_bind; [apply merge_auth_rename|].
  intros ar ar' Har.
  eapply same_but_owners_bind; [apply merge_exclusive_rename|].
  intros pm ? <-.
  eapply same_but_owners_bind; [apply same_but_owners_refl|].
  intros ro ? <-.
  eapply same_but_owners_bind; [apply merge_exclusive_rename|].
  intros am ? <-.
  eapply same_but_owners_bind; [apply merge_exclusive_rename|].
  intros rm ? <-. eexists. split; [done|]. simpl. by rewrite Har.
Qed.

Lemma resolve_loop_rename all all' todo todo' :
  Forall2 (λ p q, ∃ n, q = rename n p) todo todo' →
  ∀ s s', resolved s = resolved s' →
    same_but_owners (resolve_loop all todo s) (resolve_loop all' todo' s')
      (λ t t', resolved t = resolved t').
Proof.
  induction 1 as [|p q todo todo' [n ->] _ IH]; intros s s' Hs.
  - by exists s'.
  - cbn [resolve_loop].
    eapply same_but_owners_bind; [by apply merge_plugin_rename|done].
Qed.

(** X5. The names of the descriptors have no part in the outcome
    beyond the two owners a conflict names: descriptors that differ
    from the given ones in their [name] alone resolve to the same
    configuration, or fail with a conflict of the same kind about the
    same key, or fail with the [TypeError] as the given ones do. *)
Theorem result_ignores_names plugins plugins' :
  Forall2 (λ p q, ∃ n, q = rename n p) plugins plugins' →
  match resolvePlugins plugins with
  | Return r => resolvePlugins plugins' = Return r
  | Throw e =>
      ∃ e', resolvePlugins plugins' = Throw e' ∧
            kind e' = kind e ∧ key e' = key e
  | TypeError => resolvePlugins plugins' = TypeError
  end.
Proof.
  intros Hren. unfold resolvePlugins.
  pose proof (resolve_loop_rename plugins plugins' _ _ Hren initial initial
                eq_refl) as Hloop.
  destruct (resolve_loop plugins plugins initial) as [t|e|].
  - destruct Hloop as (t' & -> & Ht). simpl. by rewrite Ht.
  - destruct Hloop as (e' & -> & ?). by exists e'.
  - simpl in Hloop. by rewrite Hloop.
Qed.

(** ** Resolving a concatenation *)

Lemma filter_ne_notin (x : string) (l : list string) :
  x ∉ l → filter (λ y, y ≠ x) l = l.
Proof.
  induction l as [|y l IH]; [done|]. intros [Hne Hx]%not_elem_of_cons.
  rewrite filter_cons_True by congruence. f_equal. by apply IH.
Qed.

Lemma first_seen_NoDup (l : list string) : NoDup l → first_seen l = l.
Proof.
  induction 1 as [|x l Hx _ IH]; simpl; [done|].
  by rewrite IH, filter_ne_notin.
Qed.

Lemma first_seen_app_first_seen (c l : list string) :
  first_seen (c ++ first_seen l) = first_seen (c ++ l).
Proof.
  induction c as [|x c IH]; simpl.
  - apply first_seen_NoDup, NoDup_first_seen.
  - by rewrite IH.
Qed.

Lemma foldl_push_new_nil (l : list string) : foldl push_new [] l = first_seen l.
Proof. apply (foldl_push_new_first_seen []). Qed.

Lemma roles_union_absorbed (es1 es2 : JsRecord (list string)) :
  foldl absorb_role ∅ (es1 ++ es2) =
  roles_union (foldl absorb_role ∅ es1) (foldl absorb_role ∅ es2).
Proof.
  apply map_eq. intros role. unfold roles_union.
  rewrite lookup_union_with.
  destruct (decide (inherited role)) as [Hinh|Hno].
  { by rewrite !foldl_absorb_role_inherited by done. }
  rewrite !foldl_absorb_role_lookup, !lookup_empty by done.
  rewrite fmap_app, filter_app, fmap_app, concat_app. simpl.
  rewrite !foldl_push_new_nil.
  destruct (decide (role ∈ es1.*1)) as [H1|H1],
    (decide (role ∈ es2.*1)) as [H2|H2]; simpl.
  - rewrite decide_True by (apply elem_of_app; by left). f_equal.
    by rewrite foldl_push_new_first_seen, first_seen_app_first_seen.
  - rewrite decide_True by (apply elem_of_app; by left).
    by rewrite (filter_key_notin es2), app_nil_r.
  - rewrite decide_True by (apply elem_of_app; by right).
    by rewrite (filter_key_notin es1).
  - rewrite decide_False; [done|]. by intros [?|?]%elem_of_app.
Qed.

(** X6. A concatenation of two descriptor lists resolves exactly
    when both lists resolve and no descriptor of one overlaps a
    descriptor of the other; its result is then the two results put
    together: lists appended, mappings united, role slugs merged. *)
Theorem resolvePlugins_app xs ys :
  (returns (resolvePlugins (xs ++ ys)) ↔
   returns (resolvePlugins xs) ∧ returns (resolvePlugins ys) ∧ apart xs ys) ∧
  ∀ rx ry,
    resolvePlugins xs = Return rx → resolvePlugins ys = Return ry →
    apart xs ys →
    resolvePlugins (xs ++ ys) =
    Return
      {| resolved_integrations :=
           resolved_integrations rx ++ resolved_integrations ry;
         resolved_auth := from_option Some (resolved_auth ry) (resolved_auth rx);
         resolved_permissions :=
           resolved_permissions rx ∪ resolved_permissions ry;
         resolved_roles := roles_union (resolved_roles rx) (resolved_roles ry);
         resolved_actions := resolved_actions rx ∪ resolved_actions ry;
         resolved_middleware :=
           resolved_middleware rx ++ resolved_middleware ry;
         resolved_routes := resolved_routes rx ∪ resolved_routes ry;
         resolved_hooks :=
           hooks_app (resolved_hooks rx) (resolved_hooks ry) |}.
Proof.
  assert (returns (resolvePlugins (xs ++ ys)) ↔
          returns (resolvePlugins xs) ∧ returns (resolvePlugins ys) ∧
          apart xs ys) as Hiff.
  { rewrite !resolvePlugins_returns, Forall_app, pairwise_app.
    unfold apart. tauto. }
  split; [done|]. intros rx ry Hx Hy Hap.
  destruct (proj2 Hiff) as [r Hr].
  { split_and!; [by exists rx|by exists ry|done]. }
  rewrite Hr. f_equal.
  pose proof Hr as (_ & _ & _ & Hp & Ha & Ht)%resolved_exclusive.
  pose proof Hx as (_ & _ & _ & Hpx & Hax & Htx)%resolved_exclusive.
  pose proof Hy as (_ & _ & _ & Hpy & Hay & Hty)%resolved_exclusive.
  assert (returns (resolvePlugins (xs ++ ys))) as [_ Hpw]%resolvePlugins_returns
    by by exists r.
  pose proof (at_most_one_auth _ Hpw) as Hone.
  apply resolvePlugins_Return in Hr as [_ Hr].
  apply resolvePlugins_Return in Hx as [_ Hx].
  apply resolvePlugins_Return in Hy as [_ Hy].
  assert (resolved_integrations r =
          resolved_integrations rx ++ resolved_integrations ry) as Hi.
  { by rewrite Hr, Hx, Hy, !absorbed_integrations, bind_app. }
  assert (resolved_middleware r =
          resolved_middleware rx ++ resolved_middleware ry) as Hm.
  { by rewrite Hr, Hx, Hy, !absorbed_middleware, bind_app. }
  assert (resolved_auth r =
          from_option Some (resolved_auth ry) (resolved_auth rx)) as Hau.
  { rewrite Hr, Hx, Hy, !absorbed_auth. simpl.
    rewrite omap_app, last_app. rewrite omap_app, length_app in Hone.
    destruct (omap auth xs) as [|a l] using rev_ind;
      destruct (omap auth ys) as [|b k] using rev_ind;
      rewrite ?last_snoc; simpl; try done.
    rewrite !length_app in Hone. simpl in Hone. lia. }
  assert (resolved_roles r = roles_union (resolved_roles rx) (resolved_roles ry))
    as Hro.
  { rewrite Hr, Hx, Hy, !absorbed_roles, bind_app. simpl.
    apply roles_union_absorbed. }
  assert (resolved_hooks r = hooks_app (resolved_hooks rx) (resolved_hooks ry))
    as Hh.
  { destruct (absorbed_hooks initial (xs ++ ys)) as (Hh1 & Hh2 & Hh3 & Hh4).
    destruct (absorbed_hooks initial xs) as (Hx1 & Hx2 & Hx3 & Hx4).
    destruct (absorbed_hooks initial ys) as (Hy1 & Hy2 & Hy3 & Hy4).
    rewrite <-Hr in Hh1, Hh2, Hh3, Hh4. rewrite <-Hx in Hx1, Hx2, Hx3, Hx4.
    rewrite <-Hy in Hy1, Hy2, Hy3, Hy4. simpl in *.
    unfold hooks_app. rewrite Hx1, Hx2, Hx3, Hx4, Hy1, Hy2, Hy3, Hy4.
    rewrite <-!omap_app, <-Hh1, <-Hh2, <-Hh3, <-Hh4.
    by destruct (resolved_hooks r). }
  rewrite bind_app, list_to_map_app, <-Hpx, <-Hpy in Hp.
  rewrite bind_app, list_to_map_app, <-Hax, <-Hay in Ha.
  rewrite bind_app, list_to_map_app, <-Htx, <-Hty in Ht.
  rewrite <-Hi, <-Hm, <-Hau, <-Hro, <-Hh, <-Hp, <-Ha, <-Ht.
  by destruct r.
Qed.

(** ** Which conflict is reported *)

Lemma filter_iff_elem {A} (P1 P2 : A → Prop)
    `{!∀ x, Decision (P1 x), !∀ x, Decision (P2 x)} (l : list A) :
  (∀ x, x ∈ l → P1 x ↔ P2 x) → filter P1 l = filter P2 l.
Proof.
  induction l as [|x l IH]; intros Hiff; [done|].
  rewrite !filter_cons.
  rewrite IH by (intros y Hy; apply Hiff; by right).
  pose proof (Hiff x (list_elem_of_here x l)) as Hx.
  destruct (decide (P1 x)) as [Hp1|Hp1], (decide (P2 x)) as [Hp2|Hp2];
    tauto || done.
Qed.

Lemma merge_exclusive_first {V} plugins knd field pn (es : JsRecord V) acc :
  NoDup es.*1 →
  match filter (reads_truthy acc) es.*1 with
  | [] => returns (merge_exclusive plugins knd field pn es acc)
  | k :: _ =>
      ∃ e, merge_exclusive plugins knd field pn es acc = Throw e ∧
           kind e = knd ∧ key e = k ∧ pluginB e = pn
  end.
Proof.
  revert acc. induction es as [|[k v] es IH]; intros acc Hnd.
  - by eexists.
  - rewrite fmap_cons in Hnd. apply NoDup_cons in Hnd as [Hk Hnd].
    rewrite merge_exclusive_cons, fmap_cons. simpl.
    destruct (decide (reads_truthy acc k)) as [Hacc|Hacc].
    + rewrite filter_cons_True by done. by eexists.
    + rewrite filter_cons_False by done.
      specialize (IH (<[k:=v]> acc) Hnd).
      erewrite filter_iff_elem; [exact IH|].
      intros k' Hk'. unfold reads_truthy. rewrite lookup_insert_ne; [done|].
      by intros ->.
Qed.

Lemma elem_of_bind_slugs field pre k :
  k ∈ pre ≫= field_slugs field ↔ Exists (owns field k) pre.
Proof.
  rewrite list_elem_of_bind, Exists_exists.
  split; intros (p & ? & ?); exists p; by rewrite ?owns_field_slugs in *.
Qed.

Lemma taken_keys_permissions pre p :
  taken_keys Permissions pre p =
  filter (reads_truthy (resolved_permissions
                          (resolved (foldl absorb initial pre))))
    (default [] (permissions p)).*1.
Proof.
  unfold taken_keys. rewrite field_slugs_permissions.
  apply list_filter_iff. intros k. unfold reads_truthy.
  rewrite elem_of_bind_slugs.
  pose proof (holds_absorbed Permissions initial pre k) as Hh.
  pose proof (holds_initial Permissions k). simpl in *. tauto.
Qed.

Lemma taken_keys_actions pre p :
  taken_keys Actions pre p =
  filter (reads_truthy (resolved_actions
                          (resolved (foldl absorb initial pre))))
    (default [] (actions p)).*1.
Proof.
  unfold taken_keys. rewrite field_slugs_actions.
  apply list_filter_iff. intros k. unfold reads_truthy.
  rewrite elem_of_bind_slugs.
  pose proof (holds_absorbed Actions initial pre k) as Hh.
  pose proof (holds_initial Actions k). simpl in *. tauto.
Qed.

Lemma taken_keys_routes pre p :
  taken_keys Routes pre p =
  filter (reads_truthy (resolved_routes
                          (resolved (foldl absorb initial pre))))
    (default [] (routes p)).*1.
Proof.
  unfold taken_keys. rewrite field_slugs_routes.
  apply list_filter_iff. intros k. unfold reads_truthy.
  rewrite elem_of_bind_slugs.
  pose proof (holds_absorbed Routes initial pre k) as Hh.
  pose proof (holds_initial Routes k). simpl in *. tauto.
Qed.

Lemma auth_held pre :
  is_Some (resolved_auth (resolved (foldl absorb initial pre))) ↔
  Exists (λ q, is_Some (auth q)) pre.
Proof.
  rewrite absorbed_auth. simpl. rewrite Exists_exists. split.
  - destruct (last (omap auth pre)) as [a|] eqn:Hlast; [|by intros [? ?]].
    intros _. apply last_Some_elem_of, list_elem_of_omap in Hlast
      as (q & Hq & Ha).
    exists q. by rewrite Ha.
  - intros (q & Hq & [a Ha]).
    assert (a ∈ omap auth pre) as Hin by (apply list_elem_of_omap; eauto).
    destruct (omap auth pre) as [|b l] using rev_ind;
      [by apply elem_of_nil in Hin|].
    rewrite last_snoc. by eexists.
Qed.

(** After descriptors that resolved, the role entries that make
    [merge_roles] fail are those of [unsafe_roles]. *)
Lemma merge_roles_first pre p :
  match unsafe_roles p with
  | [] => returns (merge_roles
                     (resolved_roles (resolved (foldl absorb initial pre)))
                     (role_entries p))
  | _ :: _ => merge_roles
                (resolved_roles (resolved (foldl absorb initial pre)))
                (role_entries p) = TypeError
  end.
Proof.
  set (acc := resolved_roles (resolved (foldl absorb initial pre))).
  assert (∀ entry, role_safe acc entry ↔ ¬ (inherited entry.1 ∧ entry.2 ≠ []))
    as Hsafe.
  { intros entry. unfold role_safe.
    assert (inherited entry.1 → acc !! entry.1 = None) as Hnone.
    { intros Hinh. unfold acc. rewrite absorbed_roles.
      by apply foldl_absorb_role_inherited. }
    destruct (decide (entry.2 = [])); tauto. }
  unfold unsafe_roles.
  destruct (filter _ (role_entries p)) as [|entry rest] eqn:Hf.
  - eexists. apply merge_roles_Return. split; [|done].
    apply Forall_forall. intros entry Hin. apply Hsafe. intros Hbad.
    assert (entry ∈ filter (λ entry, inherited entry.1 ∧ entry.2 ≠ [])
                      (role_entries p)) as Hmem
      by by apply list_elem_of_filter.
    rewrite Hf in Hmem. by apply elem_of_nil in Hmem.
  - apply merge_roles_TypeError. intros Hall.
    assert (entry ∈ filter (λ entry, inherited entry.1 ∧ entry.2 ≠ [])
                      (role_entries p)) as Hmem
      by (rewrite Hf; constructor).
    apply list_elem_of_filter in Hmem as [Hbad Hin].
    rewrite Forall_forall in Hall. by apply (Hsafe entry); [apply Hall|].
Qed.

Lemma merge_plugin_stops plugins pre p :
  well_formed p →
  match stops pre p with
  | [] => returns (merge_plugin plugins (foldl absorb initial pre) p)
  | Collision knd k :: _ =>
      ∃ e, merge_plugin plugins (foldl absorb initial pre) p = Throw e ∧
           kind e = knd ∧ key e = k ∧ pluginB e = name p
  | MissingMethod :: _ =>
      merge_plugin plugins (foldl absorb initial pre) p = TypeError
  end.
Proof.
  intros (Hnp & _ & Hna & Hnr).
  pose proof (merge_roles_first pre p) as Hroles.
  set (s := foldl absorb initial pre) in *.
  rewrite merge_plugin_unfold, merge_auth_unfold. unfold stops.
  pose proof (auth_held pre) as Hheld. fold s in Hheld.
  destruct (decide (is_Some (auth p) ∧ _)) as [[[a Ha] Hex]|Hno].
  { apply Hheld in Hex as [b Hb]. rewrite Ha, Hb. by eexists. }
  assert (∃ ar, match auth p with
                | Some a =>
                    match resolved_auth (resolved s) with
                    | Some _ =>
                        Throw {| kind := "auth"; key := "auth";
                                 pluginA := non_null (authSource s);
                                 pluginB := name p |}
                    | None => Return (Some a, Some (name p))
                    end
                | None => Return (resolved_auth (resolved s), authSource s)
                end = Return ar) as [ar ->].
  { destruct (auth p) as [a|] eqn:Ha; [|by eexists].
    destruct (resolved_auth (resolved s)) as [b|] eqn:Hb; [|by eexists].
    destruct Hno. split; [by eexists|]. apply Hheld. by eexists. }
  change (Return ar ≫= ?f) with (f ar). cbn beta. simpl app.
  rewrite taken_keys_permissions, taken_keys_actions, taken_keys_routes.
  fold s.
  pose proof (merge_exclusive_first plugins "permission" Permissions (name p)
                (default [] (permissions p))
                (resolved_permissions (resolved s)) Hnp) as Hp.
  destruct (filter _ (default [] (permissions p)).*1) as [|k ks].
  2:{ destruct Hp as (e & -> & ?). by exists e. }
  destruct Hp as [pm ->]. change (Return pm ≫= ?f) with (f pm). cbn beta.
  rewrite fmap_nil, app_nil_l.
  change (role_entries p) with (default [] (roles p)) in Hroles.
  destruct (unsafe_roles p) as [|entry rest].
  2:{ by rewrite Hroles. }
  destruct Hroles as [ro ->]. change (Return ro ≫= ?f) with (f ro). cbn beta.
  rewrite fmap_nil, app_nil_l.
  pose proof (merge_exclusive_first plugins "action" Actions (name p)
                (default [] (actions p))
                (resolved_actions (resolved s)) Hna) as Hp.
  destruct (filter _ (default [] (actions p)).*1) as [|k ks].
  2:{ destruct Hp as (e & -> & ?). by exists e. }
  destruct Hp as [am ->]. change (Return am ≫= ?f) with (f am). cbn beta.
  rewrite fmap_nil, app_nil_l.
  pose proof (merge_exclusive_first plugins "route" Routes (name p)
                (default [] (routes p))
                (resolved_routes (resolved s)) Hnr) as Hp.
  destruct (filter _ (default [] (routes p)).*1) as [|k ks].
  2:{ destruct Hp as (e & -> & ?). by exists e. }
  destruct Hp as [rm ->]. by eexists.
Qed.

(** X7. After descriptors that resolve, a descriptor is accepted when
    nothing stops the loop body; otherwise the outcome is the first stop
    in the order of the checks: the [auth] conflict, then a conflict
    about the first permission slug that an earlier descriptor has or
    that spells an inherited member, then the [TypeError] of a role
    name that spells an inherited member and comes with a slug, then
    such a conflict about an action name, then about a route key, each
    in the order of the descriptor's own entries. *)
Theorem first_collision_reported pre p post :
  returns (resolvePlugins pre) → well_formed p →
  match stops pre p with
  | [] => returns (resolvePlugins (pre ++ [p]))
  | Collision knd k :: _ =>
      ∃ e, resolvePlugins (pre ++ p :: post) = Throw e ∧
           kind e = knd ∧ key e = k ∧ pluginB e = name p
  | MissingMethod :: _ => resolvePlugins (pre ++ p :: post) = TypeError
  end.
Proof.
  intros [r Hr] Hwf.
  pose proof Hr as [Hall _]%resolvePlugins_Return.
  assert (returns (resolvePlugins pre)) as [Hadm Hpw]%resolvePlugins_returns
    by by exists r.
  pose proof (merge_plugin_stops (pre ++ p :: post) pre p Hwf) as Hm.
  destruct (stops pre p) as [|[knd k|] rest].
  - destruct Hm as [s' [Hp _]%merge_plugin_Return].
    apply admits_absorbed in Hp as [Hp Hno].
    apply resolvePlugins_returns. split.
    + apply Forall_app. split; [done|by apply Forall_singleton].
    + by apply pairwise_snoc.
  - destruct Hm as (e & Hm & Hrest). exists e. split; [|done].
    apply resolvePlugins_Throw. by exists pre, p, post.
  - apply resolvePlugins_TypeError. by exists pre, p, post.
Qed.

(** ** Who is named as first owner *)

Lemma findOwner_before pre p post field k :
  findOwner (pre ++ p :: post) field k (name p) = "engine config" ∨
  findOwner (pre ++ p :: post) field k (name p) ∈ name <$> pre ∧
  findOwner (pre ++ p :: post) field k (name p) ≠ name p.
Proof.
  induction pre as [|q pre IH].
  - left. by apply findOwner_halt.
  - rewrite <-app_comm_cons, findOwner_cons, fmap_cons.
    destruct (decide (name q = name p)) as [|Hne]; [by left|].
    assert (findOwner (pre ++ p :: post) field k (name p) = "engine config" ∨
            findOwner (pre ++ p :: post) field k (name p) ∈ name q :: (name <$> pre) ∧
            findOwner (pre ++ p :: post) field k (name p) ≠ name p) as IH'.
    { destruct IH as [?|[? ?]]; [by left|right]. split; [by right|done]. }
    destruct (field_keys field q) as [obj|]; [|done].
    destruct (decide (has_key obj k)); [|done].
    right. split; [by left|done].
Qed.

(** X8. The first owner named in a thrown conflict is the name of
    a descriptor in front of the one that hit the conflict, or, for a
    permission, action or route, the text "engine config"; such a
    conflict names the same plugin twice only when that plugin is
    itself called "engine config". *)
Theorem conflict_first_owner plugins e :
  resolvePlugins plugins = Throw e →
  ∃ pre p post,
    plugins = pre ++ p :: post ∧ pluginB e = name p ∧
    (pluginA e ∈ name <$> pre ∨
     kind e ≠ "auth" ∧ pluginA e = "engine config") ∧
    (kind e ≠ "auth" → pluginA e = pluginB e → pluginB e = "engine config").
Proof.
  intros (pre & p & post & -> & Hall & Hm)%resolvePlugins_Throw.
  exists pre, p, post. split; [done|].
  apply merge_plugin_Throw in Hm as [Hth _].
  destruct Hth as [(-> & Hp & Hheld)|(field & He & Hin & _)]; simpl.
  - split; [done|]. split; [|done]. left.
    pose proof (auth_tracked_absorbed [] initial pre auth_tracked_initial)
      as [[Hnone _]|(q & Hq & _ & _ & Hsrc)].
    + rewrite Hnone in Hheld. by destruct Hheld.
    + simpl in Hq. rewrite Hsrc. simpl. by apply list_elem_of_fmap_2.
  - rewrite He. simpl.
    assert (kind_of field ≠ "auth") as Hk by by destruct field.
    destruct (findOwner_before pre p post field (key e)) as [Hf|[Hf Hne]].
    + split; [done|]. split; [by right|]. intros _ <-. done.
    + split; [done|]. split; [by left|]. by intros _ ?.
Qed.

End Contents.

(** ** The message of a conflict *)

Lemma string_app_cons c a b : String c a +:+ b = String c (a +:+ b).
Proof. done. Qed.

Lemma string_app_assoc a b c : a +:+ (b +:+ c) = (a +:+ b) +:+ c.
Proof.
  induction a as [|x a IH]; [done|]. by rewrite !string_app_cons, IH.
Qed.

Lemma string_length_app a b :
  String.length (a +:+ b) = (String.length a + String.length b)%nat.
Proof.
  induction a as [|x a IH]; [done|]. rewrite string_app_cons. simpl.
  by rewrite IH.
Qed.

Lemma string_app_inv_tail a a' t : a +:+ t = a' +:+ t → a = a'.
Proof.
  revert a'. induction a as [|x a IH]; intros [|x' a'] Heq.
  - done.
  - apply (f_equal String.length) in Heq.
    rewrite string_app_cons in Heq. simpl in Heq.
    rewrite !string_length_app in Heq. simpl in Heq. lia.
  - apply (f_equal String.length) in Heq.
    rewrite string_app_cons in Heq. simpl in Heq.
    rewrite !string_length_app in Heq. simpl in Heq. lia.
  - rewrite !string_app_cons in Heq. injection Heq as -> Heq.
    f_equal. by apply IH.
Qed.

Lemma quote_free_app a b :
  quote_free (a +:+ b) = quote_free a && quote_free b.
Proof.
  induction a as [|x a IH]; [done|]. rewrite string_app_cons. simpl.
  by rewrite IH, andb_assoc.
Qed.

(** Two texts that agree up to and after their first double quote. *)
Lemma split_at_quote a a' r r' :
  quote_free a = true → quote_free a' = true →
  a +:+ String quote_char r = a' +:+ String quote_char r' →
  a = a' ∧ r = r'.
Proof.
  revert a'. induction a as [|x a IH]; intros [|x' a']; simpl;
    intros Ha Ha' Heq.
  - by injection Heq.
  - rewrite string_app_cons in Heq. injection Heq as <- _.
    apply andb_prop in Ha' as [Hx%bool_decide_eq_true _]. done.
  - rewrite string_app_cons in Heq. injection Heq as -> _.
    apply andb_prop in Ha as [Hx%bool_decide_eq_true _]. done.
  - rewrite !string_app_cons in Heq. injection Heq as -> Heq.
    apply andb_prop in Ha as [_ Ha]. apply andb_prop in Ha' as [_ Ha'].
    destruct (IH a' Ha Ha' Heq) as [-> ->]. done.
Qed.

(** X9. The message tells conflicts apart: two conflicts whose kind,
    key and owners hold no double quote and that print the same
    message are the same conflict. *)
Theorem message_injective (e e' : PluginConflictError) :
  plain_text e → plain_text e' → message e = message e' → e = e'.
Proof.
  intros (Hk & Hy & Ha & Hb) (Hk' & Hy' & Ha' & Hb') Heq.
  unfold message in Heq. apply (inj (String.app _)) in Heq.
  rewrite !(string_app_assoc (kind _) " ") in Heq.
  change (dquote +:+ ?r) with (String quote_char r) in Heq.
  apply split_at_quote in Heq as [Hkind Heq];
    [|by rewrite quote_free_app, ?Hk, ?Hk'..].
  apply string_app_inv_tail in Hkind.
  apply split_at_quote in Heq as [Hkey Heq]; [|done..].
  apply (inj (String.app _)) in Heq.
  injection Heq as Heq.
  apply split_at_quote in Heq as [HA Heq]; [|done..].
  apply (inj (String.app _)) in Heq.
  injection Heq as Heq.
  apply split_at_quote in Heq as [HB _]; [|done..].
  destruct e, e'. simpl in *. by subst.
Qed.

(** ** The properties above on the sample descriptors *)

Lemma resolved_entries_exact_witness :
  ∃ r, resolvePlugins [A_route; B_route] = Return r ∧
       (resolved_routes r !! "GET /y" = Some "h2" ↔
        ∃ p, p ∈ [A_route; B_route] ∧
             ("GET /y", "h2") ∈ default [] (routes p)) ∧
       size (resolved_routes r) = 2%nat.
Proof.
  eexists. split; [reflexivity|].
  destruct (resolved_entries_exact [A_route; B_route] _ eq_refl)
    as (_ & _ & Hroutes & Hsize).
  split; [apply Hroutes|exact Hsize].
Defined.

Lemma resolved_auth_supplier_witness :
  ∃ r, resolvePlugins [A_route; C_auth; B_p1] = Return r ∧
       resolved_auth r = Some "authC".
Proof.
  eexists. split; [reflexivity|].
  destruct (resolved_auth_supplier [A_route; C_auth; B_p1] _ eq_refl)
    as (_ & Hhead & _).
  exact Hhead.
Defined.

Lemma hooks_in_descriptor_order_witness :
  ∃ r, resolvePlugins
         [with_onInit "f1" (bare "A"); with_onInit "f2" (bare "B"); bare "C"]
       = Return r ∧
       hooks_onInit (resolved_hooks r) = ["f1"; "f2"].
Proof.
  eexists. split; [reflexivity|].
  destruct (hooks_in_descriptor_order
              [with_onInit "f1" (bare "A"); with_onInit "f2" (bare "B");
               bare "C"] _ eq_refl) as (Hinit & _).
  exact Hinit.
Defined.

Lemma resolvable_subfamily_witness :
  ∃ r r', resolvePlugins [A_lists; B_lists; A_editor_x] = Return r ∧
          resolvePlugins [A_editor_x; A_lists] = Return r' ∧
          contained r' r.
Proof.
  assert ([A_editor_x; A_lists] ⊆+ [A_lists; B_lists; A_editor_x]) as Hsub.
  { etrans; [apply submseteq_swap|].
    apply submseteq_skip, submseteq_cons. reflexivity. }
  eexists.
  destruct (resolvable_subfamily [A_lists; B_lists; A_editor_x]
              [A_editor_x; A_lists] _ Hsub eq_refl) as (r' & Hres' & Hin).
  exists r'. split_and!; [reflexivity|exact Hres'|exact Hin].
Defined.

Lemma result_ignores_names_witness :
  (∃ r, resolvePlugins [A_lists; B_lists] = Return r ∧
        resolvePlugins [rename "X" A_lists; rename "X" B_lists] = Return r) ∧
  ∃ e', resolvePlugins [rename "X" A_p1; rename "X" B_p1] = Throw e' ∧
        kind e' = "permission" ∧ key e' = "p1".
Proof.
  split.
  - eexists. split; [reflexivity|].
    apply (result_ignores_names [A_lists; B_lists]).
    repeat constructor; by eexists.
  - apply (result_ignores_names [A_p1; B_p1]).
    repeat constructor; by eexists.
Defined.

Lemma resolvePlugins_app_witness :
  ∃ r, resolvePlugins ([A_lists; A_editor] ++ [B_lists; B_editor]) = Return r ∧
       resolved_integrations r = ["i1"; "i2"; "i3"] ∧
       resolved_roles r !! "editor" = Some ["x"; "y"; "z"].
Proof.
  eexists. split.
  - apply (proj2 (resolvePlugins_app [A_lists; A_editor] [B_lists; B_editor])
             _ _ eq_refl eq_refl).
    by_evaluation.
  - split; reflexivity.
Defined.

Lemma first_collision_reported_witness :
  returns (resolvePlugins [A_auth_p1; A_route]) ∧ well_formed B_auth_p1 ∧
  stops [A_auth_p1; A_route] B_auth_p1 =
    [Collision "auth" "auth"; Collision "permission" "p1"] ∧
  ∃ e, resolvePlugins ([A_auth_p1; A_route] ++ B_auth_p1 :: [C_auth]) = Throw e ∧
       kind e = "auth" ∧ key e = "auth" ∧ pluginB e = "B".
Proof.
  assert (returns (resolvePlugins [A_auth_p1; A_route])) as Hret
    by (eexists; reflexivity).
  assert (well_formed B_auth_p1) as Hwf by by_evaluation.
  split_and!; [exact Hret|exact Hwf|reflexivity|].
  exact (first_collision_reported [A_auth_p1; A_route] B_auth_p1 [C_auth]
           Hret Hwf).
Defined.

Lemma conflict_first_owner_witness :
  ∃ e, resolvePlugins [A_p1; B_p1] = Throw e ∧
       pluginA e = "A" ∧ pluginB e = "B" ∧
       ∃ pre p post,
         [A_p1; B_p1] = pre ++ p :: post ∧ pluginB e = name p ∧
         (pluginA e ∈ name <$> pre ∨
          kind e ≠ "auth" ∧ pluginA e = "engine config") ∧
         (kind e ≠ "auth" → pluginA e = pluginB e →
          pluginB e = "engine config").
Proof.
  eexists. split; [reflexivity|]. split; [reflexivity|].
  split; [reflexivity|].
  exact (conflict_first_owner [A_p1; B_p1] _ eq_refl).
Defined.

Lemma message_injective_witness :
  let e := {| kind := "route"; key := "GET /x";
              pluginA := "A"; pluginB := "B" |} in
  plain_text e ∧ message e = message e ∧ e = e.
Proof.
  intros e.
  assert (plain_text e) as Hplain by (by split_and!).
  split_and!; [exact Hplain|reflexivity|].
  exact (message_injective e e Hplain Hplain eq_refl).
Defined.

(** With double quotes in the names the message no longer tells two
    conflicts apart. *)
Example message_ambiguous_with_quotes :
  let e1 := {| kind := "route"; key := "k";
               pluginA := "y" +:+ dquote +:+ " and " +:+ dquote +:+ "z";
               pluginB := "w" |} in
  let e2 := {| kind := "route"; key := "k"; pluginA := "y";
               pluginB := "z" +:+ dquote +:+ " and " +:+ dquote +:+ "w" |} in
  e1 ≠ e2 ∧ message e1 = message e2.
Proof. split; [discriminate|reflexivity]. Qed.

(** [definePlugin] hands back its argument. *)
Lemma resolvePlugins_definePlugin `{Capabilities} (plugins : list Plugin) :
  resolvePlugins (definePlugin <$> plugins) = resolvePlugins plugins.
Proof. unfold definePlugin. by rewrite list_fmap_id. Qed.

(* ------------------------------------------------------------------ *)
(** * The frame of [resolvePlugins] *)

Module StoreFacts.
Import Store.

Section Triples.
Context {I : heap → Prop}.

Lemma triple_ret {A} (a : A) (Q : A → Prop) : Q a → triple I (mret a) Q.
Proof. by intros HQ h Hh. Qed.

Lemma triple_bind {A B} (m : M A) (f : A → M B) Q R :
  triple I m Q → (∀ a, Q a → triple I (f a) R) → triple I (m ≫= f) R.
Proof.
  intros Hm Hf h Hh. specialize (Hm h Hh).
  unfold mbind, M_bind. destruct (m h) as [a h'|e h'|h'|h']; [|done..].
  destruct Hm as [Hh' Ha]. by apply Hf.
Qed.

Lemma triple_throw {A} e (Q : A → Prop) : triple I (throw e) Q.
Proof. by intros h Hh. Qed.

Lemma triple_type_error {A} (Q : A → Prop) : triple I type_error Q.
Proof. by intros h Hh. Qed.

Lemma triple_as_ref v : triple I (as_ref v) (λ _, True).
Proof. destruct v; by intros h Hh. Qed.

Lemma triple_as_str v : triple I (as_str v) (λ _, True).
Proof. destruct v; by intros h Hh. Qed.

Lemma triple_read_array l : triple I (read_array l) (λ _, True).
Proof. intros h Hh. unfold read_array. by destruct (h !! l) as [[]|]. Qed.

Lemma triple_entries l : triple I (entries l) (λ _, True).
Proof. intros h Hh. unfold entries. by destruct (h !! l) as [[]|]. Qed.

Lemma triple_get l k : triple I (get l k) (λ _, True).
Proof.
  eapply triple_bind; [apply triple_entries|]. intros ps _.
  by apply triple_ret.
Qed.

Lemma triple_get_str l k : triple I (get l k ≫= as_str) (λ _, True).
Proof.
  eapply triple_bind; [apply triple_get|]. intros v _. apply triple_as_str.
Qed.

(** [findOwner] only reads. *)
Lemma triple_findOwner_from ps field k cur :
  triple I (findOwner_from ps field k cur) (λ _, True).
Proof.
  induction ps as [|p ps IH]; simpl; [by apply triple_ret|].
  eapply triple_bind; [apply triple_as_ref|]. intros pl _.
  eapply triple_bind; [apply triple_get_str|]. intros n _.
  destruct (decide (n = cur)); [by apply triple_ret|].
  eapply triple_bind; [apply triple_get|]. intros obj _.
  destruct (truthy obj); [|done].
  eapply triple_bind; [apply triple_as_ref|]. intros ol _.
  eapply triple_bind; [apply triple_entries|]. intros own _.
  destruct (decide (has_key own.*1 k)); [apply triple_get_str|done].
Qed.

Lemma triple_findOwner plugins field k cur :
  triple I (findOwner plugins field k cur) (λ _, True).
Proof.
  eapply triple_bind; [apply triple_read_array|]. intros ps _.
  apply triple_findOwner_from.
Qed.

End Triples.

Section Frame.
Variables (h0 : heap) (lr : loc).
Abbreviation I := (Inv h0 lr).

Lemma prop_fresh_refs ps k :
  fresh_refs (dom h0) ps →
  prop k ps = undefined ∨ ∃ l, prop k ps = ref l ∧ l ∉ dom h0.
Proof.
  induction ps as [|[k' v] ps IH]; simpl; [by left|].
  intros [Hv Hps]%Forall_cons. destruct (decide (k' = k)); [by right|].
  by apply IH.
Qed.

Lemma set_prop_fresh_refs ps k l :
  l ∉ dom h0 → fresh_refs (dom h0) ps →
  fresh_refs (dom h0) (set_prop k (ref l) ps).
Proof.
  intros Hl. induction ps as [|[k' v] ps IH]; simpl.
  - intros _. apply Forall_singleton. eauto.
  - intros [Hv Hps]%Forall_cons. destruct (decide (k' = k)).
    + apply Forall_cons. split; [simpl; eauto|done].
    + apply Forall_cons. split; [done|by apply IH].
Qed.

Lemma triple_push l vs : l ∉ dom h0 → triple I (push l vs) (λ _, True).
Proof.
  intros Hl h [Hun (ps & Hlr & Hps)]. unfold push.
  destruct (h !! l) as [[xs|ps']|] eqn:Hhl;
    [|by split; [|exists ps]..].
  split; [|done]. split.
  - intros l' Hl'. rewrite lookup_insert_ne by by intros ->. by apply Hun.
  - exists ps. split; [|done]. rewrite lookup_insert_ne; [done|].
    intros ->. congruence.
Qed.

Lemma triple_set l k v :
  l ∉ dom h0 → l ≠ lr → triple I (set l k v) (λ _, True).
Proof.
  intros Hl Hne h [Hun (ps & Hlr & Hps)]. unfold set.
  destruct (h !! l) as [[xs|ps']|] eqn:Hhl;
    [by split; [|exists ps]| |by split; [|exists ps]].
  split; [|done]. split.
  - intros l' Hl'. rewrite lookup_insert_ne by by intros ->. by apply Hun.
  - exists ps. by rewrite lookup_insert_ne.
Qed.

Lemma triple_set_role k l :
  lr ∉ dom h0 → l ∉ dom h0 → triple I (set lr k (ref l)) (λ _, True).
Proof.
  intros Hlr Hl h [Hun (ps & Hps & Hfresh)]. unfold set. rewrite Hps.
  split; [|done]. split.
  - intros l' Hl'. rewrite lookup_insert_ne by by intros ->. by apply Hun.
  - eexists. rewrite lookup_insert_eq. split; [done|].
    by apply set_prop_fresh_refs.
Qed.

Lemma Inv_dom h l : I h → l ∈ dom h0 → l ∈ dom h.
Proof.
  intros [Hun _] Hl. apply elem_of_dom. rewrite (Hun l Hl).
  by apply elem_of_dom.
Qed.

Lemma triple_alloc o : triple I (alloc o) (λ l, l ∉ dom h0).
Proof.
  intros h HI. unfold alloc.
  pose proof (is_fresh (dom h)) as Hfresh.
  assert (fresh (dom h) ∉ dom h0) as Hnew.
  { intros Hin. by apply Hfresh, Inv_dom. }
  split; [|done]. destruct HI as [Hun (ps & Hlr & Hps)]. split.
  - intros l' Hl'. rewrite lookup_insert_ne; [by apply Hun|].
    intros Heq. apply Hnew. by rewrite Heq.
  - exists ps. split; [|done]. rewrite lookup_insert_ne; [done|].
    intros Heq. apply Hfresh. rewrite Heq. apply elem_of_dom. eauto.
Qed.

Lemma lookup_chain_fresh_refs ps k :
  fresh_refs (dom h0) ps →
  lookup_chain k ps = undefined ∨ lookup_chain k ps = builtin k ∨
  ∃ l, lookup_chain k ps = ref l ∧ l ∉ dom h0.
Proof.
  intros Hps. unfold lookup_chain.
  destruct (decide (k ∈ ps.*1)).
  - destruct (prop_fresh_refs ps k Hps) as [->|?]; [by left|by right; right].
  - destruct (decide (inherited k)); [right|]; by left.
Qed.

(** The array under a role was made during the run. *)
Lemma triple_get_role k :
  triple I (get lr k ≫= as_ref) (λ l, l ∉ dom h0).
Proof.
  intros h HI. pose proof HI as [_ (ps & Hlr & Hps)].
  unfold get, entries, mbind, M_bind, mret, M_ret. rewrite Hlr.
  destruct (lookup_chain_fresh_refs ps k Hps) as [->|[->|(l & -> & Hl)]];
    by simpl.
Qed.

Lemma triple_get_receiver k :
  triple I (get lr k ≫= includes_receiver) (λ l, l ∉ dom h0).
Proof.
  intros h HI. pose proof HI as [_ (ps & Hlr & Hps)].
  unfold get, entries, mbind, M_bind, mret, M_ret. rewrite Hlr.
  destruct (lookup_chain_fresh_refs ps k Hps) as [->|[->|(l & -> & Hl)]];
    by simpl.
Qed.

Lemma triple_store_entries plugins plugin knd field es target :
  target ∉ dom h0 → target ≠ lr →
  triple I (store_entries plugins plugin knd field es target) (λ _, True).
Proof.
  intros Ht Hne. induction es as [|[k v] es IH]; simpl; [by apply triple_ret|].
  eapply triple_bind; [apply triple_get|]. intros cur _.
  destruct (truthy cur).
  - eapply triple_bind; [apply triple_get_str|]. intros n _.
    eapply triple_bind; [apply triple_findOwner|]. intros owner _.
    eapply triple_bind; [apply triple_get_str|]. intros n' _.
    apply triple_throw.
  - eapply triple_bind; [by apply triple_set|]. intros _ _. apply IH.
Qed.

Lemma triple_merge_exclusive plugins plugin knd field target :
  target ∉ dom h0 → target ≠ lr →
  triple I (merge_exclusive plugins plugin knd field target) (λ _, True).
Proof.
  intros Ht Hne. eapply triple_bind; [apply triple_get|]. intros obj _.
  destruct (truthy obj); [|by apply triple_ret].
  eapply triple_bind; [apply triple_as_ref|]. intros ol _.
  eapply triple_bind; [apply triple_entries|]. intros es _.
  by apply triple_store_entries.
Qed.

Lemma triple_push_perms role perms :
  triple I (push_perms lr role perms) (λ _, True).
Proof.
  induction perms as [|perm perms IH]; simpl; [by apply triple_ret|].
  eapply triple_bind; [apply triple_get_receiver|]. intros arr Harr.
  eapply triple_bind; [apply triple_read_array|]. intros xs _.
  eapply (triple_bind _ _ (λ _, True)); [|intros _ _; apply IH].
  destruct (decide (perm ∈ xs)); [by apply triple_ret|].
  eapply triple_bind; [apply triple_get_role|]. intros arr' Harr'.
  by apply triple_push.
Qed.

Lemma triple_merge_roles es :
  lr ∉ dom h0 → triple I (merge_roles lr es) (λ _, True).
Proof.
  intros Hlr. induction es as [|[role perms] es IH]; simpl;
    [by apply triple_ret|].
  eapply triple_bind; [apply triple_get|]. intros cur _.
  eapply (triple_bind _ _ (λ _, True)).
  { destruct (truthy cur); [by apply triple_ret|].
    eapply triple_bind; [apply triple_alloc|]. intros l Hl.
    by apply triple_set_role. }
  intros _ _.
  eapply triple_bind; [apply triple_as_ref|]. intros pl _.
  eapply triple_bind; [apply triple_read_array|]. intros ps _.
  eapply triple_bind; [apply triple_push_perms|]. intros _ _. apply IH.
Qed.

Lemma triple_concat_into plugin field target :
  target ∉ dom h0 → triple I (concat_into plugin field target) (λ _, True).
Proof.
  intros Ht. eapply triple_bind; [apply triple_get|]. intros v _.
  destruct (truthy v); [|by apply triple_ret].
  eapply triple_bind; [apply triple_as_ref|]. intros l _.
  eapply triple_bind; [apply triple_read_array|]. intros xs _.
  by apply triple_push.
Qed.

Lemma triple_push_hook plugin field target :
  target ∉ dom h0 → triple I (push_hook plugin field target) (λ _, True).
Proof.
  intros Ht. eapply triple_bind; [apply triple_get|]. intros v _.
  destruct (truthy v); [by apply triple_push|by apply triple_ret].
Qed.

Lemma triple_merge_auth plugin r authSource :
  owned h0 lr r →
  triple I (merge_auth plugin r authSource) (λ ra, owned h0 lr ra.1).
Proof.
  intros Hr. eapply triple_bind; [apply triple_get|]. intros a _.
  destruct (truthy a); [|by apply triple_ret].
  destruct (truthy (r_auth r)).
  - eapply triple_bind; [apply triple_get_str|]. intros n _.
    apply triple_throw.
  - eapply triple_bind; [apply triple_get|]. intros n _.
    by apply triple_ret.
Qed.

Lemma triple_merge_plugin plugins r authSource p :
  owned h0 lr r →
  triple I (merge_plugin plugins r authSource p) (λ ra, owned h0 lr ra.1).
Proof.
  intros Hr. pose proof Hr as (_ & _ & Hi & _).
  eapply triple_bind; [apply triple_as_ref|]. intros plugin _.
  eapply triple_bind; [by apply triple_concat_into|]. intros _ _.
  eapply triple_bind; [by apply triple_merge_auth|].
  intros [r' src'] Hr'. simpl in Hr'.
  pose proof Hr' as (Hroles & Hlr & _ & Hm & H1 & H2 & H3 & H4 &
                     [Hp Hpn] & [Ha Han] & [Ht Htn]).
  eapply triple_bind; [by apply triple_merge_exclusive|]. intros _ _.
  eapply (triple_bind _ _ (λ _, True)).
  { eapply triple_bind; [apply triple_get|]. intros v _.
    destruct (truthy v); [|by apply triple_ret].
    eapply triple_bind; [apply triple_as_ref|]. intros l _.
    eapply triple_bind; [apply triple_entries|]. intros es _.
    rewrite Hroles. by apply triple_merge_roles. }
  intros _ _.
  eapply triple_bind; [by apply triple_merge_exclusive|]. intros _ _.
  eapply triple_bind; [by apply triple_concat_into|]. intros _ _.
  eapply triple_bind; [by apply triple_merge_exclusive|]. intros _ _.
  eapply triple_bind; [by apply triple_push_hook|]. intros _ _.
  eapply triple_bind; [by apply triple_push_hook|]. intros _ _.
  eapply triple_bind; [by apply triple_push_hook|]. intros _ _.
  eapply triple_bind; [by apply triple_push_hook|]. intros _ _.
  by apply triple_ret.
Qed.

Lemma triple_resolve_loop plugins todo r authSource :
  owned h0 lr r →
  triple I (resolve_loop plugins todo r authSource) (λ ra, owned h0 lr ra.1).
Proof.
  revert r authSource. induction todo as [|p todo IH]; intros r src Hr; simpl.
  - by apply triple_ret.
  - eapply triple_bind; [by apply triple_merge_plugin|].
    intros [r' src'] Hr'. by apply IH.
Qed.

End Frame.

Lemma alloc_fresh o h : ∃ l, alloc o h = Done l (<[l:=o]> h) ∧ l ∉ dom h.
Proof. eexists. split; [done|]. apply is_fresh. Qed.

Ltac next_alloc :=
  match goal with
  | |- context [alloc ?o ?h] =>
      let l := fresh "l" in
      let Hl := fresh "Hl" in
      destruct (alloc_fresh o h) as (l & -> & Hl);
      rewrite ?dom_insert_L, ?not_elem_of_union, ?not_elem_of_singleton in Hl
  end.

(** The literals of [resolved] are new, pairwise distinct cells. *)
Lemma new_resolved_spec h0 :
  ∃ r h1, new_resolved h0 = Done r h1 ∧
          Inv h0 (r_roles r) h1 ∧ owned h0 (r_roles r) r.
Proof.
  unfold new_resolved, mbind, M_bind, mret, M_ret.
  do 10 next_alloc. eexists _, _. split; [done|]. split; [split|].
  - intros x Hx. rewrite !lookup_insert_ne; [done|intros ->; tauto..].
  - exists []. split; [|constructor]. simpl.
    rewrite !lookup_insert_ne by (intros ->; tauto).
    apply lookup_insert_eq.
  - unfold owned. simpl. split_and!; try tauto; intros ->; tauto.
Qed.

(** C7. A call of [resolvePlugins], whether it returns, throws a
    conflict, fails with a [TypeError] or stops on an ill-shaped store,
    leaves every cell the store had before the call as it was: the
    descriptor array, the descriptors and every array and object
    reachable from them; it only adds cells. *)
Theorem resolvePlugins_frame (plugins : loc) (h : heap) :
  let h' := heap_of (resolvePlugins plugins h) in
  unchanged_on (dom h) h h' ∧ dom h ⊆ dom h'.
Proof.
  destruct (new_resolved_spec h) as (r & h1 & Hnew & HI & Hr).
  assert (triple (Inv h (r_roles r))
            (ps ← read_array plugins;
             '(r', _) ← resolve_loop plugins ps r undefined;
             mret r') (λ _, True)) as Hrun.
  { eapply triple_bind; [apply triple_read_array|]. intros ps _.
    eapply triple_bind; [by apply triple_resolve_loop|].
    intros [r' src'] _. by apply triple_ret. }
  specialize (Hrun h1 HI).
  assert (Inv h (r_roles r) (heap_of (resolvePlugins plugins h))) as HI'.
  { unfold resolvePlugins, mbind at 1, M_bind at 1. rewrite Hnew.
    match type of Hrun with
    | match ?run with _ => _ end =>
        change (Inv h (r_roles r) (heap_of run)); destruct run; simpl; tauto
    end. }
  simpl. split; [apply HI'|].
  intros l Hl. by eapply Inv_dom.
Qed.

(** The role-merge scenario run on a store: the slugs end up in a new
    array, and the arrays of the two descriptors are as before. *)
Example editor_store_run :
  ∃ r h', resolvePlugins 0 editor_store = Done r h' ∧
          (∃ l, h' !! r_roles r = Some (record [("editor", ref l)]) ∧
                h' !! l = Some (array [str "x"; str "y"; str "z"])) ∧
          h' !! 4 = Some (array [str "x"; str "y"]) ∧
          h' !! 6 = Some (array [str "y"; str "z"]).
Proof.
  eexists _, _. split; [vm_compute; reflexivity|].
  split; [eexists; split; vm_compute; reflexivity|].
  split; vm_compute; reflexivity.
Qed.

(** The permission scenario run on a store throws the conflict the
    functional model throws. *)
Example p1_store_run :
  ∃ h', resolvePlugins 0 p1_store =
          Raised {| kind := "permission"; key := "p1";
                    pluginA := "A"; pluginB := "B" |} h' ∧
        h' !! 3 = Some (record [("p1", ref 5)]) ∧
        h' !! 4 = Some (record [("p1", ref 6)]).
Proof.
  eexists. split; [vm_compute; reflexivity|].
  split; vm_compute; reflexivity.
Qed.

(** A lone descriptor with the permission slug [toString]: the test of
    line 102 reads the inherited member and the run throws. *)
Example toString_store_run :
  ∃ h', resolvePlugins 0 toString_store =
          Raised {| kind := "permission"; key := "toString";
                    pluginA := "engine config"; pluginB := "A" |} h'.
Proof. eexists. vm_compute. reflexivity. Qed.

(** A slug under the role name [constructor]: no array is made and the
    call of [includes] fails. *)
Example constructor_store_run :
  ∃ h', resolvePlugins 0 constructor_store = Failed h'.
Proof. eexists. vm_compute. reflexivity. Qed.

End StoreFacts.

(* ------------------------------------------------------------------ *)
(** * The store run refines the functional model *)

(** The functional model at the capability types of the store. *)
Module Model.
Abbreviation findOwner := (@findOwner Store.refs).
Abbreviation merge_exclusive := (@merge_exclusive Store.refs).
Abbreviation merge_auth := (@merge_auth Store.refs).
Abbreviation merge_plugin := (@merge_plugin Store.refs).
Abbreviation resolve_loop := (@resolve_loop Store.refs).
Abbreviation resolvePlugins := (@resolvePlugins Store.refs).
Abbreviation push_hook := (@push_hook Store.val).
Abbreviation merge_roles := merge_roles.
End Model.

Module StoreRefinement.
Import Store.

Implicit Types (h : heap) (l : loc) (v : val) (ps : list (string * val)).
Implicit Types (p : @Plugin refs) (plugins : list (@Plugin refs)).

(** ** The primitive operations *)

Lemma bind_Done {A B} (m : M A) (f : A → M B) h a h' :
  m h = Done a h' → (m ≫= f) h = f a h'.
Proof. intros Hm. unfold mbind, M_bind. by rewrite Hm. Qed.

Lemma ret_bind {A B} (a : A) (f : A → M B) : mret a ≫= f = f a.
Proof. done. Qed.

Lemma prop_notin ps k : k ∉ ps.*1 → prop k ps = undefined.
Proof.
  induction ps as [|[k' v] ps IH]; simpl; [done|].
  intros [Hne Hk]%not_elem_of_cons. rewrite decide_False by done. by apply IH.
Qed.

(** A key that spells no inherited member reads as the own property. *)
Lemma lookup_chain_plain ps k :
  bool_decide (inherited k) = false → lookup_chain k ps = prop k ps.
Proof.
  intros Hk%bool_decide_eq_false. unfold lookup_chain.
  destruct (decide (k ∈ ps.*1)); [done|].
  rewrite decide_False by done. by rewrite prop_notin.
Qed.

(** An own property that is set hides an inherited member. *)
Lemma lookup_chain_own ps k v :
  prop k ps = v → v ≠ undefined → lookup_chain k ps = v.
Proof.
  intros Hv Hdef. unfold lookup_chain.
  destruct (decide (k ∈ ps.*1)) as [|Hk]; [done|].
  apply prop_notin in Hk. congruence.
Qed.

Lemma get_chain_Done h l ps k :
  h !! l = Some (record ps) → get l k h = Done (lookup_chain k ps) h.
Proof. intros Hl. unfold get, entries, mbind, M_bind. by rewrite Hl. Qed.

Lemma get_Done h l ps k :
  h !! l = Some (record ps) → bool_decide (inherited k) = false →
  get l k h = Done (prop k ps) h.
Proof.
  intros Hl Hk. rewrite (get_chain_Done h l ps) by done.
  by rewrite lookup_chain_plain.
Qed.

Lemma entries_Done h l ps :
  h !! l = Some (record ps) → entries l h = Done ps h.
Proof. intros Hl. unfold entries. by rewrite Hl. Qed.

Lemma read_array_Done h l xs :
  h !! l = Some (array xs) → read_array l h = Done xs h.
Proof. intros Hl. unfold read_array. by rewrite Hl. Qed.

Lemma push_Done h l xs vs :
  h !! l = Some (array xs) → push l vs h = Done () (<[l := array (xs ++ vs)]> h).
Proof. intros Hl. unfold push. by rewrite Hl. Qed.

Lemma set_Done h l ps k v :
  h !! l = Some (record ps) →
  set l k v h = Done () (<[l := record (set_prop k v ps)]> h).
Proof. intros Hl. unfold set. by rewrite Hl. Qed.

Lemma prop_set_prop ps k v k' :
  prop k' (set_prop k v ps) = if decide (k = k') then v else prop k' ps.
Proof.
  induction ps as [|[k0 v0] ps IH]; simpl.
  - by destruct (decide (k = k')).
  - destruct (decide (k0 = k)) as [->|Hne]; simpl.
    + by destruct (decide (k = k')).
    + destruct (decide (k0 = k')) as [->|?]; [|done].
      by rewrite decide_False by done.
Qed.

Lemma is_array_weaken (h0 : heap) h v xs :
  h0 ⊆ h → is_array h0 v xs → is_array h v xs.
Proof. intros Hsub (l & -> & Hl). exists l. eauto using lookup_weaken. Qed.

Lemma is_record_weaken (h0 : heap) h v ps :
  h0 ⊆ h → is_record h0 v ps → is_record h v ps.
Proof. intros Hsub (l & -> & Hl). exists l. eauto using lookup_weaken. Qed.

Lemma insert_new_subseteq (h0 : heap) h l (o : object) :
  h0 ⊆ h → l ∉ dom h0 → h0 ⊆ <[l := o]> h.
Proof.
  intros Hsub Hl. apply map_subseteq_spec. intros l' o' Hl'.
  rewrite lookup_insert_ne; [by eapply lookup_weaken|]. intros <-.
  apply Hl, elem_of_dom. eauto.
Qed.

(** ** Reading the descriptors *)

Lemma get_str_Done h l ps k n :
  h !! l = Some (record ps) → prop k ps = str n →
  (get l k ≫= as_str) h = Done n h.
Proof.
  intros Hl Hk. erewrite bind_Done by by apply get_chain_Done.
  by rewrite (lookup_chain_own ps k (str n)).
Qed.

Lemma field_name_plain field : bool_decide (inherited (field_name field)) = false.
Proof. by destruct field. Qed.

Lemma rep_plugin_field (h0 : heap) v p ps field :
  is_record h0 v ps → rep_plugin h0 v p →
  rep_map h0 (prop (field_name field) ps) (field_record field p) ∧
  prop "name" ps = str (name p).
Proof.
  intros (l & -> & Hl) (ps' & (l' & [= <-] & Hl') & Hname & _ & _ & Hp & _
                          & Ha & _ & Hr & _).
  assert (ps' = ps) as -> by congruence.
  by destruct field.
Qed.

Lemma field_keys_record field p :
  field_keys field p = fmap (M:=list) fst <$> field_record field p.
Proof. by destruct field. Qed.

(** The scan of the store computes [findOwner] of the model. *)
Lemma findOwner_from_sim (h0 : heap) h vs plugins field k cur :
  h0 ⊆ h → Forall2 (rep_plugin h0) vs plugins →
  findOwner_from vs (field_name field) k cur h =
  Done (Model.findOwner plugins field k cur) h.
Proof.
  intros Hsub Hrep. induction Hrep as [|v p vs plugins Hp Hrep IH]; [done|].
  pose proof Hp as (ps & Hrec & _).
  destruct (rep_plugin_field h0 v p ps field Hrec Hp) as [Hfield Hname].
  destruct Hrec as (l & -> & Hl). apply (lookup_weaken _ h) in Hl; [|done].
  rewrite findOwner_cons. cbn [findOwner_from as_ref].
  change (mret l ≫= ?f) with (f l). cbn beta.
  erewrite bind_Done by by eapply get_str_Done.
  destruct (decide (name p = cur)) as [Heq|Hne]; [done|].
  erewrite bind_Done by (apply get_Done; [done|apply field_name_plain]).
  rewrite field_keys_record. unfold rep_map in Hfield.
  destruct (field_record field p) as [es|]; simpl.
  - destruct Hfield as [(ol & -> & Hol) _]. simpl.
    apply (lookup_weaken _ h) in Hol; [|done].
    change (mret ol ≫= ?f) with (f ol). cbn beta.
    erewrite bind_Done by by apply entries_Done.
    destruct (decide (has_key es.*1 k)); [|apply IH].
    by eapply get_str_Done.
  - rewrite Hfield. simpl. apply IH.
Qed.

Lemma findOwner_sim (h0 : heap) h l plugins field k cur :
  h0 ⊆ h → rep_plugins h0 l plugins →
  Store.findOwner l (field_name field) k cur h =
  Done (Model.findOwner plugins field k cur) h.
Proof.
  intros Hsub (vs & Hl & Hrep). unfold Store.findOwner.
  erewrite bind_Done by (apply read_array_Done; by eapply lookup_weaken).
  by eapply findOwner_from_sim.
Qed.

(** ** The exclusive mappings *)

Lemma set_prop_keys ps k v k' :
  k' ∈ (set_prop k v ps).*1 ↔ k' = k ∨ k' ∈ ps.*1.
Proof.
  induction ps as [|[k0 v0] ps IH]; simpl.
  - rewrite list_elem_of_singleton. split; [by left|].
    by intros [?|?%elem_of_nil].
  - destruct (decide (k0 = k)) as [->|Hne]; simpl.
    + rewrite !elem_of_cons. tauto.
    + rewrite !elem_of_cons, IH. tauto.
Qed.

Lemma map_rep_set_prop tps m k v :
  map_rep tps m → truthy v = true → map_rep (set_prop k v tps) (<[k:=v]> m).
Proof.
  intros Hrep Hv k'. rewrite lookup_insert.
  destruct (decide (k = k')) as [->|Hne].
  - by rewrite prop_set_prop, decide_True.
  - specialize (Hrep k'). destruct (m !! k') as [v'|].
    + by rewrite prop_set_prop, decide_False.
    + rewrite set_prop_keys. intros [?|?]; [congruence|done].
Qed.

(** The test of the accumulator is the test of the model. *)
Lemma map_rep_truthy tps m k :
  map_rep tps m →
  truthy (lookup_chain k tps) = bool_decide (reads_truthy m k).
Proof.
  intros Hrep. specialize (Hrep k). unfold reads_truthy.
  destruct (m !! k) as [v|] eqn:Hm.
  - destruct Hrep as [Hv Htruthy].
    rewrite (lookup_chain_own tps k v); [|done|by intros ->].
    rewrite Htruthy. symmetry. apply bool_decide_eq_true. left. by eexists.
  - unfold lookup_chain. rewrite decide_False by done.
    destruct (decide (inherited k)) as [Hk|Hk]; simpl; symmetry.
    + apply bool_decide_eq_true. by right.
    + apply bool_decide_eq_false. by intros [[? ?]|?].
Qed.

Lemma store_entries_sim (h0 : heap) lplugins plugin pps plugins knd field n
    es target :
  rep_plugins h0 lplugins plugins →
  h0 !! plugin = Some (record pps) → prop "name" pps = str n →
  target ∉ dom h0 → Forall (λ kv, truthy kv.2 = true) es →
  ∀ h tps m,
    h0 ⊆ h → h !! target = Some (record tps) → map_rep tps m →
    match Model.merge_exclusive plugins knd field n es m with
    | Return m' =>
        ∃ tps', store_entries lplugins plugin knd (field_name field) es target h
                  = Done () (<[target := record tps']> h) ∧
                map_rep tps' m'
    | Throw e =>
        ∃ tps', store_entries lplugins plugin knd (field_name field) es target h
                  = Raised e (<[target := record tps']> h)
    | TypeError => False
    end.
Proof.
  intros Hplugins Hplugin Hname Htarget Hes.
  induction es as [|[k v] es IH]; intros h tps m Hsub Ht Hrep.
  { exists tps. simpl. split; [|done]. by rewrite insert_id. }
  apply Forall_cons in Hes as [Hv Hes]. simpl in Hv.
  rewrite merge_exclusive_cons. cbn [store_entries].
  erewrite bind_Done by by apply get_chain_Done.
  rewrite (map_rep_truthy tps m k Hrep).
  destruct (decide (reads_truthy m k)) as [Hk|Hk].
  - rewrite bool_decide_eq_true_2 by done.
    assert (h !! plugin = Some (record pps)) as Hp by by eapply lookup_weaken.
    erewrite bind_Done by by eapply get_str_Done.
    erewrite bind_Done by by eapply findOwner_sim.
    erewrite bind_Done by by eapply get_str_Done.
    exists tps. by rewrite insert_id.
  - rewrite bool_decide_eq_false_2 by done.
    erewrite bind_Done by by apply set_Done.
    specialize (IH Hes (<[target := record (set_prop k v tps)]> h)
                  (set_prop k v tps) (<[k:=v]> m)
                  (insert_new_subseteq _ _ _ _ Hsub Htarget)
                  (lookup_insert_eq _ _ _)
                  (map_rep_set_prop _ _ _ _ Hrep Hv)).
    destruct (Model.merge_exclusive _ _ _ _ _ _) as [m'|e|].
    + destruct IH as (tps' & -> & Hrep'). exists tps'.
      by rewrite insert_insert_eq.
    + destruct IH as (tps' & ->). exists tps'. by rewrite insert_insert_eq.
    + done.
Qed.

Lemma merge_exclusive_sim (h0 : heap) lplugins plugin pps plugins knd field
    p target h tps m :
  rep_plugins h0 lplugins plugins →
  h0 !! plugin = Some (record pps) → rep_plugin h0 (ref plugin) p →
  target ∉ dom h0 →
  h0 ⊆ h → h !! target = Some (record tps) → map_rep tps m →
  match Model.merge_exclusive plugins knd field (name p)
          (default [] (field_record field p)) m with
  | Return m' =>
      ∃ tps', Store.merge_exclusive lplugins plugin knd (field_name field)
                target h = Done () (<[target := record tps']> h) ∧
              map_rep tps' m'
  | Throw e =>
      ∃ tps', Store.merge_exclusive lplugins plugin knd (field_name field)
                target h = Raised e (<[target := record tps']> h)
  | TypeError => False
  end.
Proof.
  intros Hplugins Hplugin Hp Htarget Hsub Ht Hrep.
  assert (is_record h0 (ref plugin) pps) as Hrec by by exists plugin.
  destruct (rep_plugin_field h0 _ p pps field Hrec Hp) as [Hfield Hname].
  unfold Store.merge_exclusive.
  erewrite bind_Done
    by (apply get_Done; [by eapply lookup_weaken|apply field_name_plain]).
  unfold rep_map in Hfield. destruct (field_record field p) as [es|]; simpl.
  - destruct Hfield as [(ol & -> & Hol) Hes]. simpl.
    change (mret ol ≫= ?f) with (f ol). cbn beta.
    erewrite bind_Done by (apply entries_Done; by eapply lookup_weaken).
    by eapply store_entries_sim.
  - rewrite Hfield. simpl. exists tps. by rewrite insert_id.
Qed.

(** ** Concatenated sequences, hooks and [auth] *)

Lemma concat_into_sim (h0 : heap) h plugin pps field o target xs :
  bool_decide (inherited field) = false →
  h0 ⊆ h → h0 !! plugin = Some (record pps) →
  rep_list h0 (prop field pps) o → h !! target = Some (array xs) →
  concat_into plugin field target h =
  Done () (<[target := array (xs ++ default [] o)]> h).
Proof.
  intros Hfield Hsub Hplugin Ho Ht. unfold concat_into.
  erewrite bind_Done by (apply get_Done; [by eapply lookup_weaken|done]).
  destruct o as [ys|]; simpl in *.
  - destruct Ho as (l & -> & Hl). simpl.
    change (mret l ≫= ?f) with (f l). cbn beta.
    erewrite bind_Done by (apply read_array_Done; by eapply lookup_weaken).
    by apply push_Done.
  - rewrite Ho. simpl. by rewrite app_nil_r, insert_id.
Qed.

Lemma push_hook_sim (h0 : heap) h plugin pps field o target xs :
  bool_decide (inherited field) = false →
  h0 ⊆ h → h0 !! plugin = Some (record pps) →
  rep_opt (prop field pps) o → h !! target = Some (array xs) →
  Store.push_hook plugin field target h =
  Done () (<[target := array (Model.push_hook xs o)]> h).
Proof.
  intros Hfield Hsub Hplugin Ho Ht. unfold Store.push_hook.
  erewrite bind_Done by (apply get_Done; [by eapply lookup_weaken|done]).
  destruct o as [f|]; simpl in *.
  - destruct Ho as [-> ->]. by apply push_Done.
  - rewrite Ho. simpl. by rewrite insert_id.
Qed.

Lemma merge_auth_sim (h0 : heap) h plugin pps p r src cur srcname :
  h0 ⊆ h → h0 !! plugin = Some (record pps) →
  rep_plugin h0 (ref plugin) p →
  rep_opt (r_auth r) cur → src = from_option str undefined srcname →
  match Model.merge_auth cur srcname p with
  | Return (cur', srcname') =>
      ∃ a, Store.merge_auth plugin r src h =
             Done (set_auth r a, from_option str undefined srcname') h ∧
           rep_opt a cur'
  | Throw e => Store.merge_auth plugin r src h = Raised e h
  | TypeError => False
  end.
Proof.
  intros Hsub Hplugin Hp Hcur ->.
  destruct Hp as (pps' & (l' & [= <-] & Hl') & Hname & _ & Hauth & _).
  assert (pps' = pps) as -> by congruence.
  assert (h !! plugin = Some (record pps)) as Hh by by eapply lookup_weaken.
  unfold Store.merge_auth.
  erewrite bind_Done by by apply get_Done.
  rewrite merge_auth_unfold.
  destruct (auth p) as [a|]; simpl in Hauth.
  - destruct Hauth as [-> Ha]. rewrite Ha.
    destruct cur as [c|]; simpl in Hcur.
    + destruct Hcur as [-> Hc]. rewrite Hc.
      erewrite bind_Done by by eapply get_str_Done.
      by destruct srcname.
    + rewrite Hcur. simpl.
      erewrite bind_Done by by apply get_Done.
      exists a. by rewrite Hname.
  - rewrite Hauth. simpl. exists (r_auth r). split; [|done].
    by destruct r.
Qed.

(** ** Roles *)

Lemma elem_of_fmap_str x (cur : list string) : str x ∈ str <$> cur ↔ x ∈ cur.
Proof.
  rewrite list_elem_of_fmap. split.
  - by intros (y & [= ->] & ?).
  - eauto.
Qed.

Lemma get_ref_Done h l ps k la :
  h !! l = Some (record ps) → prop k ps = ref la →
  (get l k ≫= as_ref) h = Done la h.
Proof.
  intros Hl Hk. erewrite bind_Done by by apply get_chain_Done.
  by rewrite (lookup_chain_own ps k (ref la)).
Qed.

Lemma get_receiver_Done h l ps k la :
  h !! l = Some (record ps) → prop k ps = ref la →
  (get l k ≫= includes_receiver) h = Done la h.
Proof.
  intros Hl Hk. erewrite bind_Done by by apply get_chain_Done.
  by rewrite (lookup_chain_own ps k (ref la)).
Qed.

Lemma bind_Failed {A B} (m : M A) (f : A → M B) h h' :
  m h = Failed h' → (m ≫= f) h = Failed h'.
Proof. intros Hm. unfold mbind, M_bind. by rewrite Hm. Qed.

Lemma push_perms_sim lr rps role la slugs :
  la ≠ lr → prop role rps = ref la →
  ∀ cur h,
    h !! lr = Some (record rps) → h !! la = Some (array (str <$> cur)) →
    push_perms lr role (str <$> slugs) h =
    Done () (<[la := array (str <$> foldl push_new cur slugs)]> h).
Proof.
  intros Hne Hrole. induction slugs as [|x slugs IH]; intros cur h Hlr Hla.
  { simpl. by rewrite insert_id. }
  rewrite fmap_cons. cbn [push_perms foldl].
  erewrite bind_Done by by eapply get_receiver_Done.
  erewrite bind_Done by by apply read_array_Done.
  unfold push_new at 2.
  destruct (decide (str x ∈ str <$> cur)) as [Hin|Hnin].
  - rewrite decide_True by by apply elem_of_fmap_str.
    rewrite ret_bind. by apply IH.
  - rewrite decide_False by by rewrite <-elem_of_fmap_str.
    erewrite bind_Done.
    2:{ erewrite bind_Done by by eapply get_ref_Done. by apply push_Done. }
    rewrite (IH (cur ++ [x])).
    + by rewrite insert_insert_eq.
    + by rewrite lookup_insert_ne.
    + by rewrite lookup_insert_eq, fmap_app.
Qed.

(** Under a role name that reads as an inherited member, the first
    slug stops the run: the member has no [includes]. *)
Lemma push_perms_inherited lr rps role x slugs h :
  h !! lr = Some (record rps) → role ∉ rps.*1 → inherited role →
  push_perms lr role (str <$> x :: slugs) h = Failed h.
Proof.
  intros Hlr Hown Hinh. rewrite fmap_cons. cbn [push_perms].
  apply bind_Failed. erewrite bind_Done by by apply get_chain_Done.
  unfold lookup_chain. rewrite decide_False by done.
  by rewrite decide_True by done.
Qed.

(** Merging one entry into a role that is already there. *)
Lemma roles_at_push (X : gset loc) h lr m role la cur new :
  lr ∈ X → roles_at X h lr m → m !! role = Some cur →
  (∀ rps, h !! lr = Some (record rps) → prop role rps = ref la) →
  roles_at X (<[la := array (str <$> new)]> h) lr (<[role := new]> m).
Proof.
  intros HlrX (rps & arrs & Hlr & Hprops & Hcells & Hinj) Hm Hla.
  specialize (Hla rps Hlr). pose proof (Hprops role) as Hprop.
  pose proof (Hcells role) as Hrole. rewrite Hm in Hrole.
  destruct (arrs !! role) as [la'|] eqn:Harr; [|done].
  assert (la' = la) as -> by congruence.
  destruct Hrole as [Hcell HlaX].
  assert (la ≠ lr) as Hne by by intros ->.
  exists rps, arrs. split_and!; [by rewrite lookup_insert_ne|done| |done].
  intros k. destruct (decide (k = role)) as [->|Hk].
  - by rewrite Harr, !lookup_insert_eq.
  - rewrite lookup_insert_ne by done. specialize (Hcells k).
    destruct (arrs !! k) as [lk|] eqn:Hlk, (m !! k); try done.
    rewrite lookup_insert_ne; [done|]. intros <-. apply Hk. by eapply Hinj.
Qed.

(** Giving a role that is not there yet an array of its own. *)
Lemma roles_at_new (X : gset loc) h lr m rps role la new :
  lr ∈ X → (∀ l, l ∈ X → l ∈ dom h) → la ∉ dom h →
  roles_at X h lr m → h !! lr = Some (record rps) → m !! role = None →
  roles_at X
    (<[la := array (str <$> new)]>
       (<[lr := record (set_prop role (ref la) rps)]> h))
    lr (<[role := new]> m).
Proof.
  intros HlrX HX Hla (rps' & arrs & Hlr' & Hprops & Hcells & Hinj) Hlr Hm.
  assert (rps' = rps) as -> by congruence.
  assert (la ∉ X) as HlaX by (intros ?; by apply Hla, HX).
  assert (la ≠ lr) as Hne by by intros ->.
  assert (arrs !! role = None) as Harr.
  { specialize (Hcells role). rewrite Hm in Hcells.
    by destruct (arrs !! role). }
  assert (∀ k lk, arrs !! k = Some lk → lk ≠ la ∧ lk ≠ lr) as Hold.
  { intros k lk Hk. specialize (Hcells k). rewrite Hk in Hcells.
    destruct (m !! k); [|done]. destruct Hcells as [Hcell HlkX]. split.
    - intros ->. apply Hla, elem_of_dom. eauto.
    - by intros ->. }
  exists (set_prop role (ref la) rps), (<[role := la]> arrs). split_and!.
  - rewrite lookup_insert_ne by done. apply lookup_insert_eq.
  - intros k. rewrite lookup_insert.
    destruct (decide (role = k)) as [->|Hk].
    + by rewrite prop_set_prop, decide_True.
    + specialize (Hprops k). destruct (arrs !! k) as [lk|].
      * by rewrite prop_set_prop, decide_False.
      * rewrite set_prop_keys. intros [?|?]; [congruence|done].
  - intros k. destruct (decide (k = role)) as [->|Hk].
    + by rewrite !lookup_insert_eq.
    + rewrite !(lookup_insert_ne _ role k) by done. specialize (Hcells k).
      destruct (arrs !! k) as [lk|] eqn:Hlk, (m !! k); try done.
      destruct (Hold k lk Hlk). by rewrite !lookup_insert_ne.
  - intros k k' lk. rewrite !lookup_insert.
    destruct (decide (role = k)) as [<-|?], (decide (role = k')) as [<-|?];
      try done.
    + intros [= <-] Hk'. by destruct (Hold k' la Hk').
    + intros Hk [= <-]. by destruct (Hold k la Hk).
    + apply Hinj.
Qed.

Lemma roles_outcome_frame (X : gset loc) lr h h1 o res :
  (∀ l, l ∈ X → l ≠ lr → h1 !! l = h !! l) →
  roles_outcome X lr h1 o res → roles_outcome X lr h o res.
Proof.
  intros Hsame. destruct res as [m'|e|]; simpl; [|done..].
  intros (h' & -> & Hroles & Hsame'). exists h'. split_and!; [done..|].
  intros l Hl Hne. by rewrite Hsame', Hsame.
Qed.

Lemma merge_roles_sim (X : gset loc) (h0 : heap) lr ps es :
  lr ∈ X → dom h0 ⊆ X → lr ∉ dom h0 → Forall2 (rep_role h0) ps es →
  ∀ h m,
    h0 ⊆ h → (∀ l, l ∈ X → l ∈ dom h) → roles_at X h lr m →
    roles_outcome X lr h (Store.merge_roles lr ps h) (Model.merge_roles m es).
Proof.
  intros HlrX Hh0X Hlr0 Hrep.
  induction Hrep as [|[role pv] [role' slugs] ps es Hentry Hrep IH];
    intros h m Hsub HX Hroles.
  { exists h. by simpl. }
  destruct Hentry as [Hrole (pl & Hpv & Hpl)]. simpl in Hrole, Hpv, Hpl.
  subst role' pv. cbn [Store.merge_roles].
  change (Model.merge_roles m ((role, slugs) :: es))
    with (merge_role m (role, slugs) ≫= λ acc', Model.merge_roles acc' es).
  pose proof Hroles as (rps & arrs & Hlr & Hprops & Hcells & Hinj).
  erewrite bind_Done by by apply get_chain_Done.
  pose proof (Hprops role) as Hprop. pose proof (Hcells role) as Hcell.
  assert (∀ h1, h0 ⊆ h1 → read_array pl h1 = Done (str <$> slugs) h1) as Hread.
  { intros h1 Hsub1. apply read_array_Done. by eapply lookup_weaken. }
  unfold merge_role.
  destruct (arrs !! role) as [la|] eqn:Harr.
  - destruct (m !! role) as [cur|] eqn:Hm; [|done].
    destruct Hcell as [Hla HlaX].
    rewrite (lookup_chain_own rps role (ref la)) by done. simpl.
    rewrite !ret_bind.
    erewrite bind_Done by by apply Hread.
    assert (la ≠ lr) as Hne by by intros ->.
    erewrite bind_Done by by eapply push_perms_sim.
    set (h1 := <[la := array (str <$> foldl push_new cur slugs)]> h).
    assert (la ∉ dom h0) as Hla0 by (intros ?; by apply HlaX, Hh0X).
    change (Return ?x ≫= ?f) with (f x). cbn beta.
    apply (roles_outcome_frame X lr h h1).
    { intros l Hl Hllr. unfold h1. rewrite lookup_insert_ne; [done|].
      by intros ->. }
    apply IH.
    + by apply insert_new_subseteq.
    + intros l Hl. apply elem_of_dom. unfold h1.
      rewrite lookup_insert_ne by by intros ->. by apply elem_of_dom, HX.
    + eapply roles_at_push; [done..|]. intros rps' Hrps'.
      assert (rps' = rps) as -> by congruence. done.
  - destruct (m !! role) as [cur|] eqn:Hm; [done|].
    unfold lookup_chain. rewrite decide_False by done.
    destruct (decide (inherited role)) as [Hinh|Hinh].
    + simpl. rewrite !ret_bind.
      erewrite bind_Done by by apply Hread.
      destruct slugs as [|x slugs].
      * simpl. rewrite !ret_bind.
        change (Return ?x ≫= ?f) with (f x). cbn beta. by apply IH.
      * simpl. eexists. apply bind_Failed.
        by eapply push_perms_inherited.
    + simpl.
      set (la := fresh (dom h)).
      assert (la ∉ dom h) as Hla by apply is_fresh.
      assert (la ≠ lr) as Hne.
      { intros Heq. apply Hla. rewrite Heq. by apply HX. }
      assert (la ∉ dom h0) as Hla0.
      { intros Hin. by apply Hla, HX, Hh0X. }
      set (h1 := <[la := array []]> h).
      set (h2 := <[lr := record (set_prop role (ref la) rps)]> h1).
      erewrite bind_Done with (h' := h2) (a := ()).
      2:{ erewrite bind_Done with (h' := h1) (a := la) by done.
          apply set_Done. unfold h1. by rewrite lookup_insert_ne. }
      rewrite ret_bind.
      assert (h0 ⊆ h2) as Hsub2.
      { unfold h2, h1.
        apply insert_new_subseteq; [by apply insert_new_subseteq|done]. }
      erewrite bind_Done by by apply Hread.
      erewrite bind_Done.
      2:{ eapply (push_perms_sim lr _ role la slugs Hne) with (cur := []).
          - by rewrite prop_set_prop, decide_True.
          - unfold h2. apply lookup_insert_eq.
          - unfold h2, h1. rewrite lookup_insert_ne by done.
            apply lookup_insert_eq. }
      set (h3 := <[la := _]> h2).
      assert (h3 = <[la := array (str <$> foldl push_new [] slugs)]>
                     (<[lr := record (set_prop role (ref la) rps)]> h)) as Hh3.
      { unfold h3, h2, h1. rewrite (insert_insert_ne _ lr la) by done.
        by rewrite insert_insert_eq. }
      change (Return ?x ≫= ?f) with (f x). cbn beta.
      apply (roles_outcome_frame X lr h h3).
      { intros l Hl Hllr. rewrite Hh3.
        rewrite lookup_insert_ne; [by rewrite lookup_insert_ne|].
        intros <-. by apply Hla, HX. }
      apply IH.
      * unfold h3. by apply insert_new_subseteq.
      * intros l Hl. apply elem_of_dom. rewrite Hh3.
        destruct (decide (l = la)) as [->|?]; [rewrite lookup_insert_eq; eauto|].
        rewrite lookup_insert_ne by done.
        destruct (decide (l = lr)) as [->|?]; [rewrite lookup_insert_eq; eauto|].
        rewrite lookup_insert_ne by done. by apply elem_of_dom, HX.
      * rewrite Hh3. by eapply roles_at_new.
Qed.

(** ** The cells of the accumulator *)

Lemma roles_at_insert (X : gset loc) h lr m t (o : object) :
  roles_at X h lr m → t ∈ X → t ≠ lr → roles_at X (<[t := o]> h) lr m.
Proof.
  intros (rps & arrs & Hlr & Hprops & Hcells & Hinj) Ht Hne.
  exists rps, arrs. split_and!; [by rewrite lookup_insert_ne|done| |done].
  intros k. specialize (Hcells k).
  destruct (arrs !! k) as [la|], (m !! k); try done.
  destruct Hcells as [Hla HlaX]. split; [|done].
  rewrite lookup_insert_ne; [done|]. by intros ->.
Qed.

Lemma holds_data_insert (X : gset loc) h l d t (o : object) :
  holds_data X h l d → t ∈ X → t ≠ l → holds_data X (<[t := o]> h) l d.
Proof.
  intros Hd Ht Hne. destruct d as [xs|m|m]; simpl in *.
  - by rewrite lookup_insert_ne.
  - destruct Hd as (ps & Hl & Hrep). exists ps. by rewrite lookup_insert_ne.
  - by apply roles_at_insert.
Qed.

Lemma holds_data_same (X : gset loc) h h' l d :
  (∀ m, d ≠ DRoles m) → h' !! l = h !! l →
  holds_data X h l d → holds_data X h' l d.
Proof.
  intros Hd Hl. destruct d as [xs|m|m]; simpl.
  - by rewrite Hl.
  - intros (ps & ? & ?). exists ps. by rewrite Hl.
  - by destruct (Hd m).
Qed.

Lemma loc_of_taken (h0 : heap) r sl : loc_of r sl ∈ taken h0 r.
Proof.
  unfold taken. rewrite elem_of_union, elem_of_list_to_set, list_elem_of_fmap.
  right. exists sl. split; [done|]. destruct sl; unfold slots;
    repeat (first [apply list_elem_of_here | apply list_elem_of_further]).
Qed.

Lemma dom_taken (h0 : heap) r l : l ∈ dom h0 → l ∈ taken h0 r.
Proof. intros Hl. unfold taken. rewrite elem_of_union. by left. Qed.

Lemma rep_slots_update (h0 : heap) h r d sl0 (o : object) x :
  rep_slots h0 h r d →
  holds_data (taken h0 r) (<[loc_of r sl0 := o]> h) (loc_of r sl0) x →
  rep_slots h0 (<[loc_of r sl0 := o]> h) r (update sl0 x d).
Proof.
  intros (Hsub & Hinj & Hnew & Hholds) Hx. split_and!; try done.
  - by apply insert_new_subseteq.
  - intros sl. unfold update. destruct (decide (sl0 = sl)) as [<-|Hne]; [done|].
    + apply holds_data_insert; [done|apply loc_of_taken|].
      intros Heq. by apply Hne, Hinj.
Qed.

Lemma rep_slots_ext (h0 : heap) h r d d' :
  (∀ sl, d sl = d' sl) → rep_slots h0 h r d → rep_slots h0 h r d'.
Proof.
  intros Hext (Hsub & Hinj & Hnew & Hholds). split_and!; try done.
  intros sl. rewrite <-Hext. apply Hholds.
Qed.

Lemma rep_slots_set_auth (h0 : heap) h r a d :
  rep_slots h0 h r d → rep_slots h0 h (set_auth r a) d.
Proof. by destruct r. Qed.

Lemma rep_slots_array (h0 : heap) h r d sl xs :
  rep_slots h0 h r d → d sl = DArray xs → h !! loc_of r sl = Some (array xs).
Proof.
  intros (_ & _ & _ & Hholds) Hd. specialize (Hholds sl). by rewrite Hd in Hholds.
Qed.

Lemma rep_slots_map (h0 : heap) h r d sl m :
  rep_slots h0 h r d → d sl = DMap m → map_at h (loc_of r sl) m.
Proof.
  intros (_ & _ & _ & Hholds) Hd. specialize (Hholds sl). by rewrite Hd in Hholds.
Qed.

(** The step that merges roles touches the role object and role
    arrays only. *)
Lemma rep_slots_roles (h0 : heap) h h' r d m' :
  rep_slots h0 h r d →
  roles_at (taken h0 r) h' (r_roles r) m' →
  (∀ l, l ∈ taken h0 r → l ≠ r_roles r → h' !! l = h !! l) →
  (∀ sl m, sl ≠ SRoles → d sl ≠ DRoles m) →
  rep_slots h0 h' r (update SRoles (DRoles m') d).
Proof.
  intros (Hsub & Hinj & Hnew & Hholds) Hroles Hsame Hd. split_and!; try done.
  - apply map_subseteq_spec. intros l o Hl.
    rewrite Hsame; [by eapply lookup_weaken|apply dom_taken, elem_of_dom; eauto|].
    intros ->. apply (Hnew SRoles), elem_of_dom. eauto.
  - intros sl. unfold update. destruct (decide (SRoles = sl)) as [<-|Hne]; [done|].
    + eapply holds_data_same; [| |apply Hholds].
      * intros m. by apply Hd.
      * apply Hsame; [apply loc_of_taken|].
        intros Heq. by apply Hne, (Hinj SRoles sl).
Qed.

Lemma taken_dom (h0 : heap) h r d l :
  rep_slots h0 h r d → l ∈ taken h0 r → l ∈ dom h.
Proof.
  intros (Hsub & _ & _ & Hholds). unfold taken.
  rewrite elem_of_union, elem_of_list_to_set, list_elem_of_fmap.
  intros [Hl|(sl & -> & _)]; apply elem_of_dom.
  - apply elem_of_dom in Hl as [o Ho]. exists o. by eapply lookup_weaken.
  - specialize (Hholds sl). destruct (d sl); simpl in Hholds.
    + eauto.
    + destruct Hholds as (? & ? & _). eauto.
    + destruct Hholds as (? & ? & ? & _). eauto.
Qed.

Lemma bind_Raised {A B} (m : M A) (f : A → M B) h e h' :
  m h = Raised e h' → (m ≫= f) h = Raised e h'.
Proof. intros Hm. unfold mbind, M_bind. by rewrite Hm. Qed.

(** ** The steps of the loop body on the cells *)

Lemma concat_step (h0 : heap) h r d plugin pps field o sl xs :
  bool_decide (inherited field) = false →
  rep_slots h0 h r d → h0 !! plugin = Some (record pps) →
  rep_list h0 (prop field pps) o → d sl = DArray xs →
  ∃ h', concat_into plugin field (loc_of r sl) h = Done () h' ∧
        rep_slots h0 h' r (update sl (DArray (xs ++ default [] o)) d).
Proof.
  intros Hfield Hslots Hplugin Ho Hd. eexists. split.
  - eapply concat_into_sim; [done|apply Hslots|done..|by eapply rep_slots_array].
  - apply rep_slots_update; [done|]. simpl. apply lookup_insert_eq.
Qed.

Lemma hook_step (h0 : heap) h r d plugin pps field o sl xs :
  bool_decide (inherited field) = false →
  rep_slots h0 h r d → h0 !! plugin = Some (record pps) →
  rep_opt (prop field pps) o → d sl = DArray xs →
  ∃ h', Store.push_hook plugin field (loc_of r sl) h = Done () h' ∧
        rep_slots h0 h' r (update sl (DArray (Model.push_hook xs o)) d).
Proof.
  intros Hfield Hslots Hplugin Ho Hd. eexists. split.
  - eapply push_hook_sim; [done|apply Hslots|done..|by eapply rep_slots_array].
  - apply rep_slots_update; [done|]. simpl. apply lookup_insert_eq.
Qed.

Lemma exclusive_step (h0 : heap) h r d lplugins plugins plugin pps p knd
    field sl m :
  rep_slots h0 h r d → rep_plugins h0 lplugins plugins →
  h0 !! plugin = Some (record pps) → rep_plugin h0 (ref plugin) p →
  d sl = DMap m →
  match Model.merge_exclusive plugins knd field (name p)
          (default [] (field_record field p)) m with
  | Return m' =>
      ∃ h', Store.merge_exclusive lplugins plugin knd (field_name field)
              (loc_of r sl) h = Done () h' ∧
            rep_slots h0 h' r (update sl (DMap m') d)
  | Throw e =>
      ∃ h', Store.merge_exclusive lplugins plugin knd (field_name field)
              (loc_of r sl) h = Raised e h'
  | TypeError => False
  end.
Proof.
  intros Hslots Hplugins Hplugin Hp Hd.
  destruct (rep_slots_map _ _ _ _ _ _ Hslots Hd) as (tps & Ht & Hrep).
  pose proof Hslots as (Hsub & _ & Hnew & _).
  pose proof (merge_exclusive_sim h0 lplugins plugin pps plugins knd field p
                (loc_of r sl) h tps m Hplugins Hplugin Hp (Hnew sl) Hsub Ht Hrep)
    as Hsim.
  destruct (Model.merge_exclusive _ _ _ _ _ _) as [m'|e|].
  - destruct Hsim as (tps' & Hrun & Hrep'). eexists. split; [exact Hrun|].
    apply rep_slots_update; [done|]. simpl. exists tps'.
    by rewrite lookup_insert_eq.
  - destruct Hsim as (tps' & Hrun). eauto.
  - done.
Qed.

Lemma roles_step (h0 : heap) h r d plugin pps o m :
  rep_slots h0 h r d → h0 !! plugin = Some (record pps) →
  rep_roles h0 (prop "roles" pps) o → d SRoles = DRoles m →
  (∀ sl m', sl ≠ SRoles → d sl ≠ DRoles m') →
  match Model.merge_roles m (default [] o) with
  | Return m' =>
      ∃ h', (v ← get plugin "roles";
             if truthy v then
               l ← as_ref v; es ← entries l; Store.merge_roles (r_roles r) es
             else mret ()) h = Done () h' ∧
            rep_slots h0 h' r (update SRoles (DRoles m') d)
  | Throw _ => False
  | TypeError =>
      ∃ h', (v ← get plugin "roles";
             if truthy v then
               l ← as_ref v; es ← entries l; Store.merge_roles (r_roles r) es
             else mret ()) h = Failed h'
  end.
Proof.
  intros Hslots Hplugin Ho Hd Hothers.
  pose proof Hslots as (Hsub & Hinj & Hnew & Hholds).
  pose proof (Hholds SRoles) as Hroles. rewrite Hd in Hroles. simpl in Hroles.
  erewrite bind_Done by (apply get_Done; [by eapply lookup_weaken|done]).
  destruct o as [es|]; simpl in Ho.
  - destruct Ho as (ps & (l & -> & Hl) & Hrep). simpl. rewrite ret_bind.
    erewrite bind_Done by (apply entries_Done; by eapply lookup_weaken).
    assert (dom h0 ⊆ taken h0 r) as Hdom by (intros x; apply dom_taken).
    assert (∀ x, x ∈ taken h0 r → x ∈ dom h) as HX
      by (intros x; by eapply taken_dom).
    pose proof (merge_roles_sim (taken h0 r) h0 (r_roles r) ps es
                  (loc_of_taken h0 r SRoles) Hdom (Hnew SRoles) Hrep
                  h m Hsub HX Hroles) as Hsim.
    unfold roles_outcome in Hsim.
    destruct (Model.merge_roles m es) as [m'|e|]; [|done..].
    destruct Hsim as (h' & Hrun & Hroles' & Hsame).
    exists h'. split; [done|]. by apply (rep_slots_roles h0 h).
  - rewrite Ho. simpl. exists h. split; [done|].
    eapply rep_slots_ext; [|exact Hslots].
    intros sl. unfold update. destruct (decide (SRoles = sl)) as [<-|]; done.
Qed.

(** ** The loop body *)

Lemma merge_plugin_sim (h0 : heap) lplugins plugins v p h r src s :
  rep_plugins h0 lplugins plugins → rep_plugin h0 v p →
  rep_state h0 h r src s →
  match Model.merge_plugin plugins s p with
  | Return s' =>
      ∃ h' r' src', Store.merge_plugin lplugins r src v h = Done (r', src') h' ∧
                    rep_state h0 h' r' src' s'
  | Throw e => ∃ h', Store.merge_plugin lplugins r src v h = Raised e h'
  | TypeError => ∃ h', Store.merge_plugin lplugins r src v h = Failed h'
  end.
Proof.
  intros Hplugins Hp (Hslots & Hauth & Hsrc).
  pose proof Hp as (pps & (plugin & -> & Hplugin) & Hname & Hint & Hau & Hperm
                    & Hroles & Hact & Hmid & Hrt & Hi1 & Hi2 & Hi3 & Hi4).
  rewrite merge_plugin_unfold. unfold Store.merge_plugin.
  cbn [as_ref]. rewrite ret_bind.
  destruct (concat_step h0 h r _ plugin pps "integrations" _ SIntegrations _
              eq_refl Hslots Hplugin Hint eq_refl) as (h1 & Hrun1 & Hslots1).
  erewrite bind_Done by exact Hrun1.
  pose proof (merge_auth_sim h0 h1 plugin pps p r src _ _
                (proj1 Hslots1) Hplugin Hp Hauth Hsrc) as Hsim.
  destruct (Model.merge_auth _ _ _) as [[cur' src']|e|]; [| |done].
  2:{ eexists. by erewrite bind_Raised by exact Hsim. }
  destruct Hsim as (a & Hrun2 & Hauth'). erewrite bind_Done by exact Hrun2.
  cbn beta iota. change (Return ?x ≫= ?f) with (f x). cbn beta.
  apply (rep_slots_set_auth _ _ _ a) in Hslots1.
  pose proof (exclusive_step h0 h1 (set_auth r a) _ lplugins plugins plugin pps
                p "permission" Permissions SPermissions _
                Hslots1 Hplugins Hplugin Hp eq_refl) as Hsim.
  cbn [field_record field_name] in Hsim.
  destruct (Model.merge_exclusive plugins "permission" _ _ _ _)
    as [permissions'|e|]; [| |done].
  2:{ destruct Hsim as (h' & Hrun). exists h'.
      by erewrite bind_Raised by exact Hrun. }
  destruct Hsim as (h2 & Hrun3 & Hslots2). erewrite bind_Done by exact Hrun3.
  change (Return ?x ≫= ?f) with (f x). cbn beta.
  pose proof (roles_step h0 h2 (set_auth r a) _ plugin pps _ _
                Hslots2 Hplugin Hroles eq_refl) as Hsim.
  assert (∀ sl m', sl ≠ SRoles →
            update SPermissions (DMap permissions')
              (update SIntegrations
                 (DArray (resolved_integrations (resolved s) ++
                          default [] (integrations p)))
                 (slot_data s)) sl ≠ DRoles m') as Hothers
    by by intros [] m' ?.
  specialize (Hsim Hothers).
  cbn [update slot_data resolved resolved_roles decide] in Hsim.
  destruct (Model.merge_roles _ _) as [roles'|e|]; [|done|].
  2:{ destruct Hsim as (h' & Hrun). exists h'.
      by erewrite bind_Failed by exact Hrun. }
  destruct Hsim as (h3 & Hrun4 & Hslots3).
  erewrite bind_Done by exact Hrun4.
  change (Return ?x ≫= ?f) with (f x). cbn beta.
  pose proof (exclusive_step h0 h3 (set_auth r a) _ lplugins plugins plugin pps
                p "action" Actions SActions _
                Hslots3 Hplugins Hplugin Hp eq_refl) as Hsim.
  cbn [field_record field_name] in Hsim.
  destruct (Model.merge_exclusive plugins "action" _ _ _ _)
    as [actions'|e|]; [| |done].
  2:{ destruct Hsim as (h' & Hrun). exists h'.
      by erewrite bind_Raised by exact Hrun. }
  destruct Hsim as (h4 & Hrun5 & Hslots4). erewrite bind_Done by exact Hrun5.
  change (Return ?x ≫= ?f) with (f x). cbn beta.
  destruct (concat_step h0 h4 (set_auth r a) _ plugin pps "middleware" _
              SMiddleware _ eq_refl Hslots4 Hplugin Hmid eq_refl)
    as (h5 & Hrun6 & Hslots5).
  erewrite bind_Done by exact Hrun6.
  pose proof (exclusive_step h0 h5 (set_auth r a) _ lplugins plugins plugin pps
                p "route" Routes SRoutes _
                Hslots5 Hplugins Hplugin Hp eq_refl) as Hsim.
  cbn [field_record field_name] in Hsim.
  destruct (Model.merge_exclusive plugins "route" _ _ _ _)
    as [routes'|e|]; [| |done].
  2:{ destruct Hsim as (h' & Hrun). exists h'.
      by erewrite bind_Raised by exact Hrun. }
  destruct Hsim as (h6 & Hrun7 & Hslots6). erewrite bind_Done by exact Hrun7.
  change (Return ?x ≫= ?f) with (f x). cbn beta.
  destruct (hook_step h0 h6 (set_auth r a) _ plugin pps "onInit" _ SOnInit _
              eq_refl Hslots6 Hplugin Hi1 eq_refl) as (h7 & Hrun8 & Hslots7).
  erewrite bind_Done by exact Hrun8.
  destruct (hook_step h0 h7 (set_auth r a) _ plugin pps "onRequest" _
              SOnRequest _ eq_refl Hslots7 Hplugin Hi2 eq_refl)
    as (h8 & Hrun9 & Hslots8).
  erewrite bind_Done by exact Hrun9.
  destruct (hook_step h0 h8 (set_auth r a) _ plugin pps "onError" _
              SOnError _ eq_refl Hslots8 Hplugin Hi3 eq_refl)
    as (h9 & Hrun10 & Hslots9).
  erewrite bind_Done by exact Hrun10.
  destruct (hook_step h0 h9 (set_auth r a) _ plugin pps "onShutdown" _
              SOnShutdown _ eq_refl Hslots9 Hplugin Hi4 eq_refl)
    as (h10 & Hrun11 & Hslots10).
  erewrite bind_Done by exact Hrun11.
  exists h10, (set_auth r a), (from_option str undefined src').
  split; [done|]. split_and!; [|done..].
  eapply rep_slots_ext; [|exact Hslots10]. by intros [].
Qed.

(** ** The loop *)

Lemma resolve_loop_sim (h0 : heap) lplugins plugins vs todo :
  rep_plugins h0 lplugins plugins → Forall2 (rep_plugin h0) vs todo →
  ∀ h r src s,
    rep_state h0 h r src s →
    match Model.resolve_loop plugins todo s with
    | Return s' =>
        ∃ h' r' src',
          Store.resolve_loop lplugins vs r src h = Done (r', src') h' ∧
          rep_state h0 h' r' src' s'
    | Throw e => ∃ h', Store.resolve_loop lplugins vs r src h = Raised e h'
    | TypeError => ∃ h', Store.resolve_loop lplugins vs r src h = Failed h'
    end.
Proof.
  intros Hplugins. induction 1 as [|v p vs todo Hp _ IH]; intros h r src s Hs.
  - by exists h, r, src.
  - change (Model.resolve_loop plugins (p :: todo) s)
      with (Model.merge_plugin plugins s p ≫= Model.resolve_loop plugins todo).
    cbn [Store.resolve_loop].
    pose proof (merge_plugin_sim h0 lplugins plugins v p h r src s
                  Hplugins Hp Hs) as Hsim.
    destruct (Model.merge_plugin plugins s p) as [s'|e|].
    + destruct Hsim as (h' & r' & src' & Hrun & Hs').
      erewrite bind_Done by exact Hrun. apply (IH _ _ _ _ Hs').
    + destruct Hsim as (h' & Hrun). exists h'.
      by erewrite bind_Raised by exact Hrun.
    + destruct Hsim as (h' & Hrun). exists h'.
      by erewrite bind_Failed by exact Hrun.
Qed.

(** ** The literals of the accumulator *)

Lemma map_at_empty h l : h !! l = Some (record []) → map_at h l ∅.
Proof.
  intros Hl. exists []. split; [done|]. intros k. rewrite lookup_empty.
  apply not_elem_of_nil.
Qed.

Lemma roles_at_empty (X : gset loc) h l :
  h !! l = Some (record []) → roles_at X h l ∅.
Proof.
  intros Hl. exists [], ∅. split_and!; [done| | |].
  - intros k. rewrite lookup_empty. apply not_elem_of_nil.
  - intros k. by rewrite !lookup_empty.
  - intros k k' la. by rewrite lookup_empty.
Qed.

Lemma new_resolved_sim (h0 : heap) :
  ∃ r h, new_resolved h0 = Done r h ∧ rep_state h0 h r undefined initial.
Proof.
  unfold new_resolved, mbind, M_bind, mret, M_ret.
  do 10 StoreFacts.next_alloc. eexists _, _. split; [done|].
  destruct_and!. split; [|done]. split_and!.
  - by repeat apply insert_new_subseteq.
  - intros [] []; simpl; congruence.
  - by intros [].
  - intros []; simpl;
      first [apply map_at_empty | apply roles_at_empty | idtac];
      repeat (rewrite lookup_insert_ne by congruence);
      by rewrite lookup_insert_eq.
Qed.

(** ** The whole call *)

(** A call on a store that holds the descriptors [plugins] returns
    when the functional model returns, with an accumulator whose cells
    hold the mappings and lists the model returns, throws the conflict
    the model throws, and fails with a [TypeError] when the model
    does. *)
Theorem resolvePlugins_refines (h0 : heap) l plugins :
  rep_plugins h0 l plugins →
  refines h0 (Store.resolvePlugins l h0) (Model.resolvePlugins plugins).
Proof.
  intros Hplugins. pose proof Hplugins as (vs & Hl & Hvs).
  destruct (new_resolved_sim h0) as (r & h & Hnew & Hs).
  unfold Store.resolvePlugins. erewrite bind_Done by exact Hnew.
  erewrite bind_Done
    by (apply read_array_Done; eapply lookup_weaken; [exact Hl|apply Hs]).
  pose proof (resolve_loop_sim h0 l plugins vs plugins Hplugins Hvs
                h r undefined initial Hs) as Hsim.
  unfold refines, Model.resolvePlugins.
  destruct (Model.resolve_loop plugins plugins initial) as [s'|e|]; simpl.
  - destruct Hsim as (h' & r' & src' & Hrun & Hs').
    exists r', h', src', s'. split; [|done].
    by erewrite bind_Done by exact Hrun.
  - destruct Hsim as (h' & Hrun). exists h'.
    by erewrite bind_Raised by exact Hrun.
  - destruct Hsim as (h' & Hrun). exists h'.
    by erewrite bind_Failed by exact Hrun.
Qed.

(** The two scenario stores hold the descriptors of their scenarios,
    so their runs are the results of the functional model. *)
Example editor_store_rep : rep_plugins editor_store 0 editor_plugins.
Proof.
  exists [ref 1; ref 2]. split; [done|].
  repeat constructor.
  - exists [("name", str "A"); ("roles", ref 3)].
    split; [by exists 1|]. split_and!; try done.
    exists [("editor", ref 4)]. split; [by exists 3|].
    repeat constructor. by exists 4.
  - exists [("name", str "B"); ("roles", ref 5)].
    split; [by exists 2|]. split_and!; try done.
    exists [("editor", ref 6)]. split; [by exists 5|].
    repeat constructor. by exists 6.
Qed.

Example editor_store_refines :
  refines editor_store (Store.resolvePlugins 0 editor_store)
    (Model.resolvePlugins editor_plugins).
Proof. apply resolvePlugins_refines, editor_store_rep. Qed.

Example p1_store_rep : rep_plugins p1_store 0 p1_plugins.
Proof.
  exists [ref 1; ref 2]. split; [done|].
  repeat constructor.
  - exists [("name", str "A"); ("permissions", ref 3)].
    split; [by exists 1|]. split_and!; try done.
    split; [by exists 3|]. by repeat constructor.
  - exists [("name", str "B"); ("permissions", ref 4)].
    split; [by exists 2|]. split_and!; try done.
    split; [by exists 4|]. by repeat constructor.
Qed.

Example p1_store_refines :
  Model.resolvePlugins p1_plugins =
    Throw {| kind := "permission"; key := "p1";
             pluginA := "A"; pluginB := "B" |} ∧
  refines p1_store (Store.resolvePlugins 0 p1_store)
    (Model.resolvePlugins p1_plugins).
Proof.
  split; [by vm_compute|]. apply resolvePlugins_refines, p1_store_rep.
Qed.

Example toString_store_rep : rep_plugins toString_store 0 toString_plugins.
Proof.
  exists [ref 1]. split; [done|].
  repeat constructor.
  exists [("name", str "A"); ("permissions", ref 2)].
  split; [by exists 1|]. split_and!; try done.
  split; [by exists 2|]. by repeat constructor.
Qed.

Example constructor_store_rep :
  rep_plugins constructor_store 0 constructor_plugins.
Proof.
  exists [ref 1]. split; [done|].
  repeat constructor.
  exists [("name", str "A"); ("roles", ref 2)].
  split; [by exists 1|]. split_and!; try done.
  exists [("constructor", ref 3)]. split; [by exists 2|].
  repeat constructor. by exists 3.
Qed.

(** On both stores the run ends as the functional model does. *)
Example inherited_names_refine :
  Model.resolvePlugins toString_plugins =
    Throw {| kind := "permission"; key := "toString";
             pluginA := "engine config"; pluginB := "A" |} ∧
  refines toString_store (Store.resolvePlugins 0 toString_store)
    (Model.resolvePlugins toString_plugins) ∧
  Model.resolvePlugins constructor_plugins = TypeError ∧
  refines constructor_store (Store.resolvePlugins 0 constructor_store)
    (Model.resolvePlugins constructor_plugins).
Proof.
  split_and!; [by vm_compute| |by vm_compute|].
  - apply resolvePlugins_refines, toString_store_rep.
  - apply resolvePlugins_refines, constructor_store_rep.
Qed.

(** ** What a run on a well-shaped store gives *)

Lemma rep_state_result (h0 : heap) h r src s :
  rep_state h0 h r src s → holds_result (taken h0 r) h r (resolved s).
Proof.
  intros ((_ & _ & _ & Hholds) & Hauth & _). unfold holds_result.
  split_and!; [apply (Hholds SIntegrations)|done|apply (Hholds SPermissions)
    |apply (Hholds SRoles)|apply (Hholds SActions)|apply (Hholds SMiddleware)
    |apply (Hholds SRoutes)|apply (Hholds SOnInit)|apply (Hholds SOnRequest)
    |apply (Hholds SOnError)|apply (Hholds SOnShutdown)].
Qed.

(** X10. On a store whose descriptor array holds descriptors shaped
    as the type [Plugin] says, a call does not stop on an ill-shaped
    value: it returns an accumulator whose cells hold the configuration
    the functional model returns, or throws the conflict the functional
    model throws, or fails with a [TypeError] where the functional
    model does. *)
Theorem run_on_typed_store (h0 : heap) l plugins :
  rep_plugins h0 l plugins →
  match Store.resolvePlugins l h0 with
  | Done r h =>
      ∃ acc, Model.resolvePlugins plugins = Return acc ∧
             holds_result (taken h0 r) h r acc
  | Raised e h => Model.resolvePlugins plugins = Throw e
  | Failed h => Model.resolvePlugins plugins = TypeError
  | Stuck _ => False
  end.
Proof.
  intros Hrep. pose proof (resolvePlugins_refines h0 l plugins Hrep) as Href.
  unfold refines in Href.
  destruct (Model.resolvePlugins plugins) as [acc|e|].
  - destruct Href as (r & h & src & s & -> & <- & Hs).
    exists (resolved s). split; [done|]. by eapply rep_state_result.
  - by destruct Href as (h & ->).
  - by destruct Href as (h & ->).
Qed.

(** X11. Whatever the store holds, the arrays and objects of a
    returned accumulator are cells the call made: none of them, and
    no array of a resolved role, was in the store before the call, so
    the result shares no container with a descriptor. *)
Theorem result_cells_fresh (plugins : loc) h r h' :
  Store.resolvePlugins plugins h = Done r h' →
  (∀ sl, loc_of r sl ∉ dom h) ∧
  ∃ ps, h' !! r_roles r = Some (record ps) ∧ fresh_refs (dom h) ps.
Proof.
  intros Hrun.
  destruct (StoreFacts.new_resolved_spec h) as (r0 & h1 & Hnew & HI & Hr0).
  assert (triple (Inv h (r_roles r0))
            (ps ← read_array plugins;
             '(r', _) ← resolve_loop plugins ps r0 undefined;
             mret r') (owned h (r_roles r0))) as Htriple.
  { eapply StoreFacts.triple_bind; [apply StoreFacts.triple_read_array|].
    intros ps _.
    eapply StoreFacts.triple_bind; [by apply StoreFacts.triple_resolve_loop|].
    intros [r' src'] Hr'. by apply StoreFacts.triple_ret. }
  specialize (Htriple h1 HI).
  unfold Store.resolvePlugins in Hrun. erewrite bind_Done in Hrun by exact Hnew.
  rewrite Hrun in Htriple. destruct Htriple as [[_ Hroles] Hown].
  destruct Hown as (Hlr & ? & ? & ? & ? & ? & ? & ? & [? _] & [? _] & [? _]).
  split.
  - rewrite <-Hlr in *. by intros [].
  - by rewrite Hlr.
Qed.

Lemma rep_plugin_weaken (h0 : heap) h v p :
  h0 ⊆ h → rep_plugin h0 v p → rep_plugin h v p.
Proof.
  intros Hsub (ps & Hrec & Hname & Hint & Hau & Hperm & Hroles & Hact & Hmid
               & Hrt & Hhooks).
  assert (∀ v o, rep_list h0 v o → rep_list h v o) as Hlist.
  { intros v' [xs|]; simpl; [by apply is_array_weaken|done]. }
  assert (∀ v o, rep_map h0 v o → rep_map h v o) as Hmap.
  { intros v' [es|]; simpl; [|done].
    intros [? ?]. split; [by eapply is_record_weaken|done]. }
  exists ps. split_and!; eauto using is_record_weaken; try apply Hhooks.
  unfold rep_roles in *. destruct (roles p) as [es|]; [|done].
  destruct Hroles as (ps' & Hps' & Hall). exists ps'.
  split; [by eapply is_record_weaken|].
  eapply Forall2_impl; [exact Hall|]. intros kv entry [? ?].
  split; [done|by eapply is_array_weaken].
Qed.

Lemma rep_plugins_weaken (h0 : heap) h l plugins :
  h0 ⊆ h → rep_plugins h0 l plugins → rep_plugins h l plugins.
Proof.
  intros Hsub (vs & Hl & Hall). exists vs.
  split; [by eapply lookup_weaken|].
  eapply Forall2_impl; [exact Hall|]. intros v p. by apply rep_plugin_weaken.
Qed.

Lemma map_at_weaken h h' l (m : gmap string val) :
  h ⊆ h' → map_at h l m → map_at h' l m.
Proof.
  intros Hsub (ps & Hl & Hps). exists ps. eauto using lookup_weaken.
Qed.

Lemma roles_at_weaken X h h' l m :
  h ⊆ h' → roles_at X h l m → roles_at X h' l m.
Proof.
  intros Hsub (ps & arrs & Hl & Hprop & Harrs & Hinj). exists ps, arrs.
  split_and!; [by eapply lookup_weaken|done| |done].
  intros k. specialize (Harrs k).
  destruct (arrs !! k), (m !! k); try done.
  destruct Harrs. eauto using lookup_weaken.
Qed.

Lemma holds_result_weaken X h h' r acc :
  h ⊆ h' → holds_result X h r acc → holds_result X h' r acc.
Proof.
  intros Hsub (? & ? & ? & ? & ? & ? & ? & ? & ? & ? & ?).
  unfold holds_result.
  split_and!; eauto using lookup_weaken, map_at_weaken, roles_at_weaken.
Qed.

(** X12. A second call on the same descriptor array returns an
    accumulator that shares no cell with the first one and leaves the
    first one as it was; both hold the same configuration. *)
Theorem repeated_calls_independent (h0 : heap) l plugins r1 h1 :
  rep_plugins h0 l plugins →
  Store.resolvePlugins l h0 = Done r1 h1 →
  ∃ r2 h2 acc,
    Store.resolvePlugins l h1 = Done r2 h2 ∧
    (∀ sl sl', loc_of r1 sl ≠ loc_of r2 sl') ∧
    h1 ⊆ h2 ∧
    holds_result (taken h0 r1) h2 r1 acc ∧
    holds_result (taken h1 r2) h2 r2 acc.
Proof.
  intros Hrep Hrun1.
  pose proof (resolvePlugins_refines h0 l plugins Hrep) as Href.
  unfold refines in Href. rewrite Hrun1 in Href.
  destruct (Model.resolvePlugins plugins) as [acc|e|] eqn:Hmodel;
    [|by destruct Href as (? & ?)..].
  destruct Href as (r & h & src & s & [= <- <-] & <- & Hs).
  pose proof Hs as ((Hsub & _ & _ & Hholds) & _).
  pose proof (resolvePlugins_refines h1 l plugins
                (rep_plugins_weaken h0 h1 l plugins Hsub Hrep)) as Href.
  unfold refines in Href. rewrite Hmodel in Href.
  destruct Href as (r2 & h2 & src2 & s2 & Hrun2 & Heq & Hs2).
  pose proof Hs2 as ((Hsub2 & _ & Hnew2 & _) & _).
  exists r2, h2, (resolved s). split_and!; [done| |done| |].
  - intros sl sl' Heq'. apply (Hnew2 sl'). rewrite <-Heq'.
    eapply taken_dom; [apply Hs|apply loc_of_taken].
  - eapply holds_result_weaken; [exact Hsub2|]. by eapply rep_state_result.
  - rewrite <-Heq. by eapply rep_state_result.
Qed.

(** ** The three properties on the role-merge store *)

Lemma run_on_typed_store_witness :
  rep_plugins editor_store 0 editor_plugins ∧
  match Store.resolvePlugins 0 editor_store with
  | Done r h =>
      ∃ acc, Model.resolvePlugins editor_plugins = Return acc ∧
             holds_result (taken editor_store r) h r acc
  | Raised e h => Model.resolvePlugins editor_plugins = Throw e
  | Failed h => Model.resolvePlugins editor_plugins = TypeError
  | Stuck _ => False
  end.
Proof.
  split; [exact editor_store_rep|].
  exact (run_on_typed_store editor_store 0 editor_plugins editor_store_rep).
Defined.

Lemma result_cells_fresh_witness :
  ∃ r h', Store.resolvePlugins 0 editor_store = Done r h' ∧
          (∀ sl, loc_of r sl ∉ dom editor_store) ∧
          ∃ ps, h' !! r_roles r = Some (record ps) ∧
                fresh_refs (dom editor_store) ps.
Proof.
  eexists _, _. split; [vm_compute; reflexivity|].
  apply (result_cells_fresh 0 editor_store). vm_compute. reflexivity.
Defined.

Lemma repeated_calls_independent_witness :
  ∃ r1 h1, Store.resolvePlugins 0 editor_store = Done r1 h1 ∧
    ∃ r2 h2 acc,
      Store.resolvePlugins 0 h1 = Done r2 h2 ∧
      (∀ sl sl', loc_of r1 sl ≠ loc_of r2 sl') ∧
      h1 ⊆ h2 ∧
      holds_result (taken editor_store r1) h2 r1 acc ∧
      holds_result (taken h1 r2) h2 r2 acc.
Proof.
  eexists _, _. split; [vm_compute; reflexivity|].
  apply (repeated_calls_independent editor_store 0 editor_plugins);
    [exact editor_store_rep|]. vm_compute. reflexivity.
Defined.

(** [definePlugin] returns the reference it was given and touches no
    cell. *)
Lemma definePlugin_Done v h : definePlugin v h = Done v h.
Proof. done. Qed.

End StoreRefinement.
